(** * Tax calculator: the calculators and the profile store of [tax_cal.py]

    A shallow embedding of [tax_cal.py]: the data classes [Bracket] and
    [TaxProfile], their JSON helpers, [load_profiles], [save_profiles],
    [compute_tax_flat] and [compute_tax_progressive], and of the form the
    methods that validate its fields, calculate and save a profile; then
    the properties its specification states about them, and further
    properties of the code.

    Numbers.  A finite float is the rational it stands for ([Q], compared
    with [==]); the only non-finite float the modelled code creates itself
    is [float("inf")], for the upper bound of an unbounded bracket: the
    constructor [PosInf] of [xfloat].  The calculators come in three
    readings.  Without rounding ([compute_tax_flat],
    [compute_tax_progressive]): every operation is exact; what is proved
    of them here is about order, sign and structure, or is a step towards
    a statement with rounding.  With rounding ([compute_tax_flat_rnd],
    [compute_tax_progressive_rnd]): every operation rounds its exact
    result, by [binary64] for Python's floats.  On the floats of the
    kernel ([compute_tax_flat64], [compute_tax_progressive64]): evaluated
    on examples.  NaN, negative infinity and overflow are outside the
    first two. *)

From Stdlib Require Import Floats.
From Stdlib Require Import Ascii String Bool Arith ZArith QArith Qabs Lqa Lia List Sorted
  Permutation.
Import ListNotations.

Set Warnings "-register-all,-inexact-float".

Open Scope string_scope.
Open Scope list_scope.
Open Scope Q_scope.

(** ** Python values and outcomes of a call *)

(** The exceptions the modelled functions can raise. *)
Inductive exn : Type :=
| IndexError
| TypeError
| AttributeError
| OverflowError.

(** What a call does: it returns a value, raises an exception, or leaves
    the typed model ([Unmodelled]): Python goes on with a value that
    violates a dataclass annotation, or parses a string as a float.
    Nothing is claimed about an [Unmodelled] call. *)
Inductive outcome (A : Type) : Type :=
| Return (a : A)
| Raise (e : exn)
| Unmodelled.

Arguments Return {A} a.
Arguments Raise {A} e.
Arguments Unmodelled {A}.

Definition bind {A B : Type} (c : outcome A) (k : A -> outcome B) : outcome B :=
  match c with
  | Return a => k a
  | Raise e => Raise e
  | Unmodelled => Unmodelled
  end.

Notation "x <- c ;; k" := (bind c (fun x => k))
  (at level 61, c at next level, right associativity).

(** Evaluating [f] on the items of a list from left to right, as a list
    comprehension does; the first item that does not return decides. *)
Fixpoint mapM {A B : Type} (f : A -> outcome B) (l : list A) : outcome (list B) :=
  match l with
  | [] => Return []
  | x :: rest =>
      y <- f x ;;
      ys <- mapM f rest ;;
      Return (y :: ys)
  end.

(** ** Floats *)

(** A float that may be [float("inf")]. *)
Inductive xfloat : Type :=
| Fin (q : Q)
| PosInf.

(** [a <= b] on such floats, the order [sorted] uses on the keys. *)
Definition xfloat_leb (a b : xfloat) : bool :=
  match a, b with
  | Fin x, Fin y => Qle_bool x y
  | _, PosInf => true
  | PosInf, Fin _ => false
  end.

(** [a != float("inf")]. *)
Definition is_finite (a : xfloat) : bool :=
  match a with
  | Fin _ => true
  | PosInf => false
  end.

(** Python's [max(a, b)] on two floats: [b] when [b > a], else [a]. *)
Definition py_max (a b : Q) : Q :=
  if Qlt_le_dec a b then b else a.

(** Python's [min(a, b)] on two floats: [b] when [b < a], else [a]. *)
Definition py_min (a b : Q) : Q :=
  if Qlt_le_dec b a then b else a.

(** ** Data models *)

(** [@dataclass class Bracket]: [up_to: Optional[float]] ([None] means
    infinity) and [rate: float], a percentage. *)
Record Bracket : Type := mkBracket {
  up_to : option Q;
  rate : Q
}.

(** A [Bracket] object whose [up_to] holds a float, possibly
    [float("inf")], and never [None]: what the list [cleaned] of
    [compute_tax_progressive] holds. *)
Record FBracket : Type := mkFBracket {
  f_up_to : xfloat;
  f_rate : Q
}.

(** ** Flat calculator *)

(** [compute_tax_flat(taxable, rate)]. *)
Definition compute_tax_flat (taxable rate : Q) : Q * Q :=
  let tax := py_max 0 taxable * (rate / 100) in
  (tax, rate).

(** ** Progressive calculator *)

(** [Bracket(float("inf") if b.up_to is None else float(b.up_to), float(b.rate))];
    [float] of a float is that float. *)
Definition normalize (b : Bracket) : FBracket :=
  mkFBracket (match up_to b with
              | None => PosInf
              | Some u => Fin u
              end)
             (rate b).

(** [sorted(l, key=key)]: a stable sort, ascending in the key.  The item
    [x] of [x :: l] goes before the first item of the sorted [l] whose key
    is not below its own, so equal keys keep their input order. *)
Section Sorted.
Context {A : Type} (key : A -> xfloat).

Fixpoint insert_by (x : A) (l : list A) : list A :=
  match l with
  | [] => [x]
  | y :: rest =>
      if xfloat_leb (key x) (key y) then x :: y :: rest
      else y :: insert_by x rest
  end.

Fixpoint sorted_by (l : list A) : list A :=
  match l with
  | [] => []
  | x :: rest => insert_by x (sorted_by rest)
  end.
End Sorted.

(** [l[-1]], when [l] is not empty. *)
Fixpoint last_item {A : Type} (l : list A) : option A :=
  match l with
  | [] => None
  | [x] => Some x
  | _ :: rest => last_item rest
  end.

(** [cleaned] until the loop starts: the normalised brackets, sorted,
    then the synthetic unbounded bracket when the last one is bounded.
    [cleaned[-1]] raises [IndexError] on an empty list. *)
Definition cleaned_brackets (brackets : list Bracket) : outcome (list FBracket) :=
  let cleaned := sorted_by f_up_to (map normalize brackets) in
  match last_item cleaned with
  | None => Raise IndexError
  | Some last_b =>
      if is_finite (f_up_to last_b)
      then Return (cleaned ++ [mkFBracket PosInf (f_rate last_b)])
      else Return cleaned
  end.

(** The local variables of the loop. *)
Record walk_state : Type := mkState {
  remaining : Q;
  lower_bound : xfloat;
  total_tax : Q;
  marginal_rate : Q
}.

(** [max(0.0, min(remaining, upper_bound - lower_bound))].  With a finite
    [lower_bound] and an infinite [upper_bound] the difference is [inf]
    and [min] gives [remaining].  The loop never gets to the two cases with
    an infinite [lower_bound]; they are given as Python has them:
    [u - inf] is [-inf], so [min] gives [-inf] and [max] gives [0.0];
    [inf - inf] is NaN, no comparison with NaN holds, so [min] gives
    [remaining]. *)
Definition span_of (rem : Q) (upper lower : xfloat) : Q :=
  match upper, lower with
  | Fin u, Fin l => py_max 0 (py_min rem (u - l))
  | PosInf, Fin _ => py_max 0 rem
  | Fin _, PosInf => 0
  | PosInf, PosInf => py_max 0 rem
  end.

(** One pass through the body of [for b in cleaned], up to [break]. *)
Definition walk_step (b : FBracket) (st : walk_state) : walk_state :=
  let upper_bound := f_up_to b in
  let span := span_of (remaining st) upper_bound (lower_bound st) in
  if Qlt_le_dec 0 span
  then mkState (remaining st - span) upper_bound
               (total_tax st + span * (f_rate b / 100)) (f_rate b)
  else mkState (remaining st) upper_bound (total_tax st) (marginal_rate st).

(** [for b in cleaned: ...; if remaining <= 0: break]. *)
Fixpoint walk (cleaned : list FBracket) (st : walk_state) : walk_state :=
  match cleaned with
  | [] => st
  | b :: rest =>
      let st' := walk_step b st in
      if Qlt_le_dec 0 (remaining st') then walk rest st' else st'
  end.

(** The state when the loop starts. *)
Definition initial_state (taxable : Q) : walk_state :=
  mkState (py_max 0 taxable) (Fin 0) 0 0.

(** The state when the loop of [compute_tax_progressive] is left. *)
Definition final_state (taxable : Q) (brackets : list Bracket) : outcome walk_state :=
  cleaned <- cleaned_brackets brackets ;;
  Return (walk cleaned (initial_state taxable)).

(** [compute_tax_progressive(taxable, brackets)]: [(total_tax, marginal_rate)]. *)
Definition compute_tax_progressive (taxable : Q) (brackets : list Bracket)
  : outcome (Q * Q) :=
  st <- final_state taxable brackets ;;
  Return (total_tax st, marginal_rate st).

(** ** JSON documents *)

(** The Python values [json.load] produces and [to_json] builds.  A JSON
    number written without fraction or exponent is an [int] ([PInt]), of
    any size; any other number is a [float] ([PNum]).  A [dict] keeps its
    items in insertion order. *)
Inductive pyval : Type :=
| PNone
| PBool (b : bool)
| PInt (z : Z)
| PNum (q : Q)
| PStr (s : string)
| PList (items : list pyval)
| PDict (items : list (string * pyval)).

(** A Python [dict] with string keys: its items in insertion order, no
    key twice. *)
Definition dict (V : Type) : Type := list (string * V).

(** [d[k]] when [k in d]. *)
Fixpoint dict_get {V : Type} (k : string) (d : dict V) : option V :=
  match d with
  | [] => None
  | (k', v) :: rest => if String.eqb k k' then Some v else dict_get k rest
  end.

(** [d.get(k, default)]. *)
Definition get_default {V : Type} (k : string) (default : V) (d : dict V) : V :=
  match dict_get k d with
  | Some v => v
  | None => default
  end.

(** [d[k] = v]: a key already there keeps its place and gets the new
    value; a new key goes last. *)
Fixpoint dict_set {V : Type} (k : string) (v : V) (d : dict V) : dict V :=
  match d with
  | [] => [(k, v)]
  | (k', v') :: rest =>
      if String.eqb k k' then (k', v) :: rest
      else (k', v') :: dict_set k v rest
  end.

(** [for k, v in items: d[k] = v]. *)
Definition set_items {V : Type} (items : list (string * V)) (d : dict V) : dict V :=
  fold_left (fun d kv => dict_set (fst kv) (snd kv) d) items d.

(** [{k: v for k, v in items}]: the items are set one after the other,
    from the empty dictionary. *)
Definition dict_of_items {V : Type} (items : list (string * V)) : dict V :=
  set_items items [].

(** [list(d.keys())] and [list(d.values())]. *)
Definition keys {V : Type} (d : dict V) : list string := map fst d.
Definition values {V : Type} (d : dict V) : list V := map snd d.

(** The integers every one of which a float holds exactly: up to [2^53]
    in magnitude. *)
Definition exact_int (z : Z) : bool := (Z.abs z <=? 2 ^ 53)%Z.

(** [float(v)]: a float is itself, [True] and [False] are [1.0] and
    [0.0], [None] and containers raise [TypeError].  An [int] is
    converted: exactly when it is at most [2^53] in magnitude; from
    [2^1024] on [OverflowError] is raised ("int too large to convert to
    float"); in between it is rounded to a nearest float, or overflows
    just below [2^1024], which the model does not follow.  A string is
    parsed, which the model does not follow either. *)
Definition py_float (v : pyval) : outcome Q :=
  match v with
  | PNum q => Return q
  | PInt z =>
      if exact_int z then Return (inject_Z z)
      else if (2 ^ 1024 <=? Z.abs z)%Z then Raise OverflowError
      else Unmodelled
  | PBool b => Return (if b then 1 else 0)
  | PStr _ => Unmodelled
  | PNone | PList _ | PDict _ => Raise TypeError
  end.

(** Looking up the method [get] or [items] of [v]: only a [dict] has
    them. *)
Definition dict_items (v : pyval) : outcome (dict pyval) :=
  match v with
  | PDict items => Return items
  | _ => Raise AttributeError
  end.

Fixpoint chars (s : string) : list pyval :=
  match s with
  | EmptyString => []
  | String c rest => PStr (String c EmptyString) :: chars rest
  end.

(** [for b in v]: a list gives its items, a string its characters, a
    [dict] its keys; [None], a number or a boolean raise [TypeError]. *)
Definition py_iter (v : pyval) : outcome (list pyval) :=
  match v with
  | PList items => Return items
  | PStr s => Return (chars s)
  | PDict items => Return (map (fun kv => PStr (fst kv)) items)
  | PNone | PBool _ | PInt _ | PNum _ => Raise TypeError
  end.

(** A value stored unchecked in a field annotated [str]. *)
Definition as_str (v : pyval) : outcome string :=
  match v with
  | PStr s => Return s
  | _ => Unmodelled
  end.

(** A value stored unchecked in a field annotated [Optional[float]]: an
    [int] is stored as it is, and stands for the float of the same value
    when a float holds it exactly. *)
Definition as_optional_float (v : pyval) : outcome (option Q) :=
  match v with
  | PNone => Return None
  | PNum q => Return (Some q)
  | PInt z => if exact_int z then Return (Some (inject_Z z)) else Unmodelled
  | _ => Unmodelled
  end.

(** ** Profiles *)

(** [@dataclass class TaxProfile].  The default of [brackets] is [None]. *)
Record TaxProfile : Type := mkTaxProfile {
  name : string;
  mode : string;
  flat_rate : Q;
  brackets : option (list Bracket)
}.

(** [dataclasses.asdict(b)] for a [Bracket]. *)
Definition asdict (b : Bracket) : pyval :=
  PDict [ ("up_to", match up_to b with
                    | None => PNone
                    | Some u => PNum u
                    end);
          ("rate", PNum (rate b)) ].

(** [x or []] for a list or [None]. *)
Definition or_empty {A : Type} (x : option (list A)) : list A :=
  match x with
  | Some l => l
  | None => []
  end.

(** [TaxProfile.to_json(self)]. *)
Definition to_json (self : TaxProfile) : pyval :=
  PDict [ ("name", PStr (name self));
          ("mode", PStr (mode self));
          ("flat_rate", PNum (flat_rate self));
          ("brackets", PList (map asdict (or_empty (brackets self)))) ].

(** [Bracket(b.get("up_to"), float(b.get("rate", 0)))]. *)
Definition bracket_from_json (b : pyval) : outcome Bracket :=
  items <- dict_items b ;;
  let up_to_v := get_default "up_to" PNone items in
  r <- py_float (get_default "rate" (PInt 0) items) ;;
  u <- as_optional_float up_to_v ;;
  Return (mkBracket u r).

(** [TaxProfile.from_json(d)].  The arguments are evaluated in the order
    they are written; [name], [mode] and [up_to] are stored as they come. *)
Definition from_json (d : pyval) : outcome TaxProfile :=
  items <- dict_items d ;;
  let name_v := get_default "name" (PStr "Unnamed") items in
  let mode_v := get_default "mode" (PStr "flat") items in
  fr <- py_float (get_default "flat_rate" (PNum 10) items) ;;
  bl <- py_iter (get_default "brackets" (PList []) items) ;;
  bs <- mapM bracket_from_json bl ;;
  n <- as_str name_v ;;
  m <- as_str mode_v ;;
  Return (mkTaxProfile n m fr (Some bs)).

(** ** Persisting profiles *)

(** The sample progressive schedule [load_profiles] seeds. *)
Definition sample_brackets : list Bracket :=
  [ mkBracket (Some 10000) 5;
    mkBracket (Some 30000) 10;
    mkBracket (Some 80000) 20;
    mkBracket None 30 ].

(** [default] in [load_profiles]. *)
Definition default_store : dict pyval :=
  [ ("Flat 10%", to_json (mkTaxProfile "Flat 10%" "flat" 10 (Some [])));
    ("Sample Progressive",
     to_json (mkTaxProfile "Sample Progressive" "progressive" 10
                           (Some sample_brackets))) ].

(** [{k: TaxProfile.from_json(v) for k, v in items}]. *)
Definition profiles_of_items (items : dict pyval) : outcome (dict TaxProfile) :=
  kps <- mapM (fun kv => p <- from_json (snd kv) ;; Return (fst kv, p)) items ;;
  Return (dict_of_items kps).

(** [{v.name: v for v in profiles.values()}]. *)
Definition rekey (profiles : dict TaxProfile) : dict TaxProfile :=
  dict_of_items (map (fun v => (name v, v)) (values profiles)).

(** [load_profiles()] when the profile file exists and [json.load] gives
    [raw]. *)
Definition load_existing (raw : pyval) : outcome (dict TaxProfile) :=
  items <- dict_items raw ;;
  profiles <- profiles_of_items items ;;
  Return (rekey profiles).

(** [load_profiles()].  [file] is the JSON document in the profile file,
    [None] when there is no file; the result comes with the document in
    the file after the call. *)
Definition load_profiles (file : option pyval)
  : outcome (dict TaxProfile) * option pyval :=
  match file with
  | None => (profiles_of_items default_store, Some (PDict default_store))
  | Some raw => (load_existing raw, Some raw)
  end.

(** ** Objects in memory *)

(** [compute_tax_progressive] gets a reference to a list of references to
    [Bracket] objects.  The heap holds these objects; an address is an
    index in it. *)
Definition addr : Type := nat.

Inductive obj : Type :=
| OBracket (o_up_to : option xfloat) (o_rate : Q)
| OList (o_items : list addr).

Definition heap : Type := list obj.

(** A computation on the heap. *)
Definition prog (A : Type) : Type := heap -> outcome A * heap.

Definition ret {A : Type} (a : A) : prog A := fun h => (Return a, h).

Definition stop {A : Type} (r : outcome A) : prog A := fun h => (r, h).

Definition bind_prog {A B : Type} (c : prog A) (k : A -> prog B) : prog B :=
  fun h =>
    match c h with
    | (Return a, h') => k a h'
    | (Raise e, h') => (Raise e, h')
    | (Unmodelled, h') => (Unmodelled, h')
    end.

Notation "x <~ c ;; k" := (bind_prog c (fun x => k))
  (at level 61, c at next level, right associativity).

(** Creating an object. *)
Definition new (o : obj) : prog addr :=
  fun h => (Return (List.length h), h ++ [o]).

Fixpoint heap_write (a : addr) (o : obj) (h : heap) : heap :=
  match h, a with
  | [], _ => []
  | _ :: rest, O => o :: rest
  | x :: rest, S a' => x :: heap_write a' o rest
  end.

(** The fields of the [Bracket] at [a]. *)
Definition get_bracket (a : addr) : prog (option xfloat * Q) :=
  fun h =>
    match nth_error h a with
    | Some (OBracket u r) => (Return (u, r), h)
    | _ => (Unmodelled, h)
    end.

(** The items of the list at [a]. *)
Definition get_list (a : addr) : prog (list addr) :=
  fun h =>
    match nth_error h a with
    | Some (OList items) => (Return items, h)
    | _ => (Unmodelled, h)
    end.

(** [l.append(x)] for the list at [l]: the list object itself changes. *)
Definition list_append (l : addr) (x : addr) : prog unit :=
  items <~ get_list l ;;
  fun h => (Return tt, heap_write l (OList (items ++ [x])) h).

Fixpoint mapP {A B : Type} (f : A -> prog B) (l : list A) : prog (list B) :=
  match l with
  | [] => ret []
  | x :: rest =>
      y <~ f x ;;
      ys <~ mapP f rest ;;
      ret (y :: ys)
  end.

(** [Bracket(float("inf") if b.up_to is None else float(b.up_to), float(b.rate))]
    for the [Bracket] at [b]: a new object. *)
Definition normalize_at (b : addr) : prog addr :=
  ur <~ get_bracket b ;;
  new (OBracket (Some (match fst ur with
                       | None => PosInf
                       | Some u => u
                       end))
                (snd ur)).

(** [b.up_to] of the [Bracket] at [b], as a sort key and in the loop: a
    float. *)
Definition read_fbracket (b : addr) : prog FBracket :=
  ur <~ get_bracket b ;;
  match fst ur with
  | Some u => ret (mkFBracket u (snd ur))
  | None => stop Unmodelled
  end.

(** [sorted(l, key=lambda b: b.up_to)] for the list at [l]: the keys are
    read, and a new list holds the references in their order. *)
Definition sorted_at (l : addr) : prog addr :=
  items <~ get_list l ;;
  keyed <~ mapP (fun a => fb <~ read_fbracket a ;; ret (a, fb)) items ;;
  new (OList (map fst (sorted_by (fun x => f_up_to (snd x)) keyed))).

(** [compute_tax_progressive(taxable, brackets)] on the heap, [brackets]
    being the address of the list. *)
Definition compute_tax_progressive_at (taxable : Q) (brackets : addr)
  : prog (Q * Q) :=
  items <~ get_list brackets ;;
  fresh <~ mapP normalize_at items ;;
  comprehension <~ new (OList fresh) ;;
  cleaned <~ sorted_at comprehension ;;
  citems <~ get_list cleaned ;;
  match last_item citems with
  | None => stop (Raise IndexError)
  | Some last_a =>
      last_b <~ read_fbracket last_a ;;
      _ <~ (if is_finite (f_up_to last_b)
            then synthetic <~ new (OBracket (Some PosInf) (f_rate last_b)) ;;
                 list_append cleaned synthetic
            else ret tt) ;;
      citems' <~ get_list cleaned ;;
      fbs <~ mapP read_fbracket citems' ;;
      let st := walk fbs (initial_state taxable) in
      ret (total_tax st, marginal_rate st)
  end.

(** The object of a [Bracket], and of a [Bracket] whose [up_to] is a
    float. *)
Definition bracket_obj (b : Bracket) : obj :=
  OBracket (option_map Fin (up_to b)) (rate b).

Definition fbracket_obj (b : FBracket) : obj :=
  OBracket (Some (f_up_to b)) (f_rate b).

(** The list of [Bracket] objects [bs] laid out in a heap after the
    objects of [h]: the brackets, then the list.  The address of the list
    comes with the heap. *)
Definition store_brackets (bs : list Bracket) (h : heap) : addr * heap :=
  let n := List.length h in
  ((n + List.length bs)%nat,
   h ++ map bracket_obj bs ++ [OList (seq n (List.length bs))]).

(** The heap holds the objects of the pairs (address, bracket). *)
Definition holds (h : heap) (kvs : list (addr * FBracket)) : Prop :=
  Forall (fun kv => nth_error h (fst kv) = Some (fbracket_obj (snd kv))) kvs.

(** The heap [h'] has the objects of [h] and possibly more after them. *)
Definition extends (h h' : heap) : Prop :=
  exists ext, h' = h ++ ext.

(** Run from a heap that extends [h0], the computation [c] leaves a heap
    that extends [h0], and what it returns satisfies [post]. *)
Definition keeps (h0 : heap) {A : Type} (c : prog A) (post : A -> Prop) : Prop :=
  forall h,
    extends h0 h ->
    extends h0 (snd (c h)) /\
    forall a, fst (c h) = Return a -> post a.

(** ** Reference formulas for the progressive tax *)




(** The last bound of a schedule that starts at [lower]. *)
Fixpoint top_bound (lower : xfloat) (l : list FBracket) : xfloat :=
  match l with
  | [] => lower
  | b :: rest => top_bound (f_up_to b) rest
  end.

(** Keys in ascending order. *)
Definition ascending (ks : list xfloat) : Prop :=
  StronglySorted (fun a b => xfloat_leb a b = true) ks.


(** ** Well-typed persisted records *)

(** A JSON number that a float holds: a float, or an integer of at most
    [2^53] in magnitude. *)
Definition json_number (v : pyval) : Prop :=
  (exists q, v = PNum q) \/ (exists z, v = PInt z /\ exact_int z = true).

(** A JSON bracket as the specification documents it: an object whose
    [up_to], when present, is [null] or a number, and whose [rate], when
    present, is a number. *)
Definition well_typed_bracket (b : pyval) : Prop :=
  exists items,
    b = PDict items /\
    (forall v, dict_get "up_to" items = Some v -> v = PNone \/ json_number v) /\
    (forall v, dict_get "rate" items = Some v -> json_number v).

(** A JSON profile record whose fields, when present, have the documented
    types: [name] and [mode] strings, [flat_rate] a number, [brackets] a
    list of well-typed brackets. *)
Definition well_typed_fields (items : dict pyval) : Prop :=
  (forall v, dict_get "name" items = Some v -> exists s, v = PStr s) /\
  (forall v, dict_get "mode" items = Some v -> exists s, v = PStr s) /\
  (forall v, dict_get "flat_rate" items = Some v -> json_number v) /\
  (forall v, dict_get "brackets" items = Some v ->
             exists l, v = PList l /\ Forall well_typed_bracket l).

Definition well_typed_record (d : pyval) : Prop :=
  exists items, d = PDict items /\ well_typed_fields items.

(** ** Profiles and stores used as examples *)

(** [TaxProfile(name="Flat 10%", mode="flat")]: [flat_rate] and
    [brackets] take the defaults of the dataclass. *)
Definition profile_without_brackets : TaxProfile :=
  mkTaxProfile "Flat 10%" "flat" 10 None.

(** The sample progressive profile. *)
Definition sample_profile : TaxProfile :=
  mkTaxProfile "Sample Progressive" "progressive" 10 (Some sample_brackets).

(** A record whose [flat_rate] is [null]. *)
Definition record_with_null_rate : pyval :=
  PDict [ ("name", PStr "Broken"); ("mode", PStr "flat"); ("flat_rate", PNone) ].

(** A record whose [flat_rate] is the integer [2^1024], beyond every
    float. *)
Definition record_with_huge_rate : pyval :=
  PDict [ ("name", PStr "Huge"); ("flat_rate", PInt (2 ^ 1024)) ].

(** A record with a name only. *)
Definition record_with_name_only : pyval :=
  PDict [ ("name", PStr "Bare") ].

(** A record as [json.dump] never writes it but an editor may: integers
    for the rates and a bound, and no mode. *)
Definition record_with_integers : pyval :=
  PDict [ ("name", PStr "Whole"); ("flat_rate", PInt 12);
          ("brackets", PList [ PDict [ ("up_to", PInt 10000); ("rate", PInt 5) ];
                               PDict [ ("up_to", PNone); ("rate", PNum 7.5) ] ]) ].

(** A store whose keys differ from the names of its records, and two of
    whose records have the same name; then the profiles its records
    deserialise to. *)
Definition edited_store : dict pyval :=
  [ ("a", PDict [ ("name", PStr "X"); ("flat_rate", PNum 1) ]);
    ("b", PDict [ ("name", PStr "Y") ]);
    ("c", PDict [ ("name", PStr "X"); ("flat_rate", PNum 3) ]) ].

Definition first_x : TaxProfile := mkTaxProfile "X" "flat" 1 (Some []).
Definition only_y : TaxProfile := mkTaxProfile "Y" "flat" 10 (Some []).
Definition last_x : TaxProfile := mkTaxProfile "X" "flat" 3 (Some []).

(** ** Schedules used as examples *)

(** A single unbounded bracket with a negative rate. *)
Definition negative_rate_schedule : list Bracket :=
  [ mkBracket None (-10) ].


(** Two bounded brackets, not in ascending order. *)
Definition bounded_schedule : list Bracket :=
  [ mkBracket (Some 30000) 10; mkBracket (Some 10000) 5 ].

(** ** Saving profiles *)

(** [save_profiles(profiles)]: the document [json.dump] writes to the
    profile file, [{name: p.to_json() for name, p in profiles.items()}]. *)
Definition save_profiles (profiles : dict TaxProfile) : pyval :=
  PDict (dict_of_items (map (fun np => (fst np, to_json (snd np))) profiles)).

(** A profile as it comes back from its JSON form: [brackets] is a list. *)
Definition with_bracket_list (p : TaxProfile) : TaxProfile :=
  mkTaxProfile (name p) (mode p) (flat_rate p) (Some (or_empty (brackets p))).

(** What the profiles of the application satisfy: every key is the name
    of its profile, no key occurs twice, and [brackets] is a list. *)
Definition consistent (profiles : dict TaxProfile) : Prop :=
  Forall (fun np => fst np = name (snd np)) profiles /\
  NoDup (keys profiles) /\
  Forall (fun np => exists bs, brackets (snd np) = Some bs) profiles.

(** ** The form *)

(** The form reads its numbers from text fields.  Two built-in functions
    of Python turn the text into values and are parameters of the model:
    [str.strip], and [float] on a string, which gives a finite float,
    raises [ValueError] ([NotANumber]), or gives an infinity or a NaN
    ([NonFinite]), which the numbers of this model do not have. *)
Inductive parsed : Type :=
| Parsed (q : Q)
| NotANumber
| NonFinite.

(** The [ValueError]s the form raises, by their message:
    "Income and deductions must be non-negative numbers.",
    "Flat rate must be a number.", "Each bracket must have a rate.",
    "Rates must be numbers.", "'Up To' values must be numbers or left
    blank for infinity." and "Duplicate 'Up To' values found.". *)
Inductive complaint : Type :=
| NumbersInvalid
| FlatRateInvalid
| RateMissing
| RateInvalid
| UpToInvalid
| DuplicateUpTo.

(** What a method that validates input does: it returns, raises
    [ValueError] with a message, or meets a non-finite float. *)
Inductive checked (A : Type) : Type :=
| Accepted (a : A)
| Rejected (c : complaint)
| OutOfModel.

Arguments Accepted {A} a.
Arguments Rejected {A} c.
Arguments OutOfModel {A}.

Definition bind_checked {A B : Type} (c : checked A) (k : A -> checked B)
  : checked B :=
  match c with
  | Accepted a => k a
  | Rejected m => Rejected m
  | OutOfModel => OutOfModel
  end.

Notation "x <-- c ;; k" := (bind_checked c (fun x => k))
  (at level 61, c at next level, right associativity).

(** The text variables of the form that the calculation reads, and the
    rows of bracket fields, each with its "up to" and its rate text. *)
Record form : Type := mkForm {
  var_income : string;
  var_deductions : string;
  var_mode : string;
  var_flat_rate : string;
  bracket_rows : list (string * string)
}.

(** [len(set(l))] for a list of floats: the number of distinct values. *)
Fixpoint set_size (l : list Q) : nat :=
  match l with
  | [] => 0%nat
  | x :: rest =>
      if existsb (Qeq_bool x) rest then set_size rest else S (set_size rest)
  end.

(** [[b.up_to for b in rows if b.up_to is not None]]. *)
Fixpoint finite_bounds (rows : list Bracket) : list Q :=
  match rows with
  | [] => []
  | b :: rest =>
      match up_to b with
      | Some u => u :: finite_bounds rest
      | None => finite_bounds rest
      end
  end.

(** What "Calculate" does: it shows the five results (the labels show
    them formatted), it shows an error box, an exception that is not a
    [ValueError] leaves the handler and the labels stay as they were
    ([Uncaught]), or a non-finite float is met ([NotShown], outside this
    model). *)
Inductive shown : Type :=
| Results (taxable tax net effective marginal : Q)
| ErrorBox (c : complaint)
| Uncaught (e : exn)
| NotShown.

(** What "Save As" ends with: the dialog is cancelled or left empty, an
    error box is shown, the profile is saved, or a non-finite float is
    met ([Unknown], outside this model). *)
Inductive dialog : Type :=
| Cancelled
| InvalidProfile (c : complaint)
| Saved (name : string)
| Unknown.

Section Form.
Variable strip : string -> string.
Variable float_of : string -> parsed.

(** [float(s)] inside [try: ... except ValueError: raise ValueError(msg)]. *)
Definition float_or (c : complaint) (s : string) : checked Q :=
  match float_of s with
  | Parsed q => Accepted q
  | NotANumber => Rejected c
  | NonFinite => OutOfModel
  end.

(** [TaxApp._collect_numbers(self)]. *)
Definition collect_numbers (f : form) : checked (Q * Q) :=
  income <-- float_or NumbersInvalid (var_income f) ;;
  deductions <-- float_or NumbersInvalid (var_deductions f) ;;
  if Qlt_le_dec income 0 then Rejected NumbersInvalid
  else if Qlt_le_dec deductions 0 then Rejected NumbersInvalid
  else Accepted (income, deductions).

(** One pass through the loop of [_collect_brackets], for the row with
    the texts [up_v] and [rate_v]. *)
Definition collect_row (up_v rate_v : string) : checked Bracket :=
  let up_s := strip up_v in
  let rate_s := strip rate_v in
  if String.eqb rate_s "" then Rejected RateMissing
  else
    r <-- float_or RateInvalid rate_s ;;
    up_val <-- (if String.eqb up_s "" then Accepted None
                else u <-- float_or UpToInvalid up_s ;; Accepted (Some u)) ;;
    Accepted (mkBracket up_val r).

(** [for r in self.bracket_rows: ... rows.append(Bracket(up_val, rate))]. *)
Fixpoint collect_rows (rows : list (string * string)) : checked (list Bracket) :=
  match rows with
  | [] => Accepted []
  | (up_v, rate_v) :: rest =>
      b <-- collect_row up_v rate_v ;;
      bs <-- collect_rows rest ;;
      Accepted (b :: bs)
  end.

(** [TaxApp._collect_brackets(self)]: the rows, the check for duplicate
    finite bounds, and [rows.sort] with [None] as infinity. *)
Definition collect_brackets (f : form) : checked (list Bracket) :=
  rows <-- collect_rows (bracket_rows f) ;;
  if Nat.eqb (set_size (finite_bounds rows)) (List.length (finite_bounds rows))
  then Accepted (sorted_by (fun b => f_up_to (normalize b)) rows)
  else Rejected DuplicateUpTo.

(** [TaxApp._collect_profile(self, name)]. *)
Definition collect_profile (f : form) (name : string) : checked TaxProfile :=
  let mode := var_mode f in
  if String.eqb mode "flat"
  then r <-- float_or FlatRateInvalid (var_flat_rate f) ;;
       Accepted (mkTaxProfile name mode r (Some []))
  else bs <-- collect_brackets f ;;
       Accepted (mkTaxProfile name mode 10 (Some bs)).

(** [TaxApp.on_calculate(self)], up to the formatting of the labels. *)
Definition on_calculate (f : form) : shown :=
  match collect_numbers f with
  | Rejected c => ErrorBox c
  | OutOfModel => NotShown
  | Accepted (income, deductions) =>
      let taxable := py_max 0 (income - deductions) in
      let finish (tax marginal : Q) : shown :=
        let net := income - tax in
        let eff_rate := if Qlt_le_dec 0 income then tax / income * 100 else 0 in
        Results taxable tax net eff_rate marginal in
      if String.eqb (var_mode f) "flat"
      then match float_or FlatRateInvalid (var_flat_rate f) with
           | Rejected c => ErrorBox c
           | OutOfModel => NotShown
           | Accepted r =>
               let '(tax, marginal) := compute_tax_flat taxable r in
               finish tax marginal
           end
      else match collect_brackets f with
           | Rejected c => ErrorBox c
           | OutOfModel => NotShown
           | Accepted bs =>
               match compute_tax_progressive taxable bs with
               | Return (tax, marginal) => finish tax marginal
               | Raise e => Uncaught e
               | Unmodelled => NotShown
               end
           end
  end.

(** [TaxApp.on_save_profile(self)].  [answer] is what the dialog
    [simpledialog.askstring] returns; the state is the profiles of the
    application and the document in the profile file. *)
Definition on_save_profile (f : form) (answer : option string)
    (profiles : dict TaxProfile) (file : option pyval)
  : dict TaxProfile * option pyval * dialog :=
  match answer with
  | None => (profiles, file, Cancelled)
  | Some name =>
      if String.eqb name "" then (profiles, file, Cancelled)
      else match collect_profile f name with
           | Rejected c => (profiles, file, InvalidProfile c)
           | OutOfModel => (profiles, file, Unknown)
           | Accepted prof =>
               let profiles' := dict_set name prof profiles in
               (profiles', Some (save_profiles profiles'), Saved name)
           end
  end.
End Form.

(** [str.strip] and [float] for the texts of the examples: blanks are
    stripped, and a text of decimal digits is the number it writes. *)
Fixpoint lstrip_blanks (s : string) : string :=
  match s with
  | String c rest => if Ascii.eqb c " "%char then lstrip_blanks rest else s
  | EmptyString => s
  end.

Fixpoint rev_string (s acc : string) : string :=
  match s with
  | EmptyString => acc
  | String c rest => rev_string rest (String c acc)
  end.

Definition strip_blanks (s : string) : string :=
  rev_string (lstrip_blanks (rev_string (lstrip_blanks s) "")) "".

Fixpoint digits_value (s : string) (acc : Z) : option Z :=
  match s with
  | EmptyString => Some acc
  | String c rest =>
      let n := Z.of_N (Ascii.N_of_ascii c) in
      if ((48 <=? n) && (n <=? 57))%Z
      then digits_value rest (acc * 10 + (n - 48))%Z
      else None
  end.

Definition float_of_digits (s : string) : parsed :=
  match s with
  | EmptyString => NotANumber
  | _ => match digits_value s 0%Z with
         | Some z => Parsed (inject_Z z)
         | None => NotANumber
         end
  end.

(** The form as it starts, in flat mode, and a form in progressive mode
    with the rows of the sample schedule in another order. *)
Definition flat_form : form :=
  mkForm "60000" "0" "flat" "10" [].

Definition progressive_form : form :=
  mkForm "60000" "0" "progressive" "10"
         [ ("30000", "10"); ("", " 30"); ("10000 ", "5"); ("80000", "20") ].

(** A form in progressive mode without a row. *)
Definition empty_progressive_form : form :=
  mkForm "60000" "0" "progressive" "10" [].

(** ** Further notions for the calculators *)

(** The tax taken so far plus the tax the remaining income would pay at
    the rate [top]. *)
Definition potential (top : Q) (st : walk_state) : Q :=
  total_tax st + remaining st * (top / 100).

(** Two brackets with the same upper bound: equal finite bounds, or both
    unbounded. *)
Definition same_bound (a b : Bracket) : Prop :=
  match up_to a, up_to b with
  | Some x, Some y => x == y
  | None, None => True
  | _, _ => False
  end.

(** No two brackets of the list have the same upper bound. *)
Definition distinct_bounds (brackets : list Bracket) : Prop :=
  ForallOrdPairs (fun a b => ~ same_bound a b) brackets.

(** The sort keys of [x] and [y] differ. *)
Definition keys_apart {A : Type} (key : A -> xfloat) (x y : A) : Prop :=
  ~ (xfloat_leb (key x) (key y) = true /\ xfloat_leb (key y) (key x) = true).

(** The rates do not decrease along the list. *)
Definition rates_ascending (l : list FBracket) : Prop :=
  StronglySorted (fun a b => f_rate a <= f_rate b) l.

(** Two brackets at the same rate. *)
Definition uniform_schedule : list Bracket :=
  [ mkBracket (Some 30000) 50; mkBracket None 50 ].

(** ** Binary64 arithmetic *)

(** Python computes with binary64 floats: every sum, difference, product
    and quotient is the exact result rounded to a nearest float.  The
    calculators above leave the rounding out; here they are with it.  A
    finite float is the rational it stands for, so a comparison is exact,
    and [rnd] is the rounding of an exact result: a parameter of the
    definitions, [binary64] below for Python's floats.  A result beyond
    the largest float, which Python turns into an infinity, stays outside
    this reading: no such result counts as exact. *)

(** The largest float, [(2^53 - 1) * 2^971]. *)
Definition max_float : Q := inject_Z ((2 ^ 53 - 1) * 2 ^ 971).

Section Rounded.
Variable rnd : Q -> Q.

(** [compute_tax_flat(taxable, rate)]: the quotient [rate / 100.0] is
    rounded, then the product. *)
Definition compute_tax_flat_rnd (taxable rate : Q) : Q * Q :=
  let tax := rnd (py_max 0 taxable * rnd (rate / 100)) in
  (tax, rate).

(** [max(0.0, min(remaining, upper_bound - lower_bound))]: the difference
    is rounded; with an infinity in it it is as in [span_of]. *)
Definition span_of_rnd (rem : Q) (upper lower : xfloat) : Q :=
  match upper, lower with
  | Fin u, Fin l => py_max 0 (py_min rem (rnd (u - l)))
  | PosInf, Fin _ => py_max 0 rem
  | Fin _, PosInf => 0
  | PosInf, PosInf => py_max 0 rem
  end.

(** The body of the loop: [total_tax += span * (b.rate / 100.0)] rounds
    the quotient, the product and the sum, [remaining -= span] the
    difference. *)
Definition walk_step_rnd (b : FBracket) (st : walk_state) : walk_state :=
  let upper_bound := f_up_to b in
  let span := span_of_rnd (remaining st) upper_bound (lower_bound st) in
  if Qlt_le_dec 0 span
  then mkState (rnd (remaining st - span)) upper_bound
               (rnd (total_tax st + rnd (span * rnd (f_rate b / 100))))
               (f_rate b)
  else mkState (remaining st) upper_bound (total_tax st) (marginal_rate st).

Fixpoint walk_rnd (cleaned : list FBracket) (st : walk_state) : walk_state :=
  match cleaned with
  | [] => st
  | b :: rest =>
      let st' := walk_step_rnd b st in
      if Qlt_le_dec 0 (remaining st') then walk_rnd rest st' else st'
  end.

Definition final_state_rnd (taxable : Q) (brackets : list Bracket)
  : outcome walk_state :=
  cleaned <- cleaned_brackets brackets ;;
  Return (walk_rnd cleaned (initial_state taxable)).

(** [compute_tax_progressive(taxable, brackets)] with its rounding. *)
Definition compute_tax_progressive_rnd (taxable : Q) (brackets : list Bracket)
  : outcome (Q * Q) :=
  st <- final_state_rnd taxable brackets ;;
  Return (total_tax st, marginal_rate st).

(** The exact result [q] is a float: rounding leaves it as it is, and it
    is within the range of the floats. *)
Definition exact (q : Q) : bool :=
  Qeq_bool (rnd q) q && Qle_bool (Qabs q) max_float.

(** No operation of [compute_tax_flat(taxable, rate)] rounds. *)
Definition flat_exact (taxable rate : Q) : bool :=
  exact (rate / 100) && exact (py_max 0 taxable * rnd (rate / 100)).

(** No operation of one pass through the body of the loop rounds. *)
Definition step_exact (b : FBracket) (st : walk_state) : bool :=
  let upper_bound := f_up_to b in
  let span := span_of_rnd (remaining st) upper_bound (lower_bound st) in
  match upper_bound, lower_bound st with
  | Fin u, Fin l => exact (u - l)
  | _, _ => true
  end
  && (if Qlt_le_dec 0 span
      then exact (f_rate b / 100)
           && exact (span * rnd (f_rate b / 100))
           && exact (total_tax st + rnd (span * rnd (f_rate b / 100)))
           && exact (remaining st - span)
      else true).

(** No operation of the loop rounds, up to its [break]. *)
Fixpoint walk_exact (cleaned : list FBracket) (st : walk_state) : bool :=
  match cleaned with
  | [] => true
  | b :: rest =>
      step_exact b st
      && (let st' := walk_step_rnd b st in
          if Qlt_le_dec 0 (remaining st') then walk_exact rest st' else true)
  end.

(** No operation of [compute_tax_progressive(taxable, brackets)] rounds. *)
Definition exact_run (taxable : Q) (brackets : list Bracket) : bool :=
  match cleaned_brackets brackets with
  | Return cleaned => walk_exact cleaned (initial_state taxable)
  | _ => false
  end.
End Rounded.

(** Two states of the loop that hold the same values. *)
Definition same_state (s t : walk_state) : Prop :=
  remaining s == remaining t /\
  lower_bound s = lower_bound t /\
  total_tax s == total_tax t /\
  marginal_rate s = marginal_rate t.

(** Rounding a positive rational [n / d] to a nearest binary64 float,
    ties to the even significand.  [e] is the exponent of the leading
    bit, [2^e <= n / d < 2^(e+1)]; the float is a multiple [m] of
    [2^(-s)], which is [2^(e-52)] for a normal float (53 significant
    bits) and [2^(-1074)] for a subnormal one. *)
Definition round_pos (n d : positive) : Q :=
  let k := (Z.log2 (Zpos n) - Z.log2 (Zpos d))%Z in
  let e := (if Zpos d * 2 ^ Z.max 0 k <=? Zpos n * 2 ^ Z.max 0 (- k)
            then k else k - 1)%Z in
  let s := Z.min (52 - e) 1074 in
  let num := (Zpos n * 2 ^ Z.max 0 s)%Z in
  let den := (Zpos d * 2 ^ Z.max 0 (- s))%Z in
  let q := (num / den)%Z in
  let r := (num mod den)%Z in
  let m := (if 2 * r <? den then q
            else if den <? 2 * r then q + 1
            else if Z.even q then q else q + 1)%Z in
  if (0 <=? s)%Z then Qmake m (Z.to_pos (2 ^ s)) else Qmake (m * 2 ^ (- s)) 1.

(** The rounding of Python's floats. *)
Definition binary64 (q : Q) : Q :=
  match Qnum (Qred q) with
  | Z0 => 0
  | Zpos n => round_pos n (Qden (Qred q))
  | Zneg n => - round_pos n (Qden (Qred q))
  end.

(** ** The calculators on the floats of the kernel *)

(** The calculators once more, on Rocq's primitive binary64 floats, whose
    operations are those of the processor: infinities, NaN and all.  They
    are evaluated on examples, next to the calculators with [binary64]. *)
Definition max64 (a b : float) : float := if (a <? b)%float then b else a.
Definition min64 (a b : float) : float := if (b <? a)%float then b else a.

Definition compute_tax_flat64 (taxable rate : float) : float * float :=
  let tax := (max64 0 taxable * (rate / 100))%float in
  (tax, rate).

Record Bracket64 : Type := mkBracket64 {
  up_to64 : option float;
  rate64 : float
}.

Definition normalize64 (b : Bracket64) : Bracket64 :=
  mkBracket64 (Some (match up_to64 b with
                     | None => infinity
                     | Some u => u
                     end))
              (rate64 b).

Definition bound64 (b : Bracket64) : float :=
  match up_to64 b with
  | None => infinity
  | Some u => u
  end.

Fixpoint insert64 (x : Bracket64) (l : list Bracket64) : list Bracket64 :=
  match l with
  | [] => [x]
  | y :: rest =>
      if (bound64 x <=? bound64 y)%float then x :: y :: rest
      else y :: insert64 x rest
  end.

Fixpoint sorted64 (l : list Bracket64) : list Bracket64 :=
  match l with
  | [] => []
  | x :: rest => insert64 x (sorted64 rest)
  end.

Definition cleaned_brackets64 (brackets : list Bracket64)
  : outcome (list Bracket64) :=
  let cleaned := sorted64 (map normalize64 brackets) in
  match last_item cleaned with
  | None => Raise IndexError
  | Some last_b =>
      if (bound64 last_b =? infinity)%float
      then Return cleaned
      else Return (cleaned ++ [mkBracket64 (Some infinity) (rate64 last_b)])
  end.

Record walk_state64 : Type := mkState64 {
  remaining64 : float;
  lower_bound64 : float;
  total_tax64 : float;
  marginal_rate64 : float
}.

Definition walk_step64 (b : Bracket64) (st : walk_state64) : walk_state64 :=
  let upper_bound := bound64 b in
  let span :=
    max64 0 (min64 (remaining64 st) (upper_bound - lower_bound64 st))%float in
  if (0 <? span)%float
  then mkState64 (remaining64 st - span)%float upper_bound
                 (total_tax64 st + span * (rate64 b / 100))%float (rate64 b)
  else mkState64 (remaining64 st) upper_bound (total_tax64 st)
                 (marginal_rate64 st).

Fixpoint walk64 (cleaned : list Bracket64) (st : walk_state64) : walk_state64 :=
  match cleaned with
  | [] => st
  | b :: rest =>
      let st' := walk_step64 b st in
      if (remaining64 st' <=? 0)%float then st' else walk64 rest st'
  end.

Definition compute_tax_progressive64 (taxable : float) (brackets : list Bracket64)
  : outcome (float * float) :=
  cleaned <- cleaned_brackets64 brackets ;;
  let st := walk64 cleaned (mkState64 (max64 0 taxable) 0 0 0) in
  Return (total_tax64 st, marginal_rate64 st).

(** The rational a finite float stands for. *)
Definition float_value (f : float) : option Q :=
  match Prim2SF f with
  | S754_zero _ => Some 0
  | S754_finite sign m e =>
      let v := if (0 <=? e)%Z then Qmake (Zpos m * 2 ^ e) 1
               else Qmake (Zpos m) (Z.to_pos (2 ^ (- e))) in
      Some (if sign then - v else v)
  | S754_infinity _ | S754_nan => None
  end.

(** The float [f] stands for the rational [q]. *)
Definition float_is (f : float) (q : Q) : Prop :=
  exists v, float_value f = Some v /\ v == q.

(** The float [f] is what [binary64] makes of the exact result [q]; when
    [f] is an infinity, [q] is rounded beyond the largest float. *)
Definition rounds_to (q : Q) (f : float) : bool :=
  match float_value f with
  | Some v => Qeq_bool v (binary64 q)
  | None => Qle_bool max_float (Qabs (binary64 q))
  end.

(** The four operations on the finite floats [a] and [b] give the floats
    that [binary64] makes of the exact results. *)
Definition operations_agree (a b : float) : bool :=
  match float_value a, float_value b with
  | Some x, Some y =>
      rounds_to (x + y) (a + b)%float
      && rounds_to (x - y) (a - b)%float
      && rounds_to (x * y) (a * b)%float
      && (Qeq_bool y 0 || rounds_to (x / y) (a / b)%float)
  | _, _ => false
  end.

(** Floats of many sizes: integers, tenths, a subnormal float, the
    largest float. *)
Definition sample_floats : list float :=
  [ 0; 1; 7; 100; 0.07; 0.1; 0.3; 1000.1; 2000.2; 4000.4; 60000;
    123456789.123456789; -2.5; 9007199254740993; 1e-310;
    1.7976931348623157e308 ]%float.

(** ** Sums of full spans, from the brackets as they are given *)

(** The bound just below [u] among the bounds of the brackets: the
    largest of them under [u], and [0], where the first bracket starts,
    when there is none. *)
Fixpoint bound_below (u : Q) (brackets : list Bracket) : Q :=
  match brackets with
  | [] => 0
  | c :: rest =>
      match up_to c with
      | Some v => if Qlt_le_dec v u then py_max (bound_below u rest) v
                  else bound_below u rest
      | None => bound_below u rest
      end
  end.

(** The sum of (full span size * rate / 100) over the brackets of [among]
    whose bound is at most [u]; the full span of a bracket goes from the
    bound just below its own, among the bounds of [all], to its own. *)
Fixpoint full_spans (u : Q) (all among : list Bracket) : Q :=
  match among with
  | [] => 0
  | c :: rest =>
      match up_to c with
      | Some v =>
          (if Qle_bool v u then (v - bound_below v all) * rate c / 100 else 0)
          + full_spans u all rest
      | None => full_spans u all rest
      end
  end.

Definition boundary_tax (u : Q) (brackets : list Bracket) : Q :=
  full_spans u brackets brackets.


Definition bound_le (a b : Bracket) : Prop :=
  match up_to a, up_to b with
  | Some x, Some y => x <= y
  | _, None => True
  | None, Some _ => False
  end.


(** A bracket whose bound is at least that of another has at least its
    rate. *)
Definition rates_follow_bounds (brackets : list Bracket) : Prop :=
  forall a b,
    In a brackets -> In b brackets -> bound_le a b -> rate a <= rate b.

(** The last finite bound of a list of brackets, [lower] when there is
    none. *)
Fixpoint last_bound (lower : Q) (l : list Bracket) : Q :=
  match l with
  | [] => lower
  | c :: rest =>
      last_bound (match up_to c with Some v => v | None => lower end) rest
  end.

(** ** Schedules and floats used as examples with rounding *)

(** One bounded bracket at 7%, then the unbounded one at 30%. *)
Definition seven_percent_schedule : list Bracket :=
  [ mkBracket (Some 100) 7; mkBracket None 30 ].





(** Rates whose hundredth is a float: 25%, 50% and 75%. *)
Definition quarter_schedule : list Bracket :=
  [ mkBracket (Some 30000) 50; mkBracket (Some 10000) 25; mkBracket None 75 ].


(** The bounds [1000.1], [2000.2] and [4000.4] as floats, with the rates
    of the sample schedule. *)
Definition tenths_schedule64 : list Bracket64 :=
  [ mkBracket64 (Some 1000.1%float) 5%float;
    mkBracket64 (Some 2000.2%float) 10%float;
    mkBracket64 (Some 4000.4%float) 20%float;
    mkBracket64 None 30%float ].

Definition tenths_schedule : list Bracket :=
  [ mkBracket (Some (binary64 1000.1)) 5;
    mkBracket (Some (binary64 2000.2)) 10;
    mkBracket (Some (binary64 4000.4)) 20;
    mkBracket None 30 ].

(** * Properties *)

(** ** Arithmetic of the loop body *)

Ltac cases_cmp :=
  unfold py_max, py_min in *;
  repeat match goal with
         | |- context [Qlt_le_dec ?a ?b] => destruct (Qlt_le_dec a b)
         | H : context [Qlt_le_dec ?a ?b] |- _ => destruct (Qlt_le_dec a b)
         end.

Lemma scaled_nonneg (s r : Q) : 0 <= s -> 0 <= r -> 0 <= s * (r / 100).
Proof.
  intros Hs Hr. apply Qmult_le_0_compat; [assumption|].
  unfold Qdiv. apply Qmult_le_0_compat; [assumption|]. discriminate.
Qed.

Lemma scaled_mono (s1 s2 r : Q) :
  s1 <= s2 -> 0 <= r -> s1 * (r / 100) <= s2 * (r / 100).
Proof.
  intros Hs Hr.
  assert (H : 0 <= (s2 - s1) * (r / 100)) by (apply scaled_nonneg; lra).
  lra.
Qed.

Lemma span_of_bounds (rem : Q) (u l : xfloat) :
  0 <= rem -> 0 <= span_of rem u l <= rem.
Proof.
  intros Hrem. destruct u, l; simpl; cases_cmp; lra.
Qed.

Lemma span_of_mono (rem1 rem2 : Q) (u l : xfloat) :
  rem1 <= rem2 ->
  span_of rem1 u l <= span_of rem2 u l /\
  rem1 - span_of rem1 u l <= rem2 - span_of rem2 u l.
Proof.
  intros Hle. destruct u, l; simpl; cases_cmp; lra.
Qed.

(** ** The loop: monotonicity *)

Lemma walk_step_lower (b : FBracket) (st : walk_state) :
  lower_bound (walk_step b st) = f_up_to b.
Proof.
  unfold walk_step. destruct (Qlt_le_dec 0 _); reflexivity.
Qed.

Lemma walk_step_remaining (b : FBracket) (st : walk_state) :
  0 <= remaining st ->
  0 <= remaining (walk_step b st) <= remaining st.
Proof.
  intros Hrem. unfold walk_step.
  pose proof (span_of_bounds (remaining st) (f_up_to b) (lower_bound st) Hrem).
  destruct (Qlt_le_dec 0 _); simpl; lra.
Qed.

Lemma walk_step_total_ge (b : FBracket) (st : walk_state) :
  0 <= f_rate b ->
  total_tax st <= total_tax (walk_step b st).
Proof.
  intros Hr. unfold walk_step.
  destruct (Qlt_le_dec 0 _) as [Hpos|Hle]; simpl; [|lra].
  pose proof (scaled_nonneg _ (f_rate b) (Qlt_le_weak _ _ Hpos) Hr). lra.
Qed.

Lemma walk_step_mono (b : FBracket) (st1 st2 : walk_state) :
  0 <= f_rate b ->
  lower_bound st1 = lower_bound st2 ->
  remaining st1 <= remaining st2 ->
  total_tax st1 <= total_tax st2 ->
  remaining (walk_step b st1) <= remaining (walk_step b st2) /\
  total_tax (walk_step b st1) <= total_tax (walk_step b st2).
Proof.
  intros Hr Hlow Hrem Htot. unfold walk_step. rewrite Hlow.
  destruct (span_of_mono _ _ (f_up_to b) (lower_bound st2) Hrem) as [Hs Hd].
  set (s1 := span_of (remaining st1) _ _) in *.
  set (s2 := span_of (remaining st2) _ _) in *.
  pose proof (scaled_mono s1 s2 (f_rate b) Hs Hr) as Hm.
  destruct (Qlt_le_dec 0 s1) as [H1|H1], (Qlt_le_dec 0 s2) as [H2|H2];
    simpl; split; try lra.
  pose proof (scaled_nonneg s2 (f_rate b) (Qlt_le_weak _ _ H2) Hr). lra.
Qed.

Lemma walk_total_ge (l : list FBracket) :
  Forall (fun b => 0 <= f_rate b) l ->
  forall st, total_tax st <= total_tax (walk l st).
Proof.
  induction 1 as [|b l Hb Hl IH]; intros st; simpl; [lra|].
  pose proof (walk_step_total_ge b st Hb) as Hstep.
  destruct (Qlt_le_dec 0 _); [|assumption].
  specialize (IH (walk_step b st)). lra.
Qed.

Lemma walk_total_mono (l : list FBracket) :
  Forall (fun b => 0 <= f_rate b) l ->
  forall st1 st2,
    lower_bound st1 = lower_bound st2 ->
    0 <= remaining st1 ->
    remaining st1 <= remaining st2 ->
    total_tax st1 <= total_tax st2 ->
    total_tax (walk l st1) <= total_tax (walk l st2).
Proof.
  induction 1 as [|b l Hb Hl IH]; intros st1 st2 Hlow H0 Hrem Htot; simpl;
    [assumption|].
  destruct (walk_step_mono b st1 st2 Hb Hlow Hrem Htot) as [Hr' Ht'].
  pose proof (walk_step_remaining b st1 H0) as [H0' _].
  destruct (Qlt_le_dec 0 (remaining (walk_step b st1))) as [P1|P1],
           (Qlt_le_dec 0 (remaining (walk_step b st2))) as [P2|P2].
  - apply IH; try assumption. now rewrite !walk_step_lower.
  - lra.
  - pose proof (walk_total_ge l Hl (walk_step b st2)). lra.
  - assumption.
Qed.

(** ** Sorting *)

Section SortedFacts.
Context {A : Type} (key : A -> xfloat).

Lemma insert_by_length (x : A) (l : list A) :
  length (insert_by key x l) = S (length l).
Proof.
  induction l as [|y l IH]; simpl; [reflexivity|].
  destruct (xfloat_leb _ _); simpl; [reflexivity|now rewrite IH].
Qed.

Lemma sorted_by_length (l : list A) :
  length (sorted_by key l) = length l.
Proof.
  induction l as [|x l IH]; simpl; [reflexivity|].
  now rewrite insert_by_length, IH.
Qed.

Lemma insert_by_Forall (P : A -> Prop) (x : A) (l : list A) :
  P x -> Forall P l -> Forall P (insert_by key x l).
Proof.
  intros Hx. induction 1 as [|y l Hy Hl IH]; simpl.
  - constructor; [assumption|constructor].
  - destruct (xfloat_leb _ _); repeat constructor; assumption.
Qed.

Lemma sorted_by_Forall (P : A -> Prop) (l : list A) :
  Forall P l -> Forall P (sorted_by key l).
Proof.
  induction 1 as [|x l Hx Hl IH]; simpl; [constructor|].
  now apply insert_by_Forall.
Qed.
End SortedFacts.

Lemma last_item_None {A : Type} (l : list A) :
  last_item l = None -> l = [].
Proof.
  induction l as [|x l IH]; [reflexivity|].
  simpl. destruct l; [discriminate|]. intros H. now specialize (IH H).
Qed.

Lemma last_item_In {A : Type} (l : list A) (x : A) :
  last_item l = Some x -> In x l.
Proof.
  induction l as [|y l IH]; [discriminate|].
  simpl. destruct l; [intros [= ->]; now left|]. intros H. right. now apply IH.
Qed.

Lemma last_item_app {A : Type} (l : list A) (x : A) :
  last_item (l ++ [x]) = Some x.
Proof.
  induction l as [|y l IH]; [reflexivity|].
  simpl. destruct (l ++ [x]) eqn:E; [now destruct l|]. exact IH.
Qed.


Lemma xfloat_leb_trans (a b c : xfloat) :
  xfloat_leb a b = true -> xfloat_leb b c = true -> xfloat_leb a c = true.
Proof.
  destruct a, b, c; simpl; try congruence.
  rewrite !Qle_bool_iff. lra.
Qed.

Lemma xfloat_leb_total (a b : xfloat) :
  xfloat_leb a b = false -> xfloat_leb b a = true.
Proof.
  destruct a, b; simpl; try congruence.
  intros H. apply Qle_bool_iff.
  destruct (Qlt_le_dec q0 q) as [Hlt|Hle]; [lra|].
  apply Qle_bool_iff in Hle. congruence.
Qed.

Section SortedAscending.
Context {A : Type} (key : A -> xfloat).

Lemma insert_by_ascending (x : A) (l : list A) :
  ascending (map key l) -> ascending (map key (insert_by key x l)).
Proof.
  unfold ascending.
  induction l as [|y l IH]; simpl; intros Hs.
  - repeat constructor.
  - inversion Hs as [|? ? Hl Hy]; subst.
    destruct (xfloat_leb (key x) (key y)) eqn:E; simpl.
    + constructor; [assumption|]. constructor; [assumption|].
      eapply Forall_impl; [|exact Hy].
      intros k Hk. eapply xfloat_leb_trans; eassumption.
    + constructor; [now apply IH|].
      rewrite Forall_map. apply insert_by_Forall.
      * now apply xfloat_leb_total.
      * now apply Forall_map in Hy.
Qed.

Lemma sorted_by_ascending (l : list A) :
  ascending (map key (sorted_by key l)).
Proof.
  induction l as [|x l IH]; simpl; [constructor|].
  now apply insert_by_ascending.
Qed.
End SortedAscending.

Lemma ascending_app_inf (ks : list xfloat) :
  ascending ks -> ascending (ks ++ [PosInf]).
Proof.
  unfold ascending. induction 1 as [|k ks Hs IH Hk]; simpl.
  - repeat constructor.
  - constructor; [assumption|].
    apply Forall_app. split; [assumption|].
    constructor; [now destruct k|constructor].
Qed.

(** ** Preparing the brackets *)

Lemma cleaned_brackets_returns (bs : list Bracket) :
  bs <> [] -> exists l, cleaned_brackets bs = Return l.
Proof.
  intros Hne. unfold cleaned_brackets.
  destruct (last_item _) as [b|] eqn:E.
  - destruct (is_finite _); eexists; reflexivity.
  - apply last_item_None in E.
    apply (f_equal (@List.length _)) in E.
    rewrite sorted_by_length, length_map in E.
    destruct bs; [congruence|discriminate].
Qed.

Lemma cleaned_brackets_Forall (P : FBracket -> Prop) (bs : list Bracket) (l : list FBracket) :
  (forall b, P b -> P (mkFBracket PosInf (f_rate b))) ->
  Forall P (map normalize bs) ->
  cleaned_brackets bs = Return l ->
  Forall P l.
Proof.
  intros Hinf Hall. unfold cleaned_brackets.
  pose proof (sorted_by_Forall f_up_to P _ Hall) as Hs.
  destruct (last_item _) as [b|] eqn:E; [|discriminate].
  destruct (is_finite _); intros [= <-]; [|assumption].
  apply Forall_app. split; [assumption|].
  constructor; [|constructor].
  apply last_item_In in E. rewrite Forall_forall in Hs.
  apply Hinf. apply Hs. exact E.
Qed.

Lemma top_bound_last (lower : xfloat) (l : list FBracket) (b : FBracket) :
  last_item l = Some b -> top_bound lower l = f_up_to b.
Proof.
  revert lower. induction l as [|x l IH]; intros lower; [discriminate|].
  simpl. destruct l; [intros [= ->]; reflexivity|].
  intros H. now apply IH.
Qed.

Lemma cleaned_brackets_ascending (bs : list Bracket) (l : list FBracket) :
  cleaned_brackets bs = Return l ->
  ascending (map f_up_to l) /\ top_bound (Fin 0) l = PosInf.
Proof.
  unfold cleaned_brackets.
  pose proof (sorted_by_ascending f_up_to (map normalize bs)) as Hs.
  destruct (last_item _) as [b|] eqn:E; [|discriminate].
  destruct (is_finite (f_up_to b)) eqn:F; intros [= <-].
  - split.
    + rewrite map_app. now apply ascending_app_inf.
    + apply top_bound_last with (b := mkFBracket PosInf (f_rate b)).
      apply last_item_app.
  - split; [assumption|].
    rewrite (top_bound_last _ _ _ E). now destruct (f_up_to b).
Qed.


(** ** The loop computes the closed form *)









(** ** Sums of full spans *)








Section SortedMembers.
Context {A : Type} (key : A -> xfloat).

Lemma insert_by_In (x y : A) (l : list A) :
  y = x \/ In y l -> In y (insert_by key x l).
Proof.
  induction l as [|z l IH]; simpl.
  - intros [->|[]]. now left.
  - destruct (xfloat_leb _ _); simpl.
    + intros [->|[->|H]]; auto.
    + intros [->|[->|H]]; auto.
Qed.

Lemma sorted_by_In (y : A) (l : list A) :
  In y l -> In y (sorted_by key l).
Proof.
  induction l as [|x l IH]; simpl; [tauto|].
  intros [->|H]; apply insert_by_In; auto.
Qed.

End SortedMembers.


(** * The calculators *)

(** C1.  With an empty bracket list the progressive calculator does not
    return: [cleaned] is empty and [cleaned[-1]] raises [IndexError],
    whatever the taxable income. *)
Theorem compute_tax_progressive_empty (taxable : Q) :
  compute_tax_progressive taxable [] = Raise IndexError.
Proof.
  reflexivity.
Qed.


(** C3, as the code has it.  For a non-empty bracket list whose rates are
    all non-negative and taxable incomes [x <= y], the calculator returns
    for both, and the total tax at [x] is at most the total tax at [y]. *)
Theorem compute_tax_progressive_monotone (bs : list Bracket) (x y : Q) :
  bs <> [] ->
  Forall (fun b => 0 <= rate b) bs ->
  x <= y ->
  exists tx mx ty my,
    compute_tax_progressive x bs = Return (tx, mx) /\
    compute_tax_progressive y bs = Return (ty, my) /\
    tx <= ty.
Proof.
  intros Hne Hrates Hxy.
  destruct (cleaned_brackets_returns bs Hne) as [l Hl].
  assert (Hl_rates : Forall (fun b => 0 <= f_rate b) l).
  { apply (cleaned_brackets_Forall (fun b => 0 <= f_rate b) bs l);
      [intros b Hb; exact Hb| |assumption].
    apply Forall_map. exact Hrates. }
  unfold compute_tax_progressive, final_state. rewrite Hl. simpl bind.
  do 4 eexists. split; [reflexivity|]. split; [reflexivity|].
  apply walk_total_mono; try assumption; simpl; try reflexivity;
    cases_cmp; lra.
Qed.

Lemma compute_tax_progressive_monotone_witness :
  sample_brackets <> [] /\
  Forall (fun b => 0 <= rate b) sample_brackets /\
  5000 <= 60000 /\
  exists tx mx ty my,
    compute_tax_progressive 5000 sample_brackets = Return (tx, mx) /\
    compute_tax_progressive 60000 sample_brackets = Return (ty, my) /\
    tx <= ty.
Proof.
  assert (H1 : sample_brackets <> []) by discriminate.
  assert (H2 : Forall (fun b => 0 <= rate b) sample_brackets)
    by (repeat constructor; simpl; lra).
  assert (H3 : 5000 <= 60000) by lra.
  split; [exact H1|]. split; [exact H2|]. split; [exact H3|].
  exact (compute_tax_progressive_monotone sample_brackets 5000 60000 H1 H2 H3).
Defined.

(** C3 as stated fails for a bracket list with a negative rate: with the
    single unbounded bracket of [negative_rate_schedule], at -10%, the
    total tax is [0] at income [0] and [-10] at income [100]. *)
Lemma compute_tax_progressive_monotone_counterexample :
  0 <= 100 /\
  exists tx mx ty my,
    compute_tax_progressive 0 negative_rate_schedule = Return (tx, mx) /\
    compute_tax_progressive 100 negative_rate_schedule = Return (ty, my) /\
    tx == 0 /\ ty == -10 /\
    ~ tx <= ty.
Proof.
  split; [lra|].
  do 4 eexists. split; [vm_compute; reflexivity|].
  split; [vm_compute; reflexivity|].
  split; [reflexivity|]. split; [reflexivity|].
  intros H. vm_compute in H. now apply H.
Qed.


(** Without rounding.  For an income [>= 0] the tax of the flat
    calculator is [income * rate / 100]. *)
Lemma compute_tax_flat_exact (income r : Q) :
  0 <= income ->
  0 <= r ->
  fst (compute_tax_flat income r) == income * r / 100 /\
  snd (compute_tax_flat income r) = r.
Proof.
  intros Hi _. unfold compute_tax_flat. simpl. split; [|reflexivity].
  cases_cmp.
  - field.
  - assert (E : income == 0) by lra. rewrite E. field.
Qed.

(** * Profiles and their JSON form *)

Lemma bracket_from_json_asdict (b : Bracket) :
  bracket_from_json (asdict b) = Return b.
Proof.
  destruct b as [[u|] r]; reflexivity.
Qed.

Lemma mapM_brackets_asdict (l : list Bracket) :
  mapM bracket_from_json (map asdict l) = Return l.
Proof.
  induction l as [|b l IH]; simpl; [reflexivity|].
  now rewrite bracket_from_json_asdict, IH.
Qed.

Lemma from_json_to_json_normalised (p : TaxProfile) :
  from_json (to_json p) =
    Return (mkTaxProfile (name p) (mode p) (flat_rate p)
                         (Some (or_empty (brackets p)))).
Proof.
  unfold from_json, to_json. cbn.
  now rewrite mapM_brackets_asdict.
Qed.

(** C6, as the code has it.  For a profile whose [brackets] field is a
    list, [from_json] of [to_json] returns that very profile: the same
    name, mode, flat rate and brackets in the same order. *)
Theorem from_json_to_json (p : TaxProfile) (l : list Bracket) :
  brackets p = Some l ->
  from_json (to_json p) = Return p.
Proof.
  intros Hl. rewrite from_json_to_json_normalised.
  destruct p as [n m fr bs]. simpl in *. now subst bs.
Qed.

Lemma from_json_to_json_witness :
  brackets sample_profile = Some sample_brackets /\
  from_json (to_json sample_profile) = Return sample_profile.
Proof.
  assert (H : brackets sample_profile = Some sample_brackets) by reflexivity.
  split; [exact H|].
  exact (from_json_to_json sample_profile sample_brackets H).
Defined.

(** C6 as stated fails for a profile whose [brackets] field is [None],
    the default of the dataclass: [to_json] writes [self.brackets or []],
    so the profile comes back with the empty list, which differs from
    [None]. *)
Lemma from_json_to_json_counterexample :
  from_json (to_json profile_without_brackets)
    = Return (mkTaxProfile "Flat 10%" "flat" 10 (Some [])) /\
  from_json (to_json profile_without_brackets) <> Return profile_without_brackets.
Proof.
  split; [reflexivity|]. discriminate.
Qed.

Lemma py_float_number (v : pyval) :
  json_number v ->
  exists q,
    py_float v = Return q /\
    (forall q', v = PNum q' -> q = q') /\
    (forall z, v = PInt z -> q = inject_Z z).
Proof.
  intros [[q ->]|(z & -> & Hz)]; unfold py_float.
  - exists q. split; [reflexivity|].
    split; [now intros ? [= <-]|discriminate].
  - rewrite Hz. exists (inject_Z z). split; [reflexivity|].
    split; [discriminate|now intros ? [= <-]].
Qed.

Lemma as_optional_float_number (v : pyval) :
  v = PNone \/ json_number v ->
  exists u, as_optional_float v = Return u.
Proof.
  intros [->|[[q ->]|(z & -> & Hz)]]; unfold as_optional_float;
    rewrite ?Hz; now eexists.
Qed.

Lemma bracket_from_json_well_typed (b : pyval) :
  well_typed_bracket b ->
  exists br, bracket_from_json b = Return br.
Proof.
  intros (items & -> & Hup & Hrate).
  unfold bracket_from_json, get_default. simpl dict_items. simpl bind.
  assert (Hr : exists r,
             py_float match dict_get "rate" items with
                      | Some v => v
                      | None => PInt 0
                      end = Return r).
  { destruct (dict_get "rate" items) as [rv|].
    - destruct (py_float_number rv (Hrate rv eq_refl)) as (r & Hr & _).
      now exists r.
    - now eexists. }
  assert (Hu : exists u,
             as_optional_float match dict_get "up_to" items with
                               | Some v => v
                               | None => PNone
                               end = Return u).
  { destruct (dict_get "up_to" items) as [uv|].
    - exact (as_optional_float_number uv (Hup uv eq_refl)).
    - now eexists. }
  destruct Hr as [r ->], Hu as [u ->]. simpl. now eexists.
Qed.

Lemma mapM_well_typed_brackets (l : list pyval) :
  Forall well_typed_bracket l ->
  exists bs, mapM bracket_from_json l = Return bs.
Proof.
  induction 1 as [|b l Hb Hl (bs & IH)]; simpl.
  - now eexists.
  - destruct (bracket_from_json_well_typed b Hb) as [br ->].
    rewrite IH. simpl. now eexists.
Qed.

Lemma from_json_fields (items : dict pyval) :
  well_typed_fields items ->
  exists p,
    from_json (PDict items) = Return p /\
    (dict_get "name" items = None -> name p = "Unnamed") /\
    (dict_get "mode" items = None -> mode p = "flat") /\
    (dict_get "flat_rate" items = None -> flat_rate p = 10) /\
    (dict_get "brackets" items = None -> brackets p = Some []) /\
    (forall s, dict_get "name" items = Some (PStr s) -> name p = s) /\
    (forall s, dict_get "mode" items = Some (PStr s) -> mode p = s) /\
    (forall q, dict_get "flat_rate" items = Some (PNum q) -> flat_rate p = q) /\
    (forall z, dict_get "flat_rate" items = Some (PInt z) ->
               flat_rate p = inject_Z z) /\
    (forall l, dict_get "brackets" items = Some (PList l) ->
               exists bs, brackets p = Some bs /\
                          mapM bracket_from_json l = Return bs).
Proof.
  intros (Hname & Hmode & Hrate & Hbr).
  unfold from_json, get_default. simpl dict_items. simpl bind.
  assert (Hfr : exists fr,
             py_float match dict_get "flat_rate" items with
                      | Some v => v
                      | None => PNum 10
                      end = Return fr /\
             (dict_get "flat_rate" items = None -> fr = 10) /\
             (forall q, dict_get "flat_rate" items = Some (PNum q) -> fr = q) /\
             (forall z, dict_get "flat_rate" items = Some (PInt z) ->
                        fr = inject_Z z)).
  { destruct (dict_get "flat_rate" items) as [rv|].
    - destruct (py_float_number rv (Hrate rv eq_refl)) as (fr & Hfr & Hq & Hz).
      exists fr. split; [exact Hfr|]. split; [discriminate|].
      split; intros ? [= ->]; auto.
    - exists 10. split; [reflexivity|]. split; [reflexivity|].
      split; discriminate. }
  assert (Hbs : exists bl bs,
             py_iter match dict_get "brackets" items with
                     | Some v => v
                     | None => PList []
                     end = Return bl /\
             mapM bracket_from_json bl = Return bs /\
             (dict_get "brackets" items = None -> bs = []) /\
             (forall l, dict_get "brackets" items = Some (PList l) -> l = bl)).
  { destruct (dict_get "brackets" items) as [bv|].
    - destruct (Hbr bv eq_refl) as (l & -> & Hl).
      destruct (mapM_well_typed_brackets l Hl) as [bs Hbs].
      exists l, bs. split; [reflexivity|]. split; [exact Hbs|].
      split; [discriminate|]. now intros ? [= ->].
    - exists [], []. repeat split; discriminate. }
  assert (Hn : exists n,
             as_str match dict_get "name" items with
                    | Some v => v
                    | None => PStr "Unnamed"
                    end = Return n /\
             (dict_get "name" items = None -> n = "Unnamed") /\
             (forall s, dict_get "name" items = Some (PStr s) -> n = s)).
  { destruct (dict_get "name" items) as [nv|].
    - destruct (Hname nv eq_refl) as [n ->]. exists n.
      split; [reflexivity|]. split; [discriminate|]. now intros ? [= ->].
    - eexists. split; [reflexivity|]. split; [reflexivity|discriminate]. }
  assert (Hm : exists m,
             as_str match dict_get "mode" items with
                    | Some v => v
                    | None => PStr "flat"
                    end = Return m /\
             (dict_get "mode" items = None -> m = "flat") /\
             (forall s, dict_get "mode" items = Some (PStr s) -> m = s)).
  { destruct (dict_get "mode" items) as [mv|].
    - destruct (Hmode mv eq_refl) as [m ->]. exists m.
      split; [reflexivity|]. split; [discriminate|]. now intros ? [= ->].
    - eexists. split; [reflexivity|]. split; [reflexivity|discriminate]. }
  destruct Hfr as (fr & -> & Hfr0 & Hfrq & Hfrz).
  destruct Hbs as (bl & bs & -> & Hbs & Hbs0 & Hbsl).
  destruct Hn as (n & -> & Hn0 & Hns).
  destruct Hm as (m & -> & Hm0 & Hms).
  simpl bind. rewrite Hbs. simpl bind.
  eexists. split; [reflexivity|]. simpl.
  repeat (split; [assumption|]).
  split; [intros H; now rewrite (Hbs0 H)|].
  repeat (split; [assumption|]).
  intros l Hl. exists bs. split; [reflexivity|]. now rewrite (Hbsl l Hl).
Qed.

(** C8, as the code has it.  For a record that is a JSON object whose
    present fields have the documented types, every number being one a
    float holds (a float, or an integer of at most [2^53] in magnitude),
    [from_json] returns a profile; a field that is present is taken as it
    is, and a field that is absent gets its default: name "Unnamed", mode
    "flat", flat rate [10.0], brackets the empty list. *)
Theorem from_json_defaults (items : dict pyval) :
  well_typed_fields items ->
  exists p,
    from_json (PDict items) = Return p /\
    (dict_get "name" items = None -> name p = "Unnamed") /\
    (dict_get "mode" items = None -> mode p = "flat") /\
    (dict_get "flat_rate" items = None -> flat_rate p = 10) /\
    (dict_get "brackets" items = None -> brackets p = Some []) /\
    (forall s, dict_get "name" items = Some (PStr s) -> name p = s) /\
    (forall s, dict_get "mode" items = Some (PStr s) -> mode p = s) /\
    (forall q, dict_get "flat_rate" items = Some (PNum q) -> flat_rate p = q) /\
    (forall z, dict_get "flat_rate" items = Some (PInt z) ->
               flat_rate p = inject_Z z) /\
    (forall l, dict_get "brackets" items = Some (PList l) ->
               exists bs, brackets p = Some bs /\
                          mapM bracket_from_json l = Return bs).
Proof.
  exact (from_json_fields items).
Qed.

Lemma from_json_defaults_witness :
  well_typed_fields [ ("name", PStr "Bare") ] /\
  exists p,
    from_json record_with_name_only = Return p /\
    name p = "Bare" /\ mode p = "flat" /\ flat_rate p = 10 /\
    brackets p = Some [].
Proof.
  assert (H : well_typed_fields [ ("name", PStr "Bare") ]).
  { repeat split; intros v; simpl; try discriminate.
    intros [= <-]. now eexists. }
  split; [exact H|].
  destruct (from_json_defaults [ ("name", PStr "Bare") ] H)
    as (p & Hp & _ & Hm & Hr & Hb & Hn & _).
  exists p. split; [exact Hp|].
  split; [exact (Hn "Bare" eq_refl)|].
  split; [exact (Hm eq_refl)|].
  split; [exact (Hr eq_refl)|exact (Hb eq_refl)].
Defined.

(** C8 as stated fails for a malformed field: for the record
    [record_with_null_rate], whose [flat_rate] is [null],
    [float(None)] raises [TypeError]; no default is substituted and no
    profile is returned. *)
Lemma from_json_defaults_counterexample :
  from_json record_with_null_rate = Raise TypeError /\
  ~ exists p, from_json record_with_null_rate = Return p.
Proof.
  split; [reflexivity|]. intros [p Hp]. discriminate Hp.
Qed.

(** An integer is a number too: within the integers a float holds it is
    converted as it is, and one that is beyond every float raises
    [OverflowError]. *)
Example from_json_integers :
  from_json record_with_integers
  = Return (mkTaxProfile "Whole" "flat" 12
              (Some [ mkBracket (Some 10000) 5; mkBracket None 7.5 ])).
Proof.
  reflexivity.
Qed.

Example from_json_huge_rate :
  from_json record_with_huge_rate = Raise OverflowError.
Proof.
  vm_compute. reflexivity.
Qed.

(** * The profile store *)

Section DictFacts.
Context {V : Type}.

Lemma dict_get_set (k k' : string) (v : V) (d : dict V) :
  dict_get k (dict_set k' v d) =
    if String.eqb k k' then Some v else dict_get k d.
Proof.
  induction d as [|[k0 v0] d IH]; simpl.
  - reflexivity.
  - destruct (String.eqb k' k0) eqn:E0; simpl.
    + apply String.eqb_eq in E0. subst k0.
      destruct (String.eqb k k'); reflexivity.
    + rewrite IH. destruct (String.eqb k k0) eqn:E1; [|reflexivity].
      apply String.eqb_eq in E1. subst k0.
      destruct (String.eqb k k') eqn:E2; [|reflexivity].
      apply String.eqb_eq in E2. subst k'.
      rewrite String.eqb_refl in E0. discriminate.
Qed.

Lemma dict_set_keys (k : string) (v : V) (d : dict V) :
  keys (dict_set k v d) = if in_dec string_dec k (keys d)
                          then keys d else keys d ++ [k].
Proof.
  unfold keys.
  induction d as [|[k0 v0] d IH]; simpl; [reflexivity|].
  destruct (String.eqb k k0) eqn:E; simpl.
  - apply String.eqb_eq in E. subst k0.
    destruct (string_dec k k); [reflexivity|congruence].
  - apply String.eqb_neq in E.
    destruct (string_dec k0 k) as [E'|N]; [congruence|].
    rewrite IH.
    destruct (in_dec string_dec k (map fst d)); reflexivity.
Qed.

Lemma dict_set_NoDup (k : string) (v : V) (d : dict V) :
  NoDup (keys d) -> NoDup (keys (dict_set k v d)).
Proof.
  intros Hd. rewrite dict_set_keys.
  destruct (in_dec string_dec k (keys d)) as [Hin|Hout]; [assumption|].
  apply NoDup_app; [assumption|repeat constructor; intros []|].
  intros a Ha [<-|[]]. contradiction.
Qed.

Lemma dict_set_Forall (P : string * V -> Prop) (k : string) (v : V) (d : dict V) :
  P (k, v) -> Forall P d -> Forall P (dict_set k v d).
Proof.
  intros Hkv. induction 1 as [|[k0 v0] d H0 Hd IH]; simpl.
  - repeat constructor. assumption.
  - destruct (String.eqb k k0) eqn:E.
    + apply String.eqb_eq in E. subst k0. now constructor.
    + now constructor.
Qed.

Lemma dict_set_fresh (k : string) (v : V) (d : dict V) :
  ~ In k (keys d) -> dict_set k v d = d ++ [(k, v)].
Proof.
  induction d as [|[k0 v0] d IH]; simpl; intros Hout; [reflexivity|].
  destruct (String.eqb k k0) eqn:E.
  - apply String.eqb_eq in E. subst k0. tauto.
  - rewrite IH; [reflexivity|tauto].
Qed.

Lemma set_items_NoDup (items : list (string * V)) :
  forall d, NoDup (keys d) -> NoDup (keys (set_items items d)).
Proof.
  induction items as [|[k v] items IH]; intros d Hd; simpl; [assumption|].
  apply IH. now apply dict_set_NoDup.
Qed.

Lemma set_items_Forall (P : string * V -> Prop) (items : list (string * V)) :
  Forall P items ->
  forall d, Forall P d -> Forall P (set_items items d).
Proof.
  induction 1 as [|[k v] items Hkv Hitems IH]; intros d Hd; simpl;
    [assumption|].
  apply IH. now apply dict_set_Forall.
Qed.

Lemma set_items_get_other (k : string) (items : list (string * V)) :
  ~ In k (keys items) ->
  forall d, dict_get k (set_items items d) = dict_get k d.
Proof.
  induction items as [|[k0 v0] items IH]; intros Hout d; simpl;
    [reflexivity|].
  simpl in Hout. rewrite IH by tauto. rewrite dict_get_set.
  destruct (String.eqb k k0) eqn:E; [|reflexivity].
  apply String.eqb_eq in E. subst k0. tauto.
Qed.

Lemma set_items_get_last (k : string) (v : V) (before after : list (string * V)) :
  ~ In k (keys after) ->
  forall d, dict_get k (set_items (before ++ (k, v) :: after) d) = Some v.
Proof.
  intros Hout d.
  assert (E : set_items (before ++ (k, v) :: after) d =
              set_items after (dict_set k v (set_items before d)))
    by apply fold_left_app.
  rewrite E, set_items_get_other by assumption.
  rewrite dict_get_set. now rewrite String.eqb_refl.
Qed.

Lemma set_items_fresh (items : list (string * V)) :
  forall d,
    NoDup (keys d ++ keys items) ->
    set_items items d = d ++ items.
Proof.
  induction items as [|[k v] items IH]; intros d Hnd; simpl.
  - now rewrite app_nil_r.
  - simpl in Hnd. rewrite dict_set_fresh.
    + rewrite IH; [now rewrite <- app_assoc|].
      unfold keys. rewrite map_app. simpl.
      rewrite <- app_assoc. exact Hnd.
    + apply NoDup_remove_2 in Hnd. intros Hin. apply Hnd.
      apply in_or_app. now left.
Qed.

Lemma dict_get_In (k : string) (v : V) (d : dict V) :
  dict_get k d = Some v -> In k (keys d).
Proof.
  induction d as [|[k0 v0] d IH]; simpl; [discriminate|].
  destruct (String.eqb k k0) eqn:E.
  - apply String.eqb_eq in E. now left.
  - intros H. right. now apply IH.
Qed.
End DictFacts.

Lemma dict_get_NoDup {V : Type} (k : string) (v : V) (d : dict V) :
  NoDup (keys d) -> In (k, v) d -> dict_get k d = Some v.
Proof.
  induction d as [|[k0 v0] d IH]; simpl; intros Hnd Hin; [destruct Hin|].
  inversion Hnd as [|? ? Hout Hnd']; subst.
  destruct Hin as [[= -> ->]|Hin].
  - now rewrite String.eqb_refl.
  - destruct (String.eqb k k0) eqn:E.
    + apply String.eqb_eq in E. subst k0. exfalso. apply Hout.
      change k with (fst (k, v)). now apply in_map.
    + now apply IH.
Qed.

Lemma rekey_keys (profiles : dict TaxProfile) :
  Forall (fun kv => fst kv = name (snd kv)) (rekey profiles).
Proof.
  unfold rekey, dict_of_items. apply set_items_Forall; [|constructor].
  apply Forall_map. now apply Forall_forall.
Qed.

Lemma rekey_NoDup (profiles : dict TaxProfile) :
  NoDup (keys (rekey profiles)).
Proof.
  unfold rekey, dict_of_items. apply set_items_NoDup. constructor.
Qed.

(** Whenever [load_profiles] returns a mapping, with or without a
    profile file, every key is the name of its profile. *)
Lemma load_profiles_keys (file : option pyval) (m : dict TaxProfile) :
  fst (load_profiles file) = Return m ->
  Forall (fun kv => fst kv = name (snd kv)) m.
Proof.
  destruct file as [raw|]; simpl.
  - unfold load_existing.
    destruct (dict_items raw) as [items| |]; simpl; try discriminate.
    destruct (profiles_of_items items) as [profiles| |]; simpl; try discriminate.
    intros [= <-]. apply rekey_keys.
  - intros [= <-]. repeat constructor.
Qed.

Lemma mapM_length {A B : Type} (f : A -> outcome B) (l : list A) :
  forall r, mapM f l = Return r -> List.length r = List.length l.
Proof.
  induction l as [|x l IH]; simpl; intros r.
  - now intros [= <-].
  - destruct (f x); simpl; try discriminate.
    destruct (mapM f l); simpl; try discriminate.
    intros [= <-]. simpl. now rewrite (IH _ eq_refl).
Qed.

Lemma mapM_keyed (items : dict pyval) :
  forall ps,
    mapM from_json (values items) = Return ps ->
    mapM (fun kv => p <- from_json (snd kv) ;; Return (fst kv, p)) items
      = Return (combine (keys items) ps).
Proof.
  unfold values.
  induction items as [|[k v] items IH]; simpl; intros ps.
  - now intros [= <-].
  - destruct (from_json v); simpl; try discriminate.
    destruct (mapM from_json (map snd items)); simpl; try discriminate.
    intros [= <-]. now rewrite (IH _ eq_refl).
Qed.

Lemma combine_keys_values {V : Type} (ks : list string) (vs : list V) :
  List.length vs = List.length ks ->
  keys (combine ks vs) = ks /\ values (combine ks vs) = vs.
Proof.
  revert vs. induction ks as [|k ks IH]; intros [|v vs]; simpl;
    try discriminate; [now split|].
  intros [= H]. destruct (IH vs H) as [Ek Ev].
  unfold keys, values in *. now rewrite Ek, Ev.
Qed.

Lemma profiles_of_items_values (items : dict pyval) (ps : list TaxProfile) :
  NoDup (keys items) ->
  mapM from_json (values items) = Return ps ->
  exists profiles,
    profiles_of_items items = Return profiles /\ values profiles = ps.
Proof.
  intros Hnd Hps. unfold profiles_of_items.
  rewrite (mapM_keyed items ps Hps). simpl bind.
  assert (Hlen : List.length ps = List.length (keys items)).
  { rewrite (mapM_length _ _ _ Hps). unfold keys, values.
    now rewrite !length_map. }
  destruct (combine_keys_values (keys items) ps Hlen) as [Ek Ev].
  eexists. split; [reflexivity|].
  unfold dict_of_items. rewrite set_items_fresh; [exact Ev|].
  simpl. now rewrite Ek.
Qed.

Lemma from_json_well_typed (d : pyval) :
  well_typed_record d -> exists p, from_json d = Return p.
Proof.
  intros (items & -> & Hwt).
  destruct (from_json_fields items Hwt) as (p & Hp & _). now exists p.
Qed.

Lemma profiles_of_items_well_typed (items : dict pyval) :
  Forall (fun kv => well_typed_record (snd kv)) items ->
  exists profiles, profiles_of_items items = Return profiles.
Proof.
  intros Hwt. unfold profiles_of_items.
  assert (H : exists kps,
             mapM (fun kv => p <- from_json (snd kv) ;; Return (fst kv, p)) items
             = Return kps).
  { induction Hwt as [|[k v] items Hv Hitems (kps & IH)]; simpl.
    - now eexists.
    - destruct (from_json_well_typed v Hv) as [p ->]. simpl.
      rewrite IH. simpl. now eexists. }
  destruct H as [kps ->]. simpl. now eexists.
Qed.

Lemma last_occurrence {V : Type} (k : string) (items : list (string * V)) :
  In k (keys items) ->
  exists before v after,
    items = before ++ (k, v) :: after /\ ~ In k (keys after).
Proof.
  unfold keys.
  induction items as [|[k0 v0] items IH]; simpl; [intros []|].
  intros Hin.
  destruct (in_dec string_dec k (map fst items)) as [Hrest|Hrest].
  - destruct (IH Hrest) as (before & v & after & -> & Hout).
    exists ((k0, v0) :: before), v, after. now split.
  - destruct Hin as [->|Hin]; [|contradiction].
    exists [], v0, items. now split.
Qed.

Lemma rekey_holds (profiles : dict TaxProfile) (p : TaxProfile) :
  In p (values profiles) ->
  exists q,
    In q (values profiles) /\ name q = name p /\
    dict_get (name p) (rekey profiles) = Some q.
Proof.
  intros Hin. unfold rekey, dict_of_items.
  set (named := map (fun v => (name v, v)) (values profiles)).
  assert (Hk : In (name p) (keys named)).
  { unfold keys, named. rewrite map_map. simpl.
    apply in_map_iff. now exists p. }
  destruct (last_occurrence _ _ Hk) as (before & q & after & E & Hout).
  exists q.
  assert (Hq : In (name p, q) named)
    by (rewrite E; apply in_or_app; right; now left).
  unfold named in Hq. apply in_map_iff in Hq.
  destruct Hq as (v & [= Hn ->] & Hv).
  split; [exact Hv|]. split; [exact Hn|].
  rewrite E. now apply set_items_get_last.
Qed.

Lemma rekey_from (profiles : dict TaxProfile) :
  Forall (fun kv => In (snd kv) (values profiles)) (rekey profiles).
Proof.
  unfold rekey, dict_of_items. apply set_items_Forall; [|constructor].
  apply Forall_map. now apply Forall_forall.
Qed.

(** C7.  Let the persisted store be a JSON object whose records
    deserialise to the profiles [ps], whatever its literal keys.  Then
    [load_profiles] returns a mapping in which every key is the [name]
    field of its profile and no key occurs twice; every profile of the
    store has its name among the keys, where a profile of the store with
    that name is found, and every entry of the mapping is a profile of the
    store. *)
Theorem load_profiles_rekeyed (items : dict pyval) (ps : list TaxProfile) :
  NoDup (keys items) ->
  mapM from_json (values items) = Return ps ->
  exists m,
    fst (load_profiles (Some (PDict items))) = Return m /\
    Forall (fun kv => fst kv = name (snd kv)) m /\
    NoDup (keys m) /\
    (forall p, In p ps ->
       exists q, In q ps /\ name q = name p /\ dict_get (name p) m = Some q) /\
    (forall k q, In (k, q) m -> In q ps).
Proof.
  intros Hnd Hps. simpl. unfold load_existing. simpl dict_items. simpl bind.
  destruct (profiles_of_items_values items ps Hnd Hps) as (profiles & -> & Hv).
  simpl bind. exists (rekey profiles). subst ps.
  split; [reflexivity|]. split; [apply rekey_keys|].
  split; [apply rekey_NoDup|]. split.
  - intros p Hp. now apply rekey_holds.
  - intros k q Hin. pose proof (rekey_from profiles) as H.
    rewrite Forall_forall in H. exact (H _ Hin).
Qed.

Lemma load_profiles_rekeyed_witness :
  NoDup (keys edited_store) /\
  mapM from_json (values edited_store) = Return [first_x; only_y; last_x] /\
  exists m,
    fst (load_profiles (Some (PDict edited_store))) = Return m /\
    Forall (fun kv => fst kv = name (snd kv)) m /\
    NoDup (keys m) /\
    (forall p, In p [first_x; only_y; last_x] ->
       exists q, In q [first_x; only_y; last_x] /\ name q = name p /\
                 dict_get (name p) m = Some q) /\
    (forall k q, In (k, q) m -> In q [first_x; only_y; last_x]).
Proof.
  assert (H1 : NoDup (keys edited_store)).
  { repeat constructor; simpl; intuition discriminate. }
  assert (H2 : mapM from_json (values edited_store)
               = Return [first_x; only_y; last_x]) by reflexivity.
  split; [exact H1|]. split; [exact H2|].
  exact (load_profiles_rekeyed edited_store [first_x; only_y; last_x] H1 H2).
Defined.

(** A store whose records have fields of the documented types
    deserialises: [load_profiles] returns for it. *)
Lemma load_profiles_well_typed (items : dict pyval) :
  Forall (fun kv => well_typed_record (snd kv)) items ->
  exists m, fst (load_profiles (Some (PDict items))) = Return m.
Proof.
  intros Hwt. simpl. unfold load_existing. simpl dict_items. simpl bind.
  destruct (profiles_of_items_well_typed items Hwt) as [profiles ->].
  simpl bind. now eexists.
Qed.

(** C10.  Let the persisted store be a JSON object whose records
    deserialise to the profiles [ps], in the order of the file, and let
    [p] be the last of them with its name.  Then [load_profiles] returns
    a mapping with exactly one entry for that name, and it holds [p]:
    every earlier record of the same name is dropped. *)
Theorem load_profiles_last_wins
    (items : dict pyval) (ps before after : list TaxProfile) (p : TaxProfile) :
  NoDup (keys items) ->
  mapM from_json (values items) = Return ps ->
  ps = before ++ p :: after ->
  (forall q, In q after -> name q <> name p) ->
  exists m,
    fst (load_profiles (Some (PDict items))) = Return m /\
    dict_get (name p) m = Some p /\
    count_occ string_dec (keys m) (name p) = 1%nat /\
    (forall q, In q (values m) -> name q = name p -> q = p).
Proof.
  intros Hnd Hps Hsplit Hlast. simpl. unfold load_existing.
  simpl dict_items. simpl bind.
  destruct (profiles_of_items_values items ps Hnd Hps) as (profiles & -> & Hv).
  simpl bind. exists (rekey profiles).
  assert (Hget : dict_get (name p) (rekey profiles) = Some p).
  { unfold rekey, dict_of_items. rewrite Hv, Hsplit, map_app. simpl map.
    apply set_items_get_last.
    unfold keys. rewrite map_map. simpl.
    intros Hin. apply in_map_iff in Hin. destruct Hin as (q & Hq & Hin).
    exact (Hlast q Hin Hq). }
  split; [reflexivity|]. split; [exact Hget|]. split.
  - apply NoDup_count_occ'; [apply rekey_NoDup|].
    exact (dict_get_In _ _ _ Hget).
  - intros q Hin Hname. unfold values in Hin.
    apply in_map_iff in Hin. destruct Hin as ([k v] & <- & Hin). simpl in *.
    pose proof (rekey_keys profiles) as Hkeys.
    rewrite Forall_forall in Hkeys. pose proof (Hkeys _ Hin) as Hk. simpl in Hk.
    pose proof (dict_get_NoDup k v _ (rekey_NoDup profiles) Hin) as Hkv.
    rewrite Hk, Hname, Hget in Hkv. now injection Hkv.
Qed.

Lemma load_profiles_last_wins_witness :
  NoDup (keys edited_store) /\
  mapM from_json (values edited_store) = Return [first_x; only_y; last_x] /\
  exists m,
    fst (load_profiles (Some (PDict edited_store))) = Return m /\
    dict_get "X" m = Some last_x /\
    count_occ string_dec (keys m) "X" = 1%nat /\
    (forall q, In q (values m) -> name q = "X" -> q = last_x).
Proof.
  assert (H1 : NoDup (keys edited_store)).
  { repeat constructor; simpl; intuition discriminate. }
  assert (H2 : mapM from_json (values edited_store)
               = Return [first_x; only_y; last_x]) by reflexivity.
  assert (H3 : forall q, In q [] -> name q <> name last_x) by (intros q []).
  split; [exact H1|]. split; [exact H2|].
  exact (load_profiles_last_wins edited_store [first_x; only_y; last_x]
           [first_x; only_y] [] last_x H1 H2 eq_refl H3).
Defined.

(** * The calculator and the objects it is given *)

Lemma extends_refl (h : heap) : extends h h.
Proof.
  exists []. now rewrite app_nil_r.
Qed.

Lemma extends_new (h0 h : heap) (o : obj) :
  extends h0 h -> extends h0 (h ++ [o]).
Proof.
  intros [ext ->]. exists (ext ++ [o]). now rewrite app_assoc.
Qed.

Lemma extends_length (h0 h : heap) :
  extends h0 h -> (List.length h0 <= List.length h)%nat.
Proof.
  intros [ext ->]. rewrite length_app. lia.
Qed.

Lemma heap_write_beyond (h0 : heap) (o : obj) :
  forall a ext,
    (List.length h0 <= a)%nat ->
    heap_write a o (h0 ++ ext) = h0 ++ heap_write (a - List.length h0)%nat o ext.
Proof.
  induction h0 as [|x h0 IH]; intros a ext Ha; simpl.
  - now rewrite Nat.sub_0_r.
  - destruct a as [|a]; [simpl in Ha; lia|].
    simpl. rewrite IH by (simpl in Ha; lia). reflexivity.
Qed.

Lemma extends_write (h0 h : heap) (a : addr) (o : obj) :
  (List.length h0 <= a)%nat ->
  extends h0 h -> extends h0 (heap_write a o h).
Proof.
  intros Ha [ext ->]. rewrite heap_write_beyond by assumption. now eexists.
Qed.

Lemma extends_preserves (h0 h : heap) (a : addr) (o : obj) :
  extends h0 h -> nth_error h0 a = Some o -> nth_error h a = Some o.
Proof.
  intros [ext ->] Ha. rewrite nth_error_app1; [assumption|].
  apply nth_error_Some. congruence.
Qed.

Section Keeps.
Variable h0 : heap.

Lemma keeps_ret {A : Type} (a : A) (post : A -> Prop) :
  post a -> keeps h0 (ret a) post.
Proof.
  intros Ha h Hh. split; [assumption|]. now intros ? [= <-].
Qed.

Lemma keeps_stop {A : Type} (r : outcome A) (post : A -> Prop) :
  (forall a, r = Return a -> post a) -> keeps h0 (stop r) post.
Proof.
  intros Hr h Hh. split; [assumption|exact Hr].
Qed.

Lemma keeps_bind {A B : Type} (c : prog A) (k : A -> prog B)
      (mid : A -> Prop) (post : B -> Prop) :
  keeps h0 c mid ->
  (forall a, mid a -> keeps h0 (k a) post) ->
  keeps h0 (bind_prog c k) post.
Proof.
  intros Hc Hk h Hh. unfold bind_prog.
  destruct (Hc h Hh) as [Hext Hret].
  destruct (c h) as [[a|e|] h1]; simpl in *.
  - exact (Hk a (Hret a eq_refl) h1 Hext).
  - split; [assumption|discriminate].
  - split; [assumption|discriminate].
Qed.

Lemma keeps_weaken {A : Type} (c : prog A) (pre post : A -> Prop) :
  (forall a, pre a -> post a) -> keeps h0 c pre -> keeps h0 c post.
Proof.
  intros Himp Hc h Hh. destruct (Hc h Hh) as [Hext Hret].
  split; [assumption|]. intros a Ha. apply Himp. now apply Hret.
Qed.

Lemma keeps_new (o : obj) :
  keeps h0 (new o) (fun a => (List.length h0 <= a)%nat).
Proof.
  intros h Hh. unfold new. simpl. split; [now apply extends_new|].
  intros a [= <-]. now apply extends_length.
Qed.

Lemma keeps_get_bracket (a : addr) :
  keeps h0 (get_bracket a) (fun _ => True).
Proof.
  intros h Hh. unfold get_bracket.
  destruct (nth_error h a) as [[u r|items]|]; simpl; now split.
Qed.

Lemma keeps_get_list (a : addr) :
  keeps h0 (get_list a) (fun _ => True).
Proof.
  intros h Hh. unfold get_list.
  destruct (nth_error h a) as [[u r|items]|]; simpl; now split.
Qed.

Lemma keeps_list_append (l x : addr) :
  (List.length h0 <= l)%nat ->
  keeps h0 (list_append l x) (fun _ => True).
Proof.
  intros Hl. unfold list_append.
  eapply keeps_bind; [apply keeps_get_list|].
  intros items _ h Hh. simpl. split; [now apply extends_write|trivial].
Qed.

Lemma keeps_mapP {A B : Type} (f : A -> prog B) (l : list A) :
  (forall x, keeps h0 (f x) (fun _ => True)) ->
  keeps h0 (mapP f l) (fun _ => True).
Proof.
  intros Hf. induction l as [|x l IH]; simpl.
  - now apply keeps_ret.
  - eapply keeps_bind; [apply Hf|]. intros y _.
    eapply keeps_bind; [apply IH|]. intros ys _.
    now apply keeps_ret.
Qed.

Lemma keeps_read_fbracket (a : addr) :
  keeps h0 (read_fbracket a) (fun _ => True).
Proof.
  unfold read_fbracket.
  eapply keeps_bind; [apply keeps_get_bracket|].
  intros [[u|] r] _; simpl; [now apply keeps_ret|now apply keeps_stop].
Qed.

Lemma keeps_normalize_at (a : addr) :
  keeps h0 (normalize_at a) (fun _ => True).
Proof.
  unfold normalize_at.
  eapply keeps_bind; [apply keeps_get_bracket|].
  intros ur _. eapply keeps_weaken; [|apply keeps_new]. trivial.
Qed.

Lemma keeps_sorted_at (l : addr) :
  keeps h0 (sorted_at l) (fun a => (List.length h0 <= a)%nat).
Proof.
  unfold sorted_at.
  eapply keeps_bind; [apply keeps_get_list|]. intros items _.
  eapply keeps_bind.
  - apply keeps_mapP. intros a.
    eapply keeps_bind; [apply keeps_read_fbracket|].
    intros fb _. now apply keeps_ret.
  - intros keyed _. apply keeps_new.
Qed.

Lemma keeps_compute_tax_progressive_at (taxable : Q) (brackets : addr) :
  keeps h0 (compute_tax_progressive_at taxable brackets) (fun _ => True).
Proof.
  unfold compute_tax_progressive_at.
  eapply keeps_bind; [apply keeps_get_list|]. intros items _.
  eapply keeps_bind; [apply keeps_mapP, keeps_normalize_at|]. intros fresh _.
  eapply keeps_bind; [apply keeps_new|]. intros comprehension _.
  eapply keeps_bind; [apply keeps_sorted_at|]. intros cleaned Hcleaned.
  eapply keeps_bind; [apply keeps_get_list|]. intros citems _.
  destruct (last_item citems) as [last_a|]; [|now apply keeps_stop].
  eapply keeps_bind; [apply keeps_read_fbracket|]. intros last_b _.
  eapply keeps_bind with (mid := fun _ => True).
  - destruct (is_finite (f_up_to last_b)); [|now apply keeps_ret].
    eapply keeps_bind; [apply keeps_new|]. intros synthetic _.
    now apply keeps_list_append.
  - intros _ _.
    eapply keeps_bind; [apply keeps_get_list|]. intros citems' _.
    eapply keeps_bind; [apply keeps_mapP, keeps_read_fbracket|].
    intros fbs _. now apply keeps_ret.
Qed.
End Keeps.

(** C9.  Whatever the taxable income, the heap and the address given as
    the bracket list, every object the heap holds before the call of the
    progressive calculator is the same object after it: the list given
    and each [Bracket] in it keep their items and fields.  The normalised
    brackets, the sorted list and the synthetic bracket are new objects,
    and the only list appended to is the new, sorted one. *)
Theorem compute_tax_progressive_at_frame
    (taxable : Q) (brackets : addr) (h : heap) (a : addr) (o : obj) :
  nth_error h a = Some o ->
  nth_error (snd (compute_tax_progressive_at taxable brackets h)) a = Some o.
Proof.
  intros Ha.
  destruct (keeps_compute_tax_progressive_at h taxable brackets h
              (extends_refl h)) as [Hext _].
  exact (extends_preserves _ _ a o Hext Ha).
Qed.

Lemma compute_tax_progressive_at_frame_witness :
  nth_error (snd (store_brackets sample_brackets [])) 4%nat =
    Some (OList [0; 1; 2; 3]%nat) /\
  nth_error (snd (compute_tax_progressive_at
                    60000 4%nat (snd (store_brackets sample_brackets []))))
            4%nat =
    Some (OList [0; 1; 2; 3]%nat).
Proof.
  assert (H : nth_error (snd (store_brackets sample_brackets [])) 4%nat =
              Some (OList [0; 1; 2; 3]%nat)) by reflexivity.
  split; [exact H|].
  exact (compute_tax_progressive_at_frame 60000 4%nat _ 4%nat _ H).
Defined.

(** ** The calculator on the heap returns what the calculator on values returns *)

Lemma bind_prog_run {A B : Type} (c : prog A) (k : A -> prog B)
      (h h' : heap) (a : A) :
  c h = (Return a, h') -> bind_prog c k h = k a h'.
Proof.
  intros H. unfold bind_prog. now rewrite H.
Qed.

Lemma nth_error_heap_write_other (o : obj) :
  forall h a a', a <> a' -> nth_error (heap_write a o h) a' = nth_error h a'.
Proof.
  induction h as [|x h IH]; intros [|a] [|a'] Hne; simpl; try reflexivity;
    try congruence.
  apply IH. congruence.
Qed.

Lemma nth_error_heap_write_same (o : obj) :
  forall h a, (a < List.length h)%nat -> nth_error (heap_write a o h) a = Some o.
Proof.
  induction h as [|x h IH]; intros [|a] Ha; simpl in *; try lia; try reflexivity.
  apply IH. lia.
Qed.

Lemma get_list_run (h : heap) (a : addr) (items : list addr) :
  nth_error h a = Some (OList items) -> get_list a h = (Return items, h).
Proof.
  intros H. unfold get_list. now rewrite H.
Qed.

Lemma read_fbracket_run (h : heap) (a : addr) (b : FBracket) :
  nth_error h a = Some (fbracket_obj b) -> read_fbracket a h = (Return b, h).
Proof.
  intros H. unfold read_fbracket, get_bracket, bind_prog. rewrite H.
  now destruct b.
Qed.

Lemma normalize_at_run (h : heap) (a : addr) (b : Bracket) :
  nth_error h a = Some (bracket_obj b) ->
  normalize_at a h = (Return (List.length h), h ++ [fbracket_obj (normalize b)]).
Proof.
  intros H. unfold normalize_at, get_bracket, bind_prog. rewrite H.
  destruct b as [[u|] r]; reflexivity.
Qed.

Lemma mapP_read_run (kvs : list (addr * FBracket)) (h : heap) :
  holds h kvs ->
  mapP read_fbracket (map fst kvs) h = (Return (map snd kvs), h).
Proof.
  induction 1 as [|[a b] kvs Hab Hkvs IH]; simpl; [reflexivity|].
  rewrite (bind_prog_run _ _ _ _ _ (read_fbracket_run h a b Hab)).
  rewrite (bind_prog_run _ _ _ _ _ IH). reflexivity.
Qed.

Lemma mapP_keyed_run (kvs : list (addr * FBracket)) (h : heap) :
  holds h kvs ->
  mapP (fun a => fb <~ read_fbracket a ;; ret (a, fb)) (map fst kvs) h
  = (Return kvs, h).
Proof.
  induction 1 as [|[a b] kvs Hab Hkvs IH]; simpl; [reflexivity|].
  rewrite (bind_prog_run _ _ h h (a, b)).
  - rewrite (bind_prog_run _ _ _ _ _ IH). reflexivity.
  - now rewrite (bind_prog_run _ _ _ _ _ (read_fbracket_run h a b Hab)).
Qed.

Lemma mapP_normalize_run (bs : list Bracket) :
  forall start h,
    (forall j b, nth_error bs j = Some b ->
                 nth_error h (start + j) = Some (bracket_obj b)) ->
    mapP normalize_at (seq start (List.length bs)) h
    = (Return (seq (List.length h) (List.length bs)),
       h ++ map fbracket_obj (map normalize bs)).
Proof.
  induction bs as [|b bs IH]; intros start h Hh; simpl.
  - now rewrite app_nil_r.
  - assert (Hb : nth_error h start = Some (bracket_obj b)).
    { rewrite <- (Nat.add_0_r start). now apply (Hh 0%nat). }
    rewrite (bind_prog_run _ _ _ _ _ (normalize_at_run h start b Hb)).
    assert (Hrest : forall j bj, nth_error bs j = Some bj ->
                      nth_error (h ++ [fbracket_obj (normalize b)]) (S start + j)
                      = Some (bracket_obj bj)).
    { intros j bj Hj. specialize (Hh (S j) bj Hj).
      rewrite Nat.add_succ_r in Hh.
      change (S start + j)%nat with (S (start + j)).
      rewrite nth_error_app1; [assumption|].
      apply nth_error_Some. congruence. }
    rewrite (bind_prog_run _ _ _ _ _ (IH (S start) _ Hrest)).
    unfold ret. rewrite length_app, Nat.add_1_r, <- app_assoc. reflexivity.
Qed.

Lemma holds_fresh (fbs : list FBracket) :
  forall pre,
    holds (pre ++ map fbracket_obj fbs)
          (combine (seq (List.length pre) (List.length fbs)) fbs).
Proof.
  unfold holds.
  induction fbs as [|b fbs IH]; intros pre; simpl; constructor.
  - simpl. rewrite nth_error_app2 by lia. now rewrite Nat.sub_diag.
  - specialize (IH (pre ++ [fbracket_obj b])).
    rewrite length_app, Nat.add_1_r, <- app_assoc in IH. exact IH.
Qed.

Lemma holds_extends (h h' : heap) (kvs : list (addr * FBracket)) :
  extends h h' -> holds h kvs -> holds h' kvs.
Proof.
  intros Hext. apply Forall_impl. intros kv. now apply extends_preserves.
Qed.

Lemma combine_fst_snd {A B : Type} (xs : list A) (ys : list B) :
  List.length xs = List.length ys ->
  map fst (combine xs ys) = xs /\ map snd (combine xs ys) = ys.
Proof.
  revert ys. induction xs as [|x xs IH]; intros [|y ys]; simpl;
    try discriminate; [now split|].
  intros [= H]. destruct (IH ys H) as [-> ->]. now split.
Qed.

Section SortedMap.
Context {A B : Type} (key : B -> xfloat) (g : A -> B).

Lemma insert_by_map (x : A) (l : list A) :
  insert_by key (g x) (map g l) = map g (insert_by (fun a => key (g a)) x l).
Proof.
  induction l as [|y l IH]; simpl; [reflexivity|].
  destruct (xfloat_leb _ _); simpl; [reflexivity|now rewrite IH].
Qed.

Lemma sorted_by_map (l : list A) :
  sorted_by key (map g l) = map g (sorted_by (fun a => key (g a)) l).
Proof.
  induction l as [|x l IH]; simpl; [reflexivity|].
  now rewrite IH, insert_by_map.
Qed.
End SortedMap.

Lemma last_item_map {A B : Type} (g : A -> B) (l : list A) :
  last_item (map g l) = option_map g (last_item l).
Proof.
  induction l as [|x l IH]; [reflexivity|].
  simpl. destruct l; [reflexivity|]. exact IH.
Qed.

Lemma store_brackets_list (bs : list Bracket) (h : heap) :
  nth_error (snd (store_brackets bs h)) (fst (store_brackets bs h))
  = Some (OList (seq (List.length h) (List.length bs))).
Proof.
  unfold store_brackets. simpl.
  rewrite nth_error_app2 by lia.
  rewrite nth_error_app2 by (rewrite length_map; lia).
  rewrite length_map.
  replace (_ - _ - _)%nat with 0%nat by lia. reflexivity.
Qed.

Lemma store_brackets_items (bs : list Bracket) (h : heap) (j : nat) (b : Bracket) :
  nth_error bs j = Some b ->
  nth_error (snd (store_brackets bs h)) (List.length h + j) = Some (bracket_obj b).
Proof.
  intros Hj. unfold store_brackets. simpl.
  rewrite nth_error_app2 by lia.
  replace (_ + j - _)%nat with j by lia.
  rewrite nth_error_app1.
  - now rewrite nth_error_map, Hj.
  - rewrite length_map. apply nth_error_Some. congruence.
Qed.

(** The calculator run on the objects of [bs] returns what the
    calculator on values returns for [bs]. *)
Lemma compute_tax_progressive_at_refines
    (taxable : Q) (bs : list Bracket) (h : heap) :
  fst (compute_tax_progressive_at taxable (fst (store_brackets bs h))
                                  (snd (store_brackets bs h)))
  = compute_tax_progressive taxable bs.
Proof.
  set (l := fst (store_brackets bs h)).
  set (h0 := snd (store_brackets bs h)).
  set (fbs := map normalize bs).
  set (fresh := seq (List.length h0) (List.length bs)).
  set (h1 := h0 ++ map fbracket_obj fbs).
  set (h2 := h1 ++ [OList fresh]).
  set (keyed := combine fresh fbs).
  set (skeyed := sorted_by (fun x => f_up_to (snd x)) keyed).
  set (h3 := h2 ++ [OList (map fst skeyed)]).
  assert (Hlen : List.length fresh = List.length fbs).
  { unfold fresh, fbs. now rewrite length_seq, length_map. }
  destruct (combine_fst_snd fresh fbs Hlen) as [Hfst Hsnd]. fold keyed in Hfst, Hsnd.
  assert (Hk1 : holds h1 keyed).
  { unfold h1, keyed, fresh. replace (List.length bs) with (List.length fbs)
      by (unfold fbs; apply length_map).
    apply holds_fresh. }
  assert (Hk2 : holds h2 keyed)
    by (eapply holds_extends; [|exact Hk1]; now eexists).
  assert (Hk3 : holds h3 skeyed).
  { apply sorted_by_Forall. eapply holds_extends; [|exact Hk2]. now eexists. }
  assert (Hsorted : sorted_by f_up_to fbs = map snd skeyed).
  { rewrite <- Hsnd. apply sorted_by_map. }
  assert (Hcleaned : nth_error h3 (List.length h2) = Some (OList (map fst skeyed))).
  { unfold h3. rewrite nth_error_app2 by lia. now rewrite Nat.sub_diag. }
  unfold compute_tax_progressive_at.
  rewrite (bind_prog_run _ _ _ _ _
             (get_list_run h0 l _ (store_brackets_list bs h))).
  rewrite (bind_prog_run _ _ _ _ _
             (mapP_normalize_run bs (List.length h) h0
                                 (store_brackets_items bs h))).
  fold fbs fresh h1.
  rewrite (bind_prog_run _ _ h1 h2 (List.length h1)) by reflexivity.
  rewrite (bind_prog_run _ _ h2 h3 (List.length h2)).
  2:{ unfold sorted_at.
      rewrite (bind_prog_run _ _ h2 h2 fresh).
      2:{ apply get_list_run. unfold h2.
          rewrite nth_error_app2 by lia. now rewrite Nat.sub_diag. }
      rewrite <- Hfst.
      rewrite (bind_prog_run _ _ _ _ _ (mapP_keyed_run keyed h2 Hk2)).
      reflexivity. }
  rewrite (bind_prog_run _ _ _ _ _ (get_list_run h3 _ _ Hcleaned)).
  unfold compute_tax_progressive, final_state, cleaned_brackets.
  fold fbs. rewrite Hsorted, !last_item_map.
  destruct (last_item skeyed) as [[last_a last_b]|] eqn:Elast;
    cbn [option_map fst snd]; [|reflexivity].
  assert (Hlast : nth_error h3 last_a = Some (fbracket_obj last_b)).
  { unfold holds in Hk3. rewrite Forall_forall in Hk3.
    exact (Hk3 _ (last_item_In _ _ Elast)). }
  rewrite (bind_prog_run _ _ _ _ _ (read_fbracket_run h3 last_a last_b Hlast)).
  simpl snd.
  destruct (is_finite (f_up_to last_b)).
  - set (syn := mkFBracket PosInf (f_rate last_b)).
    set (h4 := h3 ++ [fbracket_obj syn]).
    set (h5 := heap_write (List.length h2)
                          (OList (map fst skeyed ++ [List.length h3])) h4).
    assert (Hext4 : extends h3 h4) by now eexists.
    assert (Hin4 : (List.length h2 < List.length h4)%nat).
    { unfold h4, h3. rewrite !length_app. simpl. lia. }
    rewrite (bind_prog_run _ _ h3 h5 tt).
    2:{ rewrite (bind_prog_run _ _ h3 h4 (List.length h3)) by reflexivity.
        unfold list_append.
        rewrite (bind_prog_run _ _ h4 h4 (map fst skeyed)); [reflexivity|].
        apply get_list_run. exact (extends_preserves _ _ _ _ Hext4 Hcleaned). }
    rewrite (bind_prog_run _ _ h5 h5 (map fst skeyed ++ [List.length h3])).
    2:{ apply get_list_run. now apply nth_error_heap_write_same. }
    assert (Hk5 : holds h5 (skeyed ++ [(List.length h3, syn)])).
    { apply Forall_app. split.
      - eapply Forall_impl; [|exact Hk3]. intros [a b] Hab. simpl in *.
        unfold h5. rewrite nth_error_heap_write_other.
        + exact (extends_preserves _ _ _ _ Hext4 Hab).
        + intros <-. rewrite Hcleaned in Hab. discriminate.
      - constructor; [|constructor]. simpl. unfold h5.
        rewrite nth_error_heap_write_other.
        + unfold h4. rewrite nth_error_app2 by lia. now rewrite Nat.sub_diag.
        + unfold h3. rewrite length_app. simpl. lia. }
    replace (map fst skeyed ++ [List.length h3])
      with (map fst (skeyed ++ [(List.length h3, syn)]))
      by (now rewrite map_app).
    rewrite (bind_prog_run _ _ _ _ _ (mapP_read_run _ h5 Hk5)).
    rewrite map_app. reflexivity.
  - rewrite (bind_prog_run _ _ h3 h3 tt) by reflexivity.
    rewrite (bind_prog_run _ _ _ _ _ (get_list_run h3 _ _ Hcleaned)).
    rewrite (bind_prog_run _ _ _ _ _ (mapP_read_run _ h3 Hk3)).
    reflexivity.
Qed.

(** * The scenarios of the specification *)

(** Flat 10% on a taxable income of 60000. *)
Example scenario_flat :
  fst (compute_tax_flat 60000 10) == 6000 /\
  snd (compute_tax_flat 60000 10) = 10.
Proof.
  split; reflexivity.
Qed.

(** The sample schedule on 60000: 500 + 2000 + 6000, marginal rate 20%. *)
Example scenario_progressive_60000 :
  exists t, compute_tax_progressive 60000 sample_brackets = Return (t, 20)
            /\ t == 8500.
Proof.
  eexists. split; [vm_compute; reflexivity|reflexivity].
Qed.

(** The sample schedule on 5000: all in the first bracket. *)
Example scenario_progressive_5000 :
  exists t, compute_tax_progressive 5000 sample_brackets = Return (t, 5)
            /\ t == 250.
Proof.
  eexists. split; [vm_compute; reflexivity|reflexivity].
Qed.

(** The sample schedule on 200000: all four brackets, marginal rate 30%. *)
Example scenario_progressive_200000 :
  exists t, compute_tax_progressive 200000 sample_brackets = Return (t, 30)
            /\ t == 48500.
Proof.
  eexists. split; [vm_compute; reflexivity|reflexivity].
Qed.

(** Without a profile file, [load_profiles] writes and returns the two
    default profiles. *)
Example load_profiles_seeds :
  load_profiles None =
    (Return [ ("Flat 10%", mkTaxProfile "Flat 10%" "flat" 10 (Some []));
              ("Sample Progressive", sample_profile) ],
     Some (PDict default_store)).
Proof.
  reflexivity.
Qed.

(** * Further properties of the progressive calculator *)

Lemma cleaned_brackets_nonempty (bs : list Bracket) (l : list FBracket) :
  cleaned_brackets bs = Return l -> l <> [].
Proof.
  unfold cleaned_brackets.
  destruct (last_item _) as [b|] eqn:E; [|discriminate].
  destruct (is_finite _); intros [= <-] Hnil.
  - now destruct (sorted_by f_up_to (map normalize bs)).
  - rewrite Hnil in E. discriminate.
Qed.

Lemma top_bound_In (l : list FBracket) :
  forall lower,
    top_bound lower l = lower \/
    exists b, In b l /\ f_up_to b = top_bound lower l.
Proof.
  induction l as [|b l IH]; intros lower; simpl; [now left|].
  right. destruct (IH (f_up_to b)) as [E|(c & Hc & Ec)].
  - exists b. split; [now left|now rewrite E].
  - exists c. split; [now right|assumption].
Qed.

Lemma cleaned_brackets_unbounded (bs : list Bracket) (l : list FBracket) :
  cleaned_brackets bs = Return l ->
  exists b, In b l /\ f_up_to b = PosInf.
Proof.
  intros Hl. destruct (cleaned_brackets_ascending bs l Hl) as [_ Htop].
  destruct (top_bound_In l (Fin 0)) as [E|(b & Hb & Eb)].
  - rewrite Htop in E. discriminate.
  - exists b. split; [assumption|congruence].
Qed.

Lemma walk_remaining_nonneg (l : list FBracket) :
  forall st, 0 <= remaining st -> 0 <= remaining (walk l st).
Proof.
  induction l as [|b l IH]; intros st Hrem; simpl; [assumption|].
  pose proof (walk_step_remaining b st Hrem) as [H0 _].
  destruct (Qlt_le_dec 0 _); [now apply IH|assumption].
Qed.

Lemma walk_exhausts (l : list FBracket) :
  forall st,
    (exists b, In b l /\ f_up_to b = PosInf) ->
    is_finite (lower_bound st) = true ->
    0 <= remaining st ->
    remaining (walk l st) == 0.
Proof.
  induction l as [|b l IH]; intros st (c & Hc & Ec) Hfin Hrem;
    [destruct Hc|].
  simpl. pose proof (walk_step_remaining b st Hrem) as [H0 _].
  destruct (Qlt_le_dec 0 (remaining (walk_step b st))) as [Hgo|Hstop]; [|lra].
  assert (Hkey : is_finite (f_up_to b) = true).
  { destruct (f_up_to b) eqn:Eb; [reflexivity|]. exfalso.
    unfold walk_step in Hgo. rewrite Eb in Hgo.
    destruct (lower_bound st); [|discriminate]. simpl in Hgo.
    revert Hgo. cases_cmp; simpl; lra. }
  apply IH.
  - destruct Hc as [->|Hc]; [rewrite Ec in Hkey; discriminate|].
    now exists c.
  - now rewrite walk_step_lower.
  - assumption.
Qed.

Lemma initial_state_nonneg (taxable : Q) : 0 <= remaining (initial_state taxable).
Proof.
  simpl. cases_cmp; lra.
Qed.



(** X2.  For a non-empty bracket list and a taxable income that is zero
    or negative, the calculator returns a total tax of [0] and a marginal
    rate of [0]: no span is positive, so no bracket sets the rate. *)
Theorem compute_tax_progressive_no_income (taxable : Q) (bs : list Bracket) :
  bs <> [] ->
  taxable <= 0 ->
  compute_tax_progressive taxable bs = Return (0, 0).
Proof.
  intros Hne Hneg. destruct (cleaned_brackets_returns bs Hne) as [l Hl].
  unfold compute_tax_progressive, final_state. rewrite Hl. simpl bind.
  pose proof (cleaned_brackets_nonempty bs l Hl) as Hl_ne.
  destruct l as [|b l]; [congruence|].
  assert (Hinit : initial_state taxable = mkState 0 (Fin 0) 0 0).
  { unfold initial_state, py_max.
    destruct (Qlt_le_dec 0 taxable); [lra|reflexivity]. }
  rewrite Hinit. simpl walk. unfold walk_step. simpl remaining. simpl lower_bound.
  pose proof (span_of_bounds 0 (f_up_to b) (Fin 0) (Qle_refl 0)) as [_ Hspan].
  destruct (Qlt_le_dec 0 (span_of 0 (f_up_to b) (Fin 0))); [lra|].
  simpl. reflexivity.
Qed.

Lemma compute_tax_progressive_no_income_witness :
  sample_brackets <> [] /\
  -5 <= 0 /\
  compute_tax_progressive (-5) sample_brackets = Return (0, 0).
Proof.
  assert (H1 : sample_brackets <> []) by discriminate.
  assert (H2 : -5 <= 0) by lra.
  split; [exact H1|]. split; [exact H2|].
  exact (compute_tax_progressive_no_income (-5) sample_brackets H1 H2).
Defined.

Lemma walk_marginal (l : list FBracket) :
  forall st,
    (marginal_rate (walk l st) = marginal_rate st /\
     remaining (walk l st) = remaining st) \/
    exists b, In b l /\ f_rate b = marginal_rate (walk l st).
Proof.
  induction l as [|b l IH]; intros st; simpl; [now left|].
  assert (Hstep : (marginal_rate (walk_step b st) = marginal_rate st /\
                   remaining (walk_step b st) = remaining st) \/
                  marginal_rate (walk_step b st) = f_rate b).
  { unfold walk_step. destruct (Qlt_le_dec 0 _); simpl; [now right|now left]. }
  destruct (Qlt_le_dec 0 (remaining (walk_step b st))).
  - destruct (IH (walk_step b st)) as [[Em Er]|(c & Hc & Ec)].
    + destruct Hstep as [[Em' Er']|Em'].
      * left. split; congruence.
      * right. exists b. split; [now left|congruence].
    + right. exists c. split; [now right|assumption].
  - destruct Hstep as [H|Em']; [now left|].
    right. exists b. split; [now left|congruence].
Qed.

(** X3.  For a non-empty bracket list and a positive taxable income, the
    marginal rate the calculator returns is the rate of one of the
    brackets it was given. *)
Theorem compute_tax_progressive_marginal (taxable : Q) (bs : list Bracket) :
  bs <> [] ->
  0 < taxable ->
  exists t m,
    compute_tax_progressive taxable bs = Return (t, m) /\
    exists b, In b bs /\ rate b = m.
Proof.
  intros Hne Hpos. destruct (cleaned_brackets_returns bs Hne) as [l Hl].
  unfold compute_tax_progressive, final_state. rewrite Hl. simpl bind.
  do 2 eexists. split; [reflexivity|].
  assert (Hfrom : Forall (fun fb => exists b, In b bs /\ rate b = f_rate fb) l).
  { apply (cleaned_brackets_Forall _ bs l); [| |assumption].
    - intros fb Hfb. exact Hfb.
    - apply Forall_map. apply Forall_forall. intros b Hb. now exists b. }
  rewrite Forall_forall in Hfrom.
  destruct (walk_marginal l (initial_state taxable)) as [[_ Er]|(fb & Hfb & Efb)].
  - exfalso.
    pose proof (walk_exhausts l (initial_state taxable)
                  (cleaned_brackets_unbounded bs l Hl) eq_refl
                  (initial_state_nonneg taxable)) as Hzero.
    rewrite Er in Hzero. simpl in Hzero. revert Hzero. cases_cmp; lra.
  - destruct (Hfrom fb Hfb) as (b & Hb & Eb). exists b.
    split; [assumption|congruence].
Qed.

Lemma compute_tax_progressive_marginal_witness :
  sample_brackets <> [] /\
  0 < 60000 /\
  exists t m,
    compute_tax_progressive 60000 sample_brackets = Return (t, m) /\
    exists b, In b sample_brackets /\ rate b = m.
Proof.
  assert (H1 : sample_brackets <> []) by discriminate.
  assert (H2 : 0 < 60000) by lra.
  split; [exact H1|]. split; [exact H2|].
  exact (compute_tax_progressive_marginal 60000 sample_brackets H1 H2).
Defined.

(** ** Bounds on the tax, without rounding *)

Lemma scaled_rate_le (s r top : Q) :
  0 <= s -> r <= top -> s * (r / 100) <= s * (top / 100).
Proof.
  intros Hs Hr.
  assert (H : 0 <= s * ((top - r) / 100)) by (apply scaled_nonneg; lra).
  assert (E : s * ((top - r) / 100) == s * (top / 100) - s * (r / 100)) by field.
  rewrite E in H. lra.
Qed.

Lemma walk_step_potential (top : Q) (b : FBracket) (st : walk_state) :
  0 <= remaining st ->
  potential top (walk_step b st) ==
    potential top st
    - span_of (remaining st) (f_up_to b) (lower_bound st)
      * ((top - f_rate b) / 100).
Proof.
  intros Hrem. unfold potential, walk_step.
  pose proof (span_of_bounds (remaining st) (f_up_to b) (lower_bound st) Hrem)
    as [Hs0 _].
  set (s := span_of _ _ _) in *.
  destruct (Qlt_le_dec 0 s) as [Hpos|Hle]; simpl.
  - field.
  - assert (E : s == 0) by lra. rewrite E. field.
Qed.

Lemma walk_potential_le (top : Q) (l : list FBracket) :
  Forall (fun b => f_rate b <= top) l ->
  forall st,
    0 <= remaining st ->
    potential top (walk l st) <= potential top st.
Proof.
  induction 1 as [|b l Hb Hl IH]; intros st Hrem; simpl; [lra|].
  pose proof (walk_step_potential top b st Hrem) as Hstep.
  pose proof (span_of_bounds (remaining st) (f_up_to b) (lower_bound st) Hrem)
    as [Hs0 _].
  pose proof (scaled_nonneg _ (top - f_rate b) Hs0) as Hdrop.
  pose proof (walk_step_remaining b st Hrem) as [H0 _].
  destruct (Qlt_le_dec 0 _).
  - specialize (IH (walk_step b st) H0). lra.
  - lra.
Qed.

Lemma walk_potential_mono (top : Q) (l : list FBracket) :
  Forall (fun b => 0 <= f_rate b <= top) l ->
  forall st1 st2,
    lower_bound st1 = lower_bound st2 ->
    0 <= remaining st1 ->
    remaining st1 <= remaining st2 ->
    potential top (walk l st2) - potential top (walk l st1)
    <= potential top st2 - potential top st1.
Proof.
  induction 1 as [|b l [Hb0 Hb] Hl IH]; intros st1 st2 Hlow H0 Hrem; simpl;
    [lra|].
  pose proof (walk_step_potential top b st1 H0) as E1.
  pose proof (walk_step_potential top b st2 (Qle_trans _ _ _ H0 Hrem)) as E2.
  rewrite Hlow in E1.
  destruct (span_of_mono _ _ (f_up_to b) (lower_bound st2) Hrem) as [Hs Hd].
  assert (Hgap : 0 <= (span_of (remaining st2) (f_up_to b) (lower_bound st2)
                       - span_of (remaining st1) (f_up_to b) (lower_bound st2))
                      * ((top - f_rate b) / 100))
    by (apply scaled_nonneg; lra).
  assert (Hstep : potential top (walk_step b st2) - potential top (walk_step b st1)
                  <= potential top st2 - potential top st1) by lra.
  pose proof (walk_step_remaining b st1 H0) as [H0' _].
  assert (Hrem' : remaining (walk_step b st1) <= remaining (walk_step b st2)).
  { unfold walk_step. rewrite Hlow.
    destruct (Qlt_le_dec 0 _), (Qlt_le_dec 0 _); simpl; lra. }
  destruct (Qlt_le_dec 0 (remaining (walk_step b st1))) as [P1|P1],
           (Qlt_le_dec 0 (remaining (walk_step b st2))) as [P2|P2].
  - assert (IH' := IH (walk_step b st1) (walk_step b st2)).
    rewrite !walk_step_lower in IH'. specialize (IH' eq_refl H0' Hrem'). lra.
  - lra.
  - assert (Htop : Forall (fun b => f_rate b <= top) l)
      by (eapply Forall_impl; [|exact Hl]; intros ? [_ ?]; assumption).
    pose proof (walk_potential_le top l Htop (walk_step b st2)
                  (Qle_trans _ _ _ H0' Hrem')). lra.
  - assumption.
Qed.

(** Without rounding.  For a non-empty bracket list whose rates all lie
    between [0] and [top], and taxable incomes [x <= y], the total tax
    grows from [x] to [y] by at most [(y - x) * top / 100], and does not
    shrink. *)
Lemma growth_exact (top x y : Q) (bs : list Bracket) :
  bs <> [] ->
  Forall (fun b => 0 <= rate b <= top) bs ->
  x <= y ->
  exists tx mx ty my,
    compute_tax_progressive x bs = Return (tx, mx) /\
    compute_tax_progressive y bs = Return (ty, my) /\
    0 <= ty - tx <= (y - x) * (top / 100).
Proof.
  intros Hne Hrates Hxy.
  destruct (cleaned_brackets_returns bs Hne) as [l Hl].
  assert (Hl_rates : Forall (fun b => 0 <= f_rate b <= top) l).
  { apply (cleaned_brackets_Forall (fun b => 0 <= f_rate b <= top) bs l);
      [intros b Hb; exact Hb| |assumption].
    apply Forall_map. exact Hrates. }
  assert (Htop : 0 <= top).
  { destruct bs as [|b bs]; [congruence|].
    inversion Hrates as [|? ? [H0 H1] _]; subst. lra. }
  unfold compute_tax_progressive, final_state. rewrite Hl. simpl bind.
  do 4 eexists. split; [reflexivity|]. split; [reflexivity|].
  set (sx := initial_state x). set (sy := initial_state y).
  assert (H0 : 0 <= remaining sx) by apply initial_state_nonneg.
  assert (Hrem : remaining sx <= remaining sy)
    by (simpl; cases_cmp; lra).
  pose proof (cleaned_brackets_unbounded bs l Hl) as Hinf.
  pose proof (walk_exhausts l sx Hinf eq_refl H0) as Zx.
  pose proof (walk_exhausts l sy Hinf eq_refl (Qle_trans _ _ _ H0 Hrem)) as Zy.
  pose proof (walk_potential_mono top l Hl_rates sx sy eq_refl H0 Hrem) as Hpot.
  assert (Hlow : Forall (fun b => 0 <= f_rate b) l)
    by (eapply Forall_impl; [|exact Hl_rates]; intros ? [? _]; assumption).
  pose proof (walk_total_mono l Hlow sx sy eq_refl H0 Hrem (Qle_refl 0)) as Hmono.
  unfold potential in Hpot. rewrite Zx, Zy in Hpot.
  assert (Hgap : (remaining sy - remaining sx) * (top / 100)
                 <= (y - x) * (top / 100)).
  { apply scaled_mono; [|assumption]. simpl. cases_cmp; lra. }
  simpl total_tax in Hpot at 3 4. split; lra.
Qed.

Lemma walk_potential_uniform (r : Q) (l : list FBracket) :
  Forall (fun b => f_rate b == r) l ->
  forall st,
    0 <= remaining st ->
    potential r (walk l st) == potential r st.
Proof.
  induction 1 as [|b l Hb Hl IH]; intros st Hrem; simpl; [reflexivity|].
  pose proof (walk_step_potential r b st Hrem) as Hstep.
  assert (Z : (r - f_rate b) / 100 == 0) by (rewrite Hb; field).
  rewrite Z in Hstep.
  pose proof (walk_step_remaining b st Hrem) as [H0 _].
  destruct (Qlt_le_dec 0 _).
  - rewrite (IH (walk_step b st) H0). lra.
  - lra.
Qed.

(** Without rounding.  For a non-empty bracket list whose brackets all
    carry the rate [r], whatever their bounds, the progressive calculator
    returns the total tax of the flat calculator at rate [r]. *)
Lemma uniform_exact (taxable r : Q) (bs : list Bracket) :
  bs <> [] ->
  Forall (fun b => rate b == r) bs ->
  exists t m,
    compute_tax_progressive taxable bs = Return (t, m) /\
    t == fst (compute_tax_flat taxable r).
Proof.
  intros Hne Hrates.
  destruct (cleaned_brackets_returns bs Hne) as [l Hl].
  assert (Hl_rates : Forall (fun b => f_rate b == r) l).
  { apply (cleaned_brackets_Forall (fun b => f_rate b == r) bs l);
      [intros b Hb; exact Hb| |assumption].
    apply Forall_map. exact Hrates. }
  unfold compute_tax_progressive, final_state. rewrite Hl. simpl bind.
  do 2 eexists. split; [reflexivity|].
  pose proof (initial_state_nonneg taxable) as H0.
  pose proof (walk_exhausts l (initial_state taxable)
                (cleaned_brackets_unbounded bs l Hl) eq_refl H0) as Z.
  pose proof (walk_potential_uniform r l Hl_rates (initial_state taxable) H0)
    as Hpot.
  unfold potential in Hpot. rewrite Z in Hpot. simpl in Hpot |- *. lra.
Qed.

(** ** Average and marginal rate, without rounding *)

Lemma rates_ascending_last (l : list FBracket) (t : FBracket) :
  rates_ascending l ->
  last_item l = Some t ->
  Forall (fun b => f_rate b <= f_rate t) l.
Proof.
  unfold rates_ascending.
  induction l as [|x l IH]; intros Hasc Hlast; [constructor|].
  inversion Hasc as [|? ? Hrest Hall]; subst.
  simpl in Hlast. destruct l as [|z l'].
  - injection Hlast as ->. constructor; [lra|constructor].
  - constructor; [|now apply IH].
    rewrite Forall_forall in Hall. apply Hall. now apply last_item_In.
Qed.

Lemma rates_ascending_app (l : list FBracket) (t : FBracket) :
  rates_ascending l ->
  Forall (fun b => f_rate b <= f_rate t) l ->
  rates_ascending (l ++ [t]).
Proof.
  unfold rates_ascending.
  induction 1 as [|x l Hs IH Hx]; intros Hall; simpl.
  - repeat constructor.
  - inversion Hall as [|? ? Hxt Hall']; subst.
    constructor; [now apply IH|].
    apply Forall_app. split; [assumption|now repeat constructor].
Qed.

Lemma cleaned_brackets_rates_ascending (bs : list Bracket) (l : list FBracket) :
  rates_ascending (sorted_by f_up_to (map normalize bs)) ->
  cleaned_brackets bs = Return l ->
  rates_ascending l.
Proof.
  intros Hasc. unfold cleaned_brackets.
  destruct (last_item _) as [b|] eqn:E; [|discriminate].
  destruct (is_finite _); intros [= <-]; [|assumption].
  apply rates_ascending_app; [assumption|].
  exact (rates_ascending_last _ b Hasc E).
Qed.

Lemma walk_average (income : Q) (l : list FBracket) :
  rates_ascending l ->
  forall st,
    Forall (fun b => marginal_rate st <= f_rate b) l ->
    0 <= marginal_rate st ->
    0 <= remaining st <= income ->
    total_tax st <= (income - remaining st) * (marginal_rate st / 100) ->
    total_tax (walk l st)
      <= (income - remaining (walk l st)) * (marginal_rate (walk l st) / 100) /\
    0 <= marginal_rate (walk l st) /\
    0 <= remaining (walk l st).
Proof.
  unfold rates_ascending.
  induction 1 as [|b l Hs IH Hb]; intros st Hall Hm Hrem Htot; simpl.
  - repeat split; lra.
  - inversion Hall as [|? ? Hmb Hall']; subst.
    pose proof (span_of_bounds (remaining st) (f_up_to b) (lower_bound st)
                  (proj1 Hrem)) as [Hs0 Hs1].
    assert (Hstep :
      Forall (fun c => marginal_rate (walk_step b st) <= f_rate c) l /\
      0 <= marginal_rate (walk_step b st) /\
      0 <= remaining (walk_step b st) <= income /\
      total_tax (walk_step b st)
        <= (income - remaining (walk_step b st))
           * (marginal_rate (walk_step b st) / 100)).
    { unfold walk_step.
      set (s := span_of _ _ _) in *.
      destruct (Qlt_le_dec 0 s) as [Hpos|Hle]; simpl.
      - split; [assumption|]. split; [lra|]. split; [lra|].
        assert (H1 : (income - remaining st) * (marginal_rate st / 100)
                     <= (income - remaining st) * (f_rate b / 100))
          by (apply scaled_rate_le; lra).
        assert (E : (income - (remaining st - s)) * (f_rate b / 100)
                    == (income - remaining st) * (f_rate b / 100)
                       + s * (f_rate b / 100)) by field.
        rewrite E. lra.
      - repeat split; try assumption; lra. }
    destruct Hstep as (Hall1 & Hm1 & Hrem1 & Htot1).
    destruct (Qlt_le_dec 0 _).
    + now apply IH.
    + repeat split; lra.
Qed.

(** Without rounding.  For a non-empty bracket list with non-negative
    rates that do not decrease from one bracket to the next in ascending
    order of bound, the total tax is at most the taxable income taxed at
    the marginal rate returned. *)
Lemma average_exact (taxable : Q) (bs : list Bracket) :
  bs <> [] ->
  Forall (fun b => 0 <= rate b) bs ->
  rates_ascending (sorted_by f_up_to (map normalize bs)) ->
  exists t m,
    compute_tax_progressive taxable bs = Return (t, m) /\
    t <= py_max 0 taxable * (m / 100).
Proof.
  intros Hne Hrates Hasc.
  destruct (cleaned_brackets_returns bs Hne) as [l Hl].
  assert (Hl_rates : Forall (fun b => 0 <= f_rate b) l).
  { apply (cleaned_brackets_Forall (fun b => 0 <= f_rate b) bs l);
      [intros b Hb; exact Hb| |assumption].
    apply Forall_map. exact Hrates. }
  unfold compute_tax_progressive, final_state. rewrite Hl. simpl bind.
  do 2 eexists. split; [reflexivity|].
  pose proof (initial_state_nonneg taxable) as H0.
  destruct (walk_average (py_max 0 taxable) l
              (cleaned_brackets_rates_ascending bs l Hasc Hl)
              (initial_state taxable)) as (Ht & Hm & Hr).
  - exact Hl_rates.
  - simpl. lra.
  - simpl in *. lra.
  - simpl. lra.
  - set (st := walk l (initial_state taxable)) in *.
    assert (H : (py_max 0 taxable - remaining st) * (marginal_rate st / 100)
                <= py_max 0 taxable * (marginal_rate st / 100))
      by (apply scaled_mono; lra).
    lra.
Qed.

(** ** The order of the brackets given *)

Lemma ForallOrdPairs_Permutation {A : Type} (R : A -> A -> Prop) (l l' : list A) :
  (forall a b, R a b -> R b a) ->
  Permutation l l' ->
  ForallOrdPairs R l -> ForallOrdPairs R l'.
Proof.
  intros Hsym. induction 1 as [|x l l' Hp IH|x y l|l l' l'' _ IH1 _ IH2];
    intros Hl.
  - constructor.
  - inversion Hl as [|? ? Hx Hrest]; subst.
    constructor; [|now apply IH].
    eapply Permutation_Forall; eassumption.
  - inversion Hl as [|? ? Hy Hrest]; subst.
    inversion Hrest as [|? ? Hx Hrest']; subst.
    inversion Hy as [|? ? Hyx Hy']; subst.
    constructor; [constructor; [now apply Hsym|assumption]|].
    now constructor.
  - auto.
Qed.

Section SortedPermutation.
Context {A : Type} (key : A -> xfloat).

Lemma insert_by_swap (x y : A) (l : list A) :
  keys_apart key x y ->
  insert_by key x (insert_by key y l) = insert_by key y (insert_by key x l).
Proof.
  intros Hxy. unfold keys_apart in Hxy.
  induction l as [|z l IH]; simpl.
  - destruct (xfloat_leb (key x) (key y)) eqn:Exy,
             (xfloat_leb (key y) (key x)) eqn:Eyx; try reflexivity.
    + tauto.
    + apply xfloat_leb_total in Exy. congruence.
  - destruct (xfloat_leb (key y) (key z)) eqn:Eyz,
             (xfloat_leb (key x) (key z)) eqn:Exz; simpl;
      rewrite ?Eyz, ?Exz;
      destruct (xfloat_leb (key x) (key y)) eqn:Exy,
               (xfloat_leb (key y) (key x)) eqn:Eyx;
      try reflexivity; try tauto;
      try (apply xfloat_leb_total in Exy; congruence);
      try (rewrite (xfloat_leb_trans _ _ _ Exy Eyz) in Exz; discriminate);
      try (rewrite (xfloat_leb_trans _ _ _ Eyx Exz) in Eyz; discriminate);
      now rewrite IH.
Qed.

Lemma sorted_by_Permutation (l l' : list A) :
  Permutation l l' ->
  ForallOrdPairs (keys_apart key) l ->
  sorted_by key l = sorted_by key l'.
Proof.
  assert (Hsym : forall a b, keys_apart key a b -> keys_apart key b a)
    by (unfold keys_apart; tauto).
  induction 1 as [|x l l' Hp IH|x y l|l l' l'' Hp1 IH1 Hp2 IH2]; intros Hl;
    simpl.
  - reflexivity.
  - inversion Hl; subst. now rewrite IH.
  - inversion Hl as [|? ? Hy _]; subst.
    inversion Hy as [|? ? Hyx _]; subst.
    now apply insert_by_swap.
  - rewrite IH1 by assumption. apply IH2.
    exact (ForallOrdPairs_Permutation (keys_apart key) _ _ Hsym Hp1 Hl).
Qed.
End SortedPermutation.

Lemma ForallOrdPairs_impl {A : Type} (R R' : A -> A -> Prop) (l : list A) :
  (forall a b, R a b -> R' a b) ->
  ForallOrdPairs R l -> ForallOrdPairs R' l.
Proof.
  intros Himp. induction 1 as [|a l Ha Hl IH]; constructor; [|assumption].
  eapply Forall_impl; [|exact Ha]. intros b. apply Himp.
Qed.

Lemma distinct_bounds_apart (bs : list Bracket) :
  distinct_bounds bs ->
  ForallOrdPairs (keys_apart (fun b => f_up_to (normalize b))) bs.
Proof.
  apply ForallOrdPairs_impl. intros a b Hab [H1 H2]. apply Hab.
  unfold same_bound. unfold normalize in H1, H2. simpl in H1, H2.
  destruct (up_to a), (up_to b); simpl in *; try discriminate; [|exact I].
  apply Qle_bool_iff in H1, H2. lra.
Qed.

(** X7.  For bracket lists that hold the same brackets in a different
    order, no two of them with the same upper bound, the calculator gives
    the same outcome: the order of the brackets given does not matter. *)
Theorem compute_tax_progressive_permutation
    (taxable : Q) (bs bs' : list Bracket) :
  Permutation bs bs' ->
  distinct_bounds bs ->
  compute_tax_progressive taxable bs = compute_tax_progressive taxable bs'.
Proof.
  intros Hperm Hdist.
  assert (E : sorted_by f_up_to (map normalize bs)
              = sorted_by f_up_to (map normalize bs')).
  { rewrite !sorted_by_map. f_equal.
    apply sorted_by_Permutation; [assumption|].
    now apply distinct_bounds_apart. }
  unfold compute_tax_progressive, final_state, cleaned_brackets.
  now rewrite E.
Qed.

Lemma compute_tax_progressive_permutation_witness :
  Permutation bounded_schedule (rev bounded_schedule) /\
  distinct_bounds bounded_schedule /\
  compute_tax_progressive 60000 bounded_schedule
  = compute_tax_progressive 60000 (rev bounded_schedule).
Proof.
  assert (H1 : Permutation bounded_schedule (rev bounded_schedule))
    by apply Permutation_rev.
  assert (H2 : distinct_bounds bounded_schedule).
  { unfold distinct_bounds, bounded_schedule.
    repeat constructor. unfold same_bound. simpl. intros H. lra. }
  split; [exact H1|]. split; [exact H2|].
  exact (compute_tax_progressive_permutation 60000 _ _ H1 H2).
Defined.

(** When two brackets have the same bound, their order does matter: the
    first of them in the list takes the whole span. *)
Example compute_tax_progressive_tie :
  exists t t',
    compute_tax_progressive 10
      [ mkBracket (Some 10) 5; mkBracket (Some 10) 7 ] = Return (t, 5) /\
    compute_tax_progressive 10
      [ mkBracket (Some 10) 7; mkBracket (Some 10) 5 ] = Return (t', 7) /\
    ~ t == t'.
Proof.
  do 2 eexists. split; [vm_compute; reflexivity|].
  split; [vm_compute; reflexivity|]. intros H. vm_compute in H. discriminate.
Qed.

(** ** The normalised schedule *)

Lemma last_item_split {A : Type} (l : list A) (x : A) :
  last_item l = Some x -> exists front, l = front ++ [x].
Proof.
  induction l as [|y l IH]; [discriminate|].
  simpl. destruct l as [|z l'].
  - intros [= ->]. now exists [].
  - intros H. destruct (IH H) as [front ->]. now exists (y :: front).
Qed.

(** X8.  For a non-empty bracket list, the list [cleaned] the loop walks
    is in ascending order of bound, ends with an unbounded bracket, holds
    every bracket given (normalised), and has the length of the list
    given or one more. *)
Theorem cleaned_brackets_invariant (bs : list Bracket) :
  bs <> [] ->
  exists l,
    cleaned_brackets bs = Return l /\
    ascending (map f_up_to l) /\
    (exists front b, l = front ++ [b] /\ f_up_to b = PosInf) /\
    (forall b, In b bs -> In (normalize b) l) /\
    (List.length l = List.length bs \/ List.length l = S (List.length bs)).
Proof.
  intros Hne. destruct (cleaned_brackets_returns bs Hne) as [l Hl].
  exists l. split; [assumption|].
  split; [exact (proj1 (cleaned_brackets_ascending bs l Hl))|].
  assert (Hmem : forall b, In b bs ->
                           In (normalize b) (sorted_by f_up_to (map normalize bs)))
    by (intros b Hb; apply sorted_by_In; now apply in_map).
  assert (Hlen : List.length (sorted_by f_up_to (map normalize bs))
                 = List.length bs)
    by (now rewrite sorted_by_length, length_map).
  revert Hl. unfold cleaned_brackets.
  destruct (last_item _) as [b|] eqn:E; [|discriminate].
  destruct (is_finite (f_up_to b)) eqn:F; intros [= <-].
  - split; [now exists (sorted_by f_up_to (map normalize bs)), 
                       (mkFBracket PosInf (f_rate b))|].
    split.
    + intros c Hc. apply in_or_app. left. now apply Hmem.
    + right. rewrite length_app, Hlen. simpl. lia.
  - destruct (last_item_split _ _ E) as [front Hfront].
    split; [exists front, b; split; [assumption|now destruct (f_up_to b)]|].
    split; [assumption|now left].
Qed.

Lemma cleaned_brackets_invariant_witness :
  bounded_schedule <> [] /\
  exists l,
    cleaned_brackets bounded_schedule = Return l /\
    ascending (map f_up_to l) /\
    (exists front b, l = front ++ [b] /\ f_up_to b = PosInf) /\
    (forall b, In b bounded_schedule -> In (normalize b) l) /\
    (List.length l = List.length bounded_schedule \/
     List.length l = S (List.length bounded_schedule)).
Proof.
  assert (H : bounded_schedule <> []) by discriminate.
  split; [exact H|].
  exact (cleaned_brackets_invariant bounded_schedule H).
Defined.

(** * Further properties of the flat calculator *)

(** X10.  The flat calculator taxes a zero or negative income at [0],
    whatever the rate; for a non-negative rate its tax is non-negative
    and does not decrease when the income grows. *)
Theorem compute_tax_flat_clamped (x y r : Q) :
  (x <= 0 -> fst (compute_tax_flat x r) == 0) /\
  (0 <= r -> x <= y ->
   0 <= fst (compute_tax_flat x r) <= fst (compute_tax_flat y r)).
Proof.
  unfold compute_tax_flat. simpl. split.
  - intros Hx. cases_cmp; [lra|]. field.
  - intros Hr Hxy.
    assert (H0 : 0 <= py_max 0 x) by (cases_cmp; lra).
    assert (H1 : py_max 0 x <= py_max 0 y) by (cases_cmp; lra).
    split; [now apply scaled_nonneg|now apply scaled_mono].
Qed.

Lemma compute_tax_flat_clamped_witness :
  -5 <= 0 /\ 0 <= 10 /\ -5 <= 60000 /\
  fst (compute_tax_flat (-5) 10) == 0 /\
  0 <= fst (compute_tax_flat (-5) 10) <= fst (compute_tax_flat 60000 10).
Proof.
  assert (H1 : -5 <= 0) by lra.
  assert (H2 : 0 <= 10) by lra.
  assert (H3 : -5 <= 60000) by lra.
  split; [exact H1|]. split; [exact H2|]. split; [exact H3|].
  destruct (compute_tax_flat_clamped (-5) 60000 10) as [Ha Hb].
  split; [exact (Ha H1)|exact (Hb H2 H3)].
Defined.

(** * Saving and loading profiles *)

Lemma dict_of_items_fresh {V : Type} (items : list (string * V)) :
  NoDup (keys items) -> dict_of_items items = items.
Proof.
  intros Hnd. unfold dict_of_items. now rewrite set_items_fresh.
Qed.

Lemma mapM_saved (m : dict TaxProfile) :
  mapM (fun kv => p <- from_json (snd kv) ;; Return (fst kv, p))
       (map (fun np => (fst np, to_json (snd np))) m)
  = Return (map (fun np => (fst np, with_bracket_list (snd np))) m).
Proof.
  induction m as [|[k p] m IH]; simpl; [reflexivity|].
  rewrite from_json_to_json_normalised. simpl. rewrite IH. reflexivity.
Qed.

Lemma load_saved (m : dict TaxProfile) :
  Forall (fun np => fst np = name (snd np)) m ->
  NoDup (keys m) ->
  load_existing (save_profiles m)
  = Return (map (fun np => (fst np, with_bracket_list (snd np))) m).
Proof.
  intros Hkeys Hnd.
  assert (K1 : keys (map (fun np => (fst np, to_json (snd np))) m) = keys m)
    by (unfold keys; rewrite map_map; reflexivity).
  assert (K2 : keys (map (fun np => (fst np, with_bracket_list (snd np))) m)
               = keys m)
    by (unfold keys; rewrite map_map; reflexivity).
  unfold save_profiles, load_existing. simpl dict_items. simpl bind.
  rewrite dict_of_items_fresh by (now rewrite K1).
  unfold profiles_of_items. rewrite mapM_saved. simpl bind.
  rewrite dict_of_items_fresh by (now rewrite K2).
  unfold rekey, values. rewrite !map_map. simpl.
  assert (E : map (fun np => (name (snd np), with_bracket_list (snd np))) m
              = map (fun np => (fst np, with_bracket_list (snd np))) m).
  { apply map_ext_in. intros np Hnp. rewrite Forall_forall in Hkeys.
    now rewrite (Hkeys np Hnp). }
  rewrite E. rewrite dict_of_items_fresh by (now rewrite K2). reflexivity.
Qed.

Lemma with_bracket_list_id (p : TaxProfile) :
  (exists bs, brackets p = Some bs) -> with_bracket_list p = p.
Proof.
  intros [bs Hbs]. destruct p as [n m fr b]. simpl in Hbs. subst b. reflexivity.
Qed.

Lemma load_saved_consistent (m : dict TaxProfile) :
  consistent m -> load_existing (save_profiles m) = Return m.
Proof.
  intros (Hkeys & Hnd & Hbr). rewrite load_saved by assumption.
  assert (E : map (fun np => (fst np, with_bracket_list (snd np))) m = m).
  { rewrite <- (map_id m) at 2. apply map_ext_in. intros [k p] Hin.
    rewrite Forall_forall in Hbr. simpl.
    now rewrite (with_bracket_list_id p (Hbr _ Hin)). }
  now rewrite E.
Qed.

(** X11.  For profiles in which every key is the name of its profile, no
    key occurs twice and every [brackets] field is a list, loading the
    document [save_profiles] writes returns the very same profiles, in
    the same order. *)
Theorem load_profiles_save_profiles (m : dict TaxProfile) :
  consistent m ->
  load_profiles (Some (save_profiles m))
  = (Return m, Some (save_profiles m)).
Proof.
  intros Hm. simpl. now rewrite load_saved_consistent.
Qed.

Lemma load_profiles_save_profiles_witness :
  consistent [ ("X", last_x); ("Y", only_y) ] /\
  load_profiles (Some (save_profiles [ ("X", last_x); ("Y", only_y) ]))
  = (Return [ ("X", last_x); ("Y", only_y) ],
     Some (save_profiles [ ("X", last_x); ("Y", only_y) ])).
Proof.
  assert (H : consistent [ ("X", last_x); ("Y", only_y) ]).
  { split; [repeat constructor|]. split.
    - repeat constructor; simpl; intuition discriminate.
    - repeat constructor; simpl; now eexists. }
  split; [exact H|].
  exact (load_profiles_save_profiles _ H).
Defined.

Lemma from_json_brackets (d : pyval) (p : TaxProfile) :
  from_json d = Return p -> exists bs, brackets p = Some bs.
Proof.
  unfold from_json.
  destruct (dict_items d); simpl; try discriminate.
  destruct (py_float _); simpl; try discriminate.
  destruct (py_iter _); simpl; try discriminate.
  destruct (mapM _ _); simpl; try discriminate.
  destruct (as_str _); simpl; try discriminate.
  destruct (as_str _); simpl; try discriminate.
  intros [= <-]. now eexists.
Qed.

(** X12.  A profile that [from_json] returns is unchanged by a further
    round trip: [from_json] of its [to_json] returns it again. *)
Theorem from_json_stable (d : pyval) (p : TaxProfile) :
  from_json d = Return p ->
  from_json (to_json p) = Return p.
Proof.
  intros Hp. rewrite from_json_to_json_normalised. f_equal.
  apply (with_bracket_list_id p). exact (from_json_brackets d p Hp).
Qed.

Lemma from_json_stable_witness :
  from_json record_with_name_only
    = Return (mkTaxProfile "Bare" "flat" 10 (Some [])) /\
  from_json (to_json (mkTaxProfile "Bare" "flat" 10 (Some [])))
    = Return (mkTaxProfile "Bare" "flat" 10 (Some [])).
Proof.
  assert (H : from_json record_with_name_only
              = Return (mkTaxProfile "Bare" "flat" 10 (Some [])))
    by reflexivity.
  split; [exact H|].
  exact (from_json_stable _ _ H).
Defined.

Lemma mapM_Forall {A B : Type} (f : A -> outcome B) (P : B -> Prop) (l : list A) :
  (forall x y, f x = Return y -> P y) ->
  forall r, mapM f l = Return r -> Forall P r.
Proof.
  intros Hf. induction l as [|x l IH]; simpl; intros r.
  - intros [= <-]. constructor.
  - destruct (f x) as [y| |] eqn:E; simpl; try discriminate.
    destruct (mapM f l); simpl; try discriminate.
    intros [= <-]. constructor; [exact (Hf x y E)|now apply IH].
Qed.

Lemma load_existing_consistent (raw : pyval) (m : dict TaxProfile) :
  load_existing raw = Return m -> consistent m.
Proof.
  unfold load_existing.
  destruct (dict_items raw) as [items| |]; simpl; try discriminate.
  unfold profiles_of_items.
  destruct (mapM _ items) as [kps| |] eqn:E; simpl; try discriminate.
  intros [= <-].
  split; [apply rekey_keys|]. split; [apply rekey_NoDup|].
  assert (Hkps : Forall (fun np : string * TaxProfile =>
                           exists bs, brackets (snd np) = Some bs) kps).
  { refine (mapM_Forall _ _ items _ kps E).
    intros [k v] [k' p]. simpl.
    destruct (from_json v) as [q| |] eqn:Ev; simpl; try discriminate.
    intros [= <- <-]. simpl. exact (from_json_brackets v q Ev). }
  assert (Hprofiles : Forall (fun np : string * TaxProfile =>
                                exists bs, brackets (snd np) = Some bs)
                             (dict_of_items kps))
    by (apply set_items_Forall; [assumption|constructor]).
  unfold rekey, dict_of_items. apply set_items_Forall; [|constructor].
  apply Forall_map. unfold values. apply Forall_map.
  eapply Forall_impl; [|exact Hprofiles]. intros np H. exact H.
Qed.

(** X13.  Whatever document [load_profiles] loads profiles from, saving
    the profiles it returns and loading again returns the same profiles:
    what was loaded is what a save writes back. *)
Theorem load_profiles_fixpoint (file : option pyval) (m : dict TaxProfile) :
  fst (load_profiles file) = Return m ->
  fst (load_profiles (Some (save_profiles m))) = Return m.
Proof.
  intros Hload. simpl. apply load_saved_consistent.
  destruct file as [raw|]; simpl in Hload.
  - exact (load_existing_consistent raw m Hload).
  - injection Hload as <-.
    split; [repeat constructor|]. split.
    + repeat constructor; simpl; intuition discriminate.
    + repeat constructor; simpl; now eexists.
Qed.

Lemma load_profiles_fixpoint_witness :
  fst (load_profiles (Some (PDict edited_store)))
    = Return [ ("X", last_x); ("Y", only_y) ] /\
  fst (load_profiles (Some (save_profiles [ ("X", last_x); ("Y", only_y) ])))
    = Return [ ("X", last_x); ("Y", only_y) ].
Proof.
  assert (H : fst (load_profiles (Some (PDict edited_store)))
              = Return [ ("X", last_x); ("Y", only_y) ]) by reflexivity.
  split; [exact H|].
  exact (load_profiles_fixpoint _ _ H).
Defined.

Lemma mapM_raises {A B : Type} (f : A -> outcome B) (before after : list A)
      (x : A) (e : exn) :
  Forall (fun a => exists b, f a = Return b) before ->
  f x = Raise e ->
  mapM f (before ++ x :: after) = Raise e.
Proof.
  intros Hbefore Hx. induction Hbefore as [|a before [b Hb] _ IH]; simpl.
  - now rewrite Hx.
  - now rewrite Hb, IH.
Qed.

(** X14.  If the first record of the store that [from_json] does not
    return a profile for makes it raise an exception, [load_profiles]
    raises that exception: one bad record fails the whole load, and the
    file is left as it was. *)
Theorem load_profiles_bad_record
    (before after : dict pyval) (k : string) (v : pyval) (e : exn) :
  Forall (fun kv => exists p, from_json (snd kv) = Return p) before ->
  from_json v = Raise e ->
  load_profiles (Some (PDict (before ++ (k, v) :: after)))
  = (Raise e, Some (PDict (before ++ (k, v) :: after))).
Proof.
  intros Hbefore Hv. simpl. f_equal.
  unfold load_existing. simpl dict_items. simpl bind.
  unfold profiles_of_items. rewrite mapM_raises with (e := e).
  - reflexivity.
  - eapply Forall_impl; [|exact Hbefore].
    intros kv [p Hp]. exists (fst kv, p). now rewrite Hp.
  - simpl. now rewrite Hv.
Qed.

Lemma load_profiles_bad_record_witness :
  Forall (fun kv => exists p, from_json (snd kv) = Return p) edited_store /\
  from_json record_with_null_rate = Raise TypeError /\
  load_profiles (Some (PDict (edited_store ++ [("d", record_with_null_rate)])))
  = (Raise TypeError,
     Some (PDict (edited_store ++ [("d", record_with_null_rate)]))).
Proof.
  assert (H1 : Forall (fun kv => exists p, from_json (snd kv) = Return p)
                      edited_store)
    by (repeat constructor; simpl; now eexists).
  assert (H2 : from_json record_with_null_rate = Raise TypeError)
    by reflexivity.
  split; [exact H1|]. split; [exact H2|].
  exact (load_profiles_bad_record edited_store [] "d" _ TypeError H1 H2).
Defined.

(** * The form *)

Lemma set_size_le (l : list Q) : (set_size l <= List.length l)%nat.
Proof.
  induction l as [|x l IH]; simpl; [lia|].
  destruct (existsb _ l); lia.
Qed.

Lemma set_size_distinct (l : list Q) :
  set_size l = List.length l ->
  ForallOrdPairs (fun x y => ~ x == y) l.
Proof.
  induction l as [|x l IH]; simpl; [constructor|].
  pose proof (set_size_le l) as Hle.
  destruct (existsb (Qeq_bool x) l) eqn:E; [lia|].
  intros [= H]. constructor; [|now apply IH].
  apply Forall_forall. intros y Hy Hxy.
  assert (Ex : existsb (Qeq_bool x) l = true).
  { apply existsb_exists. exists y. split; [assumption|].
    now apply Qeq_bool_iff. }
  congruence.
Qed.

Lemma set_size_duplicate (x y : Q) (l1 l2 l3 : list Q) :
  x == y ->
  (set_size (l1 ++ x :: l2 ++ y :: l3)
   < List.length (l1 ++ x :: l2 ++ y :: l3))%nat.
Proof.
  intros Hxy. induction l1 as [|z l1 IH]; simpl.
  - assert (E : existsb (Qeq_bool x) (l2 ++ y :: l3) = true).
    { apply existsb_exists. exists y. split.
      - apply in_or_app. right. now left.
      - now apply Qeq_bool_iff. }
    rewrite E. pose proof (set_size_le (l2 ++ y :: l3)). lia.
  - destruct (existsb _ _); lia.
Qed.

Lemma finite_bounds_app (l1 l2 : list Bracket) :
  finite_bounds (l1 ++ l2) = finite_bounds l1 ++ finite_bounds l2.
Proof.
  induction l1 as [|b l1 IH]; simpl; [reflexivity|].
  destruct (up_to b); simpl; now rewrite IH.
Qed.

Lemma finite_bounds_In (l : list Bracket) (b : Bracket) (u : Q) :
  In b l -> up_to b = Some u -> In u (finite_bounds l).
Proof.
  induction l as [|c l IH]; simpl; [tauto|].
  intros [->|Hin] Hu.
  - rewrite Hu. now left.
  - destruct (up_to c); [right|]; now apply IH.
Qed.

Lemma finite_bounds_distinct (l : list Bracket) :
  ForallOrdPairs (fun x y => ~ x == y) (finite_bounds l) ->
  ForallOrdPairs
    (fun a b => forall x y, up_to a = Some x -> up_to b = Some y -> ~ x == y) l.
Proof.
  induction l as [|a l IH]; simpl; intros H; [constructor|].
  destruct (up_to a) as [u|] eqn:Ea.
  - inversion H as [|? ? Hu Hrest]; subst.
    constructor; [|now apply IH].
    apply Forall_forall. intros b Hb x y Hx Hy.
    assert (Ex : u = x) by congruence. subst x.
    rewrite Forall_forall in Hu. apply Hu.
    exact (finite_bounds_In l b y Hb Hy).
  - constructor; [|now apply IH].
    apply Forall_forall. intros b Hb x y Hx. congruence.
Qed.

Section SortedAgain.
Context {A : Type} (key : A -> xfloat).

Lemma insert_by_Permutation (x : A) (l : list A) :
  Permutation (x :: l) (insert_by key x l).
Proof.
  induction l as [|y l IH]; simpl; [reflexivity|].
  destruct (xfloat_leb _ _); [reflexivity|].
  rewrite perm_swap. now constructor.
Qed.

Lemma sorted_by_is_Permutation (l : list A) :
  Permutation l (sorted_by key l).
Proof.
  induction l as [|x l IH]; simpl; [constructor|].
  rewrite <- insert_by_Permutation. now constructor.
Qed.

Lemma sorted_by_ascending_id (l : list A) :
  ascending (map key l) -> sorted_by key l = l.
Proof.
  unfold ascending. induction l as [|x l IH]; simpl; intros Hasc;
    [reflexivity|].
  inversion Hasc as [|? ? Hrest Hall]; subst.
  rewrite IH by assumption.
  destruct l as [|y l']; [reflexivity|].
  simpl. inversion Hall as [|? ? Hxy _]; subst. now rewrite Hxy.
Qed.
End SortedAgain.

Section FormFacts.
Variable strip : string -> string.
Variable float_of : string -> parsed.

Lemma collect_rows_length (rows : list (string * string)) :
  forall bs,
    collect_rows strip float_of rows = Accepted bs ->
    List.length bs = List.length rows.
Proof.
  induction rows as [|[up_v rate_v] rows IH]; simpl; intros bs.
  - now intros [= <-].
  - destruct (collect_row strip float_of up_v rate_v); simpl; try discriminate.
    destruct (collect_rows strip float_of rows); simpl; try discriminate.
    intros [= <-]. simpl. now rewrite (IH _ eq_refl).
Qed.

(** X15.  When [_collect_brackets] accepts the rows of the form, the
    brackets it returns are as many as the rows, in ascending order of
    bound with the unbounded ones last, no two of them have the same
    finite bound, and the sort at the start of the progressive
    calculator leaves them in that order. *)
Theorem collect_brackets_accepted (f : form) (bs : list Bracket) :
  collect_brackets strip float_of f = Accepted bs ->
  List.length bs = List.length (bracket_rows f) /\
  ascending (map (fun b => f_up_to (normalize b)) bs) /\
  ForallOrdPairs
    (fun a b => forall x y, up_to a = Some x -> up_to b = Some y -> ~ x == y)
    bs /\
  sorted_by f_up_to (map normalize bs) = map normalize bs.
Proof.
  unfold collect_brackets.
  destruct (collect_rows strip float_of (bracket_rows f)) as [rows| |] eqn:E;
    simpl; try discriminate.
  destruct (Nat.eqb _ _) eqn:Esize; [|discriminate].
  apply Nat.eqb_eq in Esize. intros [= <-].
  pose proof (sorted_by_ascending (fun b => f_up_to (normalize b)) rows) as Hasc.
  split; [now rewrite sorted_by_length, (collect_rows_length _ _ E)|].
  split; [assumption|]. split.
  - eapply ForallOrdPairs_Permutation;
      [|apply sorted_by_is_Permutation
       |exact (finite_bounds_distinct rows (set_size_distinct _ Esize))].
    intros a b H x y Hx Hy Hxy. apply (H y x Hy Hx). now symmetry.
  - rewrite sorted_by_map. f_equal. now apply sorted_by_ascending_id.
Qed.

(** X16.  When every row of the form parses and two of the rows have
    equal finite bounds, [_collect_brackets] raises the [ValueError] for
    duplicate "up to" values. *)
Theorem collect_brackets_duplicate
    (f : form) (l1 l2 l3 : list Bracket) (a b : Bracket) (x y : Q) :
  collect_rows strip float_of (bracket_rows f)
    = Accepted (l1 ++ a :: l2 ++ b :: l3) ->
  up_to a = Some x ->
  up_to b = Some y ->
  x == y ->
  collect_brackets strip float_of f = Rejected DuplicateUpTo.
Proof.
  intros Hrows Ha Hb Hxy. unfold collect_brackets. rewrite Hrows. simpl.
  destruct (Nat.eqb _ _) eqn:E; [|reflexivity].
  apply Nat.eqb_eq in E. exfalso. revert E.
  rewrite finite_bounds_app. simpl. rewrite Ha, finite_bounds_app. simpl.
  rewrite Hb.
  pose proof (set_size_duplicate x y (finite_bounds l1) (finite_bounds l2)
                (finite_bounds l3) Hxy). lia.
Qed.
End FormFacts.

Lemma collect_brackets_accepted_witness :
  collect_brackets strip_blanks float_of_digits progressive_form
    = Accepted sample_brackets /\
  List.length sample_brackets = List.length (bracket_rows progressive_form) /\
  ascending (map (fun b => f_up_to (normalize b)) sample_brackets) /\
  ForallOrdPairs
    (fun a b => forall x y, up_to a = Some x -> up_to b = Some y -> ~ x == y)
    sample_brackets /\
  sorted_by f_up_to (map normalize sample_brackets)
    = map normalize sample_brackets.
Proof.
  assert (H : collect_brackets strip_blanks float_of_digits progressive_form
              = Accepted sample_brackets) by reflexivity.
  split; [exact H|].
  exact (collect_brackets_accepted strip_blanks float_of_digits
           progressive_form sample_brackets H).
Defined.

Lemma collect_brackets_duplicate_witness :
  collect_rows strip_blanks float_of_digits
               [ ("10000", "5"); ("", "30"); ("10000", "7") ]
    = Accepted ([] ++ mkBracket (Some 10000) 5
                   :: [mkBracket None 30] ++ mkBracket (Some 10000) 7 :: []) /\
  10000 == 10000 /\
  collect_brackets strip_blanks float_of_digits
    (mkForm "60000" "0" "progressive" "10"
            [ ("10000", "5"); ("", "30"); ("10000", "7") ])
    = Rejected DuplicateUpTo.
Proof.
  assert (H1 : collect_rows strip_blanks float_of_digits
                 (bracket_rows
                    (mkForm "60000" "0" "progressive" "10"
                            [ ("10000", "5"); ("", "30"); ("10000", "7") ]))
               = Accepted ([] ++ mkBracket (Some 10000) 5
                              :: [mkBracket None 30]
                              ++ mkBracket (Some 10000) 7 :: []))
    by reflexivity.
  assert (H2 : 10000 == 10000) by reflexivity.
  split; [exact H1|]. split; [exact H2|].
  exact (collect_brackets_duplicate strip_blanks float_of_digits _ _ _ _ _ _
           10000 10000 H1 eq_refl eq_refl H2).
Defined.

Lemma scaled_at_most (x r : Q) : 0 <= x -> r <= 100 -> x * (r / 100) <= x.
Proof.
  intros Hx Hr.
  assert (H : x * (r / 100) <= x * (100 / 100)) by (now apply scaled_rate_le).
  assert (E : x * (100 / 100) == x) by field.
  rewrite E in H. exact H.
Qed.

Lemma effective_rate_bounds (tax income top : Q) :
  0 < income ->
  0 <= tax <= income * (top / 100) ->
  0 <= tax / income * 100 <= top.
Proof.
  intros Hpos [H0 H1].
  assert (E : tax / income * 100 * income == tax * 100)
    by (field; intros Hz; rewrite Hz in Hpos; lra).
  split.
  - apply (Qmult_le_r _ _ income Hpos). rewrite E. lra.
  - apply (Qmult_le_r _ _ income Hpos). rewrite E.
    assert (E' : top * income == income * (top / 100) * 100) by field.
    rewrite E'. lra.
Qed.

Lemma effective_rate_nonneg (tax income : Q) :
  0 < income -> 0 <= tax -> 0 <= tax / income * 100.
Proof.
  intros Hpos H0.
  assert (E : tax / income * 100 * income == tax * 100)
    by (field; intros Hz; rewrite Hz in Hpos; lra).
  apply (Qmult_le_r _ _ income Hpos). rewrite E. lra.
Qed.

Lemma compute_tax_progressive_at_zero (bs : list Bracket) :
  bs <> [] ->
  compute_tax_progressive 0 bs = Return (0, 0).
Proof.
  intros Hne. destruct (cleaned_brackets_returns bs Hne) as [l Hl].
  unfold compute_tax_progressive, final_state. rewrite Hl. simpl bind.
  pose proof (cleaned_brackets_nonempty bs l Hl) as Hl_ne.
  destruct l as [|b l]; [congruence|].
  assert (Hinit : initial_state 0 = mkState 0 (Fin 0) 0 0) by reflexivity.
  rewrite Hinit. simpl walk. unfold walk_step. simpl remaining. simpl lower_bound.
  pose proof (span_of_bounds 0 (f_up_to b) (Fin 0) (Qle_refl 0)) as [_ Hspan].
  destruct (Qlt_le_dec 0 (span_of 0 (f_up_to b) (Fin 0))); [lra|].
  simpl. reflexivity.
Qed.

Lemma compute_tax_progressive_shown (taxable : Q) (bs : list Bracket) :
  bs <> [] ->
  Forall (fun b => 0 <= rate b) bs ->
  exists t m,
    compute_tax_progressive taxable bs = Return (t, m) /\
    0 <= t /\
    (m = 0 \/ exists b, In b bs /\ rate b = m).
Proof.
  intros Hne Hrates. destruct (cleaned_brackets_returns bs Hne) as [l Hl].
  unfold compute_tax_progressive, final_state. rewrite Hl. simpl bind.
  do 2 eexists. split; [reflexivity|]. split.
  - assert (Hl_rates : Forall (fun b => 0 <= f_rate b) l).
    { apply (cleaned_brackets_Forall (fun b => 0 <= f_rate b) bs l);
        [intros b Hb; exact Hb| |assumption].
      apply Forall_map. exact Hrates. }
    exact (walk_total_ge l Hl_rates (initial_state taxable)).
  - assert (Hfrom : Forall (fun fb => exists b, In b bs /\ rate b = f_rate fb) l).
    { apply (cleaned_brackets_Forall _ bs l); [| |assumption].
      - intros fb Hfb. exact Hfb.
      - apply Forall_map. apply Forall_forall. intros b Hb. now exists b. }
    rewrite Forall_forall in Hfrom.
    destruct (walk_marginal l (initial_state taxable)) as [[Em _]|(fb & Hfb & Efb)].
    + left. exact Em.
    + right. destruct (Hfrom fb Hfb) as (b & Hb & Eb). exists b.
      split; [assumption|congruence].
Qed.

Section CalculateFacts.
Variable strip : string -> string.
Variable float_of : string -> parsed.

Lemma collect_numbers_nonneg (f : form) (income deductions : Q) :
  collect_numbers float_of f = Accepted (income, deductions) ->
  float_of (var_income f) = Parsed income /\
  float_of (var_deductions f) = Parsed deductions /\
  0 <= income /\ 0 <= deductions.
Proof.
  unfold collect_numbers, float_or.
  destruct (float_of (var_income f)) as [i| |]; simpl; try discriminate.
  destruct (float_of (var_deductions f)) as [d| |]; simpl; try discriminate.
  destruct (Qlt_le_dec i 0); [discriminate|].
  destruct (Qlt_le_dec d 0); [discriminate|].
  intros [= <- <-]. now repeat split.
Qed.

(** X17.  In flat mode, with income and deductions accepted and a flat
    rate [r >= 0], "Calculate" shows results in which the taxable income
    is between [0] and the income, the marginal rate is [r], the tax and
    the effective rate are not negative and the net income is at most the
    income.  When the deductions reach the income, nothing is taxed and
    the net income is the income.  When [r <= 100], the tax is at most the
    taxable income, the net income is not negative and the effective rate
    is at most [100]. *)
Theorem on_calculate_flat (f : form) (income deductions r : Q) :
  var_mode f = "flat" ->
  collect_numbers float_of f = Accepted (income, deductions) ->
  float_of (var_flat_rate f) = Parsed r ->
  0 <= r ->
  exists taxable tax net effective,
    on_calculate strip float_of f = Results taxable tax net effective r /\
    0 <= taxable <= income /\
    0 <= tax /\
    net <= income /\
    0 <= effective /\
    (income <= deductions ->
     taxable == 0 /\ tax == 0 /\ net == income /\ effective == 0) /\
    (r <= 100 -> tax <= taxable /\ 0 <= net /\ effective <= 100).
Proof.
  intros Hmode Hnum Hrate Hr.
  destruct (collect_numbers_nonneg f income deductions Hnum)
    as (_ & _ & Hi & Hd).
  unfold on_calculate. rewrite Hnum, Hmode. simpl String.eqb. cbv iota.
  unfold float_or. rewrite Hrate. unfold compute_tax_flat.
  set (taxable := py_max 0 (income - deductions)).
  assert (Ht : 0 <= taxable <= income) by (unfold taxable; cases_cmp; lra).
  set (tax := py_max 0 taxable * (r / 100)).
  assert (Etax : tax == taxable * (r / 100))
    by (unfold tax; cases_cmp; [reflexivity|];
        assert (Z : taxable == 0) by lra; rewrite Z; reflexivity).
  assert (Htax : 0 <= tax) by (rewrite Etax; apply scaled_nonneg; lra).
  assert (H100 : r <= 100 -> tax <= taxable).
  { intros H. rewrite Etax. apply scaled_at_most; lra. }
  do 4 eexists. split; [reflexivity|].
  split; [assumption|]. split; [assumption|]. split; [lra|].
  assert (Hzero : income <= deductions -> taxable == 0 /\ tax == 0).
  { intros H. assert (Z : taxable == 0) by (unfold taxable; cases_cmp; lra).
    split; [exact Z|]. rewrite Etax, Z. field. }
  destruct (Qlt_le_dec 0 income) as [Hpos|Hnone].
  - split; [now apply effective_rate_nonneg|]. split.
    + intros H. destruct (Hzero H) as [Z1 Z2].
      split; [exact Z1|]. split; [exact Z2|]. split; [lra|].
      rewrite Z2. field. intros Hz. rewrite Hz in Hpos. lra.
    + intros H. specialize (H100 H). split; [exact H100|]. split; [lra|].
      apply (effective_rate_bounds tax income 100 Hpos).
      split; [assumption|].
      assert (E : income * (100 / 100) == income) by field.
      rewrite E. lra.
  - split; [lra|]. split.
    + intros H. destruct (Hzero H) as [Z1 Z2].
      split; [exact Z1|]. split; [exact Z2|]. split; [lra|reflexivity].
    + intros H. specialize (H100 H). split; [exact H100|]. split; lra.
Qed.

(** X18.  In progressive mode, with income and deductions accepted, the
    bracket rows accepted, at least one row and no negative rate,
    "Calculate" shows results in which the taxable income is between [0]
    and the income, the tax and the effective rate are not negative, the
    net income is at most the income, and the marginal rate is [0] or the
    rate of one of the rows.  When the deductions reach the income,
    nothing is taxed: the tax and the marginal rate are [0] and the net
    income is the income. *)
Theorem on_calculate_progressive
    (f : form) (income deductions : Q) (bs : list Bracket) :
  var_mode f <> "flat" ->
  collect_numbers float_of f = Accepted (income, deductions) ->
  collect_brackets strip float_of f = Accepted bs ->
  bs <> [] ->
  Forall (fun b => 0 <= rate b) bs ->
  exists taxable tax net effective marginal,
    on_calculate strip float_of f = Results taxable tax net effective marginal /\
    0 <= taxable <= income /\
    0 <= tax /\
    net <= income /\
    0 <= effective /\
    (marginal = 0 \/ exists b, In b bs /\ rate b = marginal) /\
    (income <= deductions ->
     taxable == 0 /\ tax == 0 /\ marginal = 0 /\ net == income).
Proof.
  intros Hmode Hnum Hbs Hne Hrates.
  destruct (collect_numbers_nonneg f income deductions Hnum)
    as (_ & _ & Hi & Hd).
  apply String.eqb_neq in Hmode.
  unfold on_calculate. rewrite Hnum, Hmode, Hbs.
  set (taxable := py_max 0 (income - deductions)).
  assert (Ht : 0 <= taxable <= income) by (unfold taxable; cases_cmp; lra).
  destruct (compute_tax_progressive_shown taxable bs Hne Hrates)
    as (tax & marginal & Hc & Htax & Hm).
  assert (Hzero : income <= deductions ->
                  taxable == 0 /\ tax == 0 /\ marginal = 0).
  { intros H.
    assert (Z : taxable = 0).
    { unfold taxable, py_max.
      destruct (Qlt_le_dec 0 (income - deductions)); [lra|reflexivity]. }
    rewrite Z in Hc. rewrite (compute_tax_progressive_at_zero bs Hne) in Hc.
    injection Hc as <- <-. rewrite Z. repeat split; reflexivity. }
  rewrite Hc.
  do 5 eexists. split; [reflexivity|].
  split; [assumption|]. split; [assumption|]. split; [lra|].
  split.
  { destruct (Qlt_le_dec 0 income) as [Hpos|Hnone];
      [now apply effective_rate_nonneg|lra]. }
  split; [exact Hm|].
  intros H. destruct (Hzero H) as (Z1 & Z2 & Z3).
  split; [exact Z1|]. split; [exact Z2|]. split; [exact Z3|]. lra.
Qed.

(** X19.  In a mode other than flat, with income and deductions accepted
    and no bracket row, "Calculate" shows nothing: the bracket list is
    accepted as empty and the [IndexError] of the progressive calculator
    leaves the handler, which only catches [ValueError]. *)
Theorem on_calculate_no_rows (f : form) (income deductions : Q) :
  var_mode f <> "flat" ->
  collect_numbers float_of f = Accepted (income, deductions) ->
  bracket_rows f = [] ->
  collect_brackets strip float_of f = Accepted [] /\
  on_calculate strip float_of f = Uncaught IndexError.
Proof.
  intros Hmode Hnum Hrows. apply String.eqb_neq in Hmode.
  assert (Hbs : collect_brackets strip float_of f = Accepted [])
    by (unfold collect_brackets; now rewrite Hrows).
  split; [assumption|].
  unfold on_calculate. now rewrite Hnum, Hmode, Hbs.
Qed.
End CalculateFacts.

Lemma on_calculate_flat_witness :
  var_mode flat_form = "flat" /\
  collect_numbers float_of_digits flat_form = Accepted (60000, 0) /\
  float_of_digits (var_flat_rate flat_form) = Parsed 10 /\
  0 <= 10 /\
  exists taxable tax net effective,
    on_calculate strip_blanks float_of_digits flat_form
      = Results taxable tax net effective 10 /\
    0 <= taxable <= 60000 /\
    0 <= tax /\
    net <= 60000 /\
    0 <= effective /\
    (60000 <= 0 ->
     taxable == 0 /\ tax == 0 /\ net == 60000 /\ effective == 0) /\
    (10 <= 100 -> tax <= taxable /\ 0 <= net /\ effective <= 100).
Proof.
  assert (H1 : var_mode flat_form = "flat") by reflexivity.
  assert (H2 : collect_numbers float_of_digits flat_form = Accepted (60000, 0))
    by reflexivity.
  assert (H3 : float_of_digits (var_flat_rate flat_form) = Parsed 10)
    by reflexivity.
  assert (H4 : 0 <= 10) by lra.
  split; [exact H1|]. split; [exact H2|]. split; [exact H3|]. split; [exact H4|].
  exact (on_calculate_flat strip_blanks float_of_digits flat_form
           60000 0 10 H1 H2 H3 H4).
Defined.

Lemma on_calculate_progressive_witness :
  var_mode progressive_form <> "flat" /\
  collect_numbers float_of_digits progressive_form = Accepted (60000, 0) /\
  collect_brackets strip_blanks float_of_digits progressive_form
    = Accepted sample_brackets /\
  sample_brackets <> [] /\
  Forall (fun b => 0 <= rate b) sample_brackets /\
  exists taxable tax net effective marginal,
    on_calculate strip_blanks float_of_digits progressive_form
      = Results taxable tax net effective marginal /\
    0 <= taxable <= 60000 /\
    0 <= tax /\
    net <= 60000 /\
    0 <= effective /\
    (marginal = 0 \/ exists b, In b sample_brackets /\ rate b = marginal) /\
    (60000 <= 0 ->
     taxable == 0 /\ tax == 0 /\ marginal = 0 /\ net == 60000).
Proof.
  assert (H1 : var_mode progressive_form <> "flat") by discriminate.
  assert (H2 : collect_numbers float_of_digits progressive_form
               = Accepted (60000, 0)) by reflexivity.
  assert (H3 : collect_brackets strip_blanks float_of_digits progressive_form
               = Accepted sample_brackets) by reflexivity.
  assert (H4 : sample_brackets <> []) by discriminate.
  assert (H5 : Forall (fun b => 0 <= rate b) sample_brackets)
    by (repeat constructor; simpl; lra).
  split; [exact H1|]. split; [exact H2|]. split; [exact H3|].
  split; [exact H4|]. split; [exact H5|].
  exact (on_calculate_progressive strip_blanks float_of_digits progressive_form
           60000 0 sample_brackets H1 H2 H3 H4 H5).
Defined.

Lemma on_calculate_no_rows_witness :
  var_mode empty_progressive_form <> "flat" /\
  collect_numbers float_of_digits empty_progressive_form
    = Accepted (60000, 0) /\
  bracket_rows empty_progressive_form = [] /\
  collect_brackets strip_blanks float_of_digits empty_progressive_form
    = Accepted [] /\
  on_calculate strip_blanks float_of_digits empty_progressive_form
    = Uncaught IndexError.
Proof.
  assert (H1 : var_mode empty_progressive_form <> "flat") by discriminate.
  assert (H2 : collect_numbers float_of_digits empty_progressive_form
               = Accepted (60000, 0)) by reflexivity.
  assert (H3 : bracket_rows empty_progressive_form = []) by reflexivity.
  split; [exact H1|]. split; [exact H2|]. split; [exact H3|].
  exact (on_calculate_no_rows strip_blanks float_of_digits
           empty_progressive_form 60000 0 H1 H2 H3).
Defined.

(** * Saving a profile from the form *)

Lemma dict_set_consistent (n : string) (p : TaxProfile) (m : dict TaxProfile) :
  name p = n ->
  (exists bs, brackets p = Some bs) ->
  consistent m ->
  consistent (dict_set n p m).
Proof.
  intros Hn Hbs (Hkeys & Hnd & Hbr).
  split; [|split].
  - apply dict_set_Forall; [now simpl|assumption].
  - now apply dict_set_NoDup.
  - apply dict_set_Forall; [now simpl|assumption].
Qed.

Section SaveFacts.
Variable strip : string -> string.
Variable float_of : string -> parsed.

Lemma collect_profile_shape (f : form) (n : string) (p : TaxProfile) :
  collect_profile strip float_of f n = Accepted p ->
  name p = n /\ mode p = var_mode f /\ exists bs, brackets p = Some bs.
Proof.
  unfold collect_profile.
  destruct (String.eqb (var_mode f) "flat").
  - destruct (float_or float_of FlatRateInvalid (var_flat_rate f));
      simpl; try discriminate.
    intros [= <-]. simpl. repeat split. now eexists.
  - destruct (collect_brackets strip float_of f); simpl; try discriminate.
    intros [= <-]. simpl. repeat split. now eexists.
Qed.

(** X20.  A profile that [_collect_profile] builds from the form comes
    back unchanged from its JSON form: [from_json] of its [to_json]
    returns it, with the name asked for. *)
Theorem collect_profile_round_trip (f : form) (n : string) (p : TaxProfile) :
  collect_profile strip float_of f n = Accepted p ->
  name p = n /\ from_json (to_json p) = Return p.
Proof.
  intros Hp. destruct (collect_profile_shape f n p Hp) as (Hn & _ & Hbs).
  split; [assumption|].
  rewrite from_json_to_json_normalised. f_equal.
  now apply with_bracket_list_id.
Qed.

(** X21.  Starting from profiles in which every key is the name of its
    profile, no key occurs twice and every [brackets] field is a list:
    when "Save As" ends with the profile saved, the profiles again have
    these properties, the name asked for maps to a profile of that name,
    every other name maps to what it did, and loading the file written
    returns exactly the profiles of the application.  In every other
    case the profiles and the file are left as they were. *)
Theorem on_save_profile_spec
    (f : form) (answer : option string)
    (profiles : dict TaxProfile) (file : option pyval) :
  consistent profiles ->
  match on_save_profile strip float_of f answer profiles file with
  | (profiles', file', Saved n) =>
      answer = Some n /\
      consistent profiles' /\
      (exists p, dict_get n profiles' = Some p /\ name p = n) /\
      (forall k, k <> n -> dict_get k profiles' = dict_get k profiles) /\
      file' = Some (save_profiles profiles') /\
      load_profiles file' = (Return profiles', file')
  | (profiles', file', _) => profiles' = profiles /\ file' = file
  end.
Proof.
  intros Hcons. unfold on_save_profile.
  destruct answer as [n|]; [|now split].
  destruct (String.eqb n ""); [now split|].
  destruct (collect_profile strip float_of f n) as [p| |] eqn:Ep;
    try (now split).
  destruct (collect_profile_shape f n p Ep) as (Hn & _ & Hbs).
  pose proof (dict_set_consistent n p profiles Hn Hbs Hcons) as Hcons'.
  split; [reflexivity|]. split; [assumption|]. split.
  { exists p. split; [|assumption].
    rewrite dict_get_set. now rewrite String.eqb_refl. }
  split.
  { intros k Hk. rewrite dict_get_set.
    apply String.eqb_neq in Hk. now rewrite Hk. }
  split; [reflexivity|].
  simpl. now rewrite load_saved_consistent.
Qed.
End SaveFacts.

Lemma collect_profile_round_trip_witness :
  collect_profile strip_blanks float_of_digits progressive_form "Mine"
    = Accepted (mkTaxProfile "Mine" "progressive" 10 (Some sample_brackets)) /\
  from_json (to_json (mkTaxProfile "Mine" "progressive" 10 (Some sample_brackets)))
    = Return (mkTaxProfile "Mine" "progressive" 10 (Some sample_brackets)).
Proof.
  assert (H : collect_profile strip_blanks float_of_digits progressive_form "Mine"
              = Accepted (mkTaxProfile "Mine" "progressive" 10
                                       (Some sample_brackets)))
    by reflexivity.
  split; [exact H|].
  exact (proj2 (collect_profile_round_trip strip_blanks float_of_digits
                  progressive_form "Mine" _ H)).
Defined.

Lemma on_save_profile_spec_witness :
  consistent [ ("X", last_x); ("Y", only_y) ] /\
  match on_save_profile strip_blanks float_of_digits progressive_form
                        (Some "Y") [ ("X", last_x); ("Y", only_y) ] None with
  | (profiles', file', Saved n) =>
      Some "Y" = Some n /\
      consistent profiles' /\
      (exists p, dict_get n profiles' = Some p /\ name p = n) /\
      (forall k, k <> n ->
                 dict_get k profiles'
                 = dict_get k [ ("X", last_x); ("Y", only_y) ]) /\
      file' = Some (save_profiles profiles') /\
      load_profiles file' = (Return profiles', file')
  | (profiles', file', _) =>
      profiles' = [ ("X", last_x); ("Y", only_y) ] /\ file' = None
  end.
Proof.
  assert (H : consistent [ ("X", last_x); ("Y", only_y) ]).
  { split; [repeat constructor|]. split.
    - repeat constructor; simpl; intuition discriminate.
    - repeat constructor; simpl; now eexists. }
  split; [exact H|].
  exact (on_save_profile_spec strip_blanks float_of_digits progressive_form
           (Some "Y") [ ("X", last_x); ("Y", only_y) ] None H).
Defined.

(** X22.  Whenever [load_profiles] returns profiles, from a profile file
    or from the defaults it seeds, every key is the name of its profile,
    no key occurs twice and every [brackets] field is a list: what "Save
    As" starts from. *)
Theorem load_profiles_consistent (file : option pyval) (m : dict TaxProfile) :
  fst (load_profiles file) = Return m ->
  consistent m.
Proof.
  destruct file as [raw|]; simpl.
  - apply load_existing_consistent.
  - intros [= <-].
    split; [repeat constructor|]. split.
    + repeat constructor; simpl; intuition discriminate.
    + repeat constructor; simpl; now eexists.
Qed.

Lemma load_profiles_consistent_witness :
  fst (load_profiles (Some (PDict edited_store)))
    = Return [ ("X", last_x); ("Y", only_y) ] /\
  consistent [ ("X", last_x); ("Y", only_y) ].
Proof.
  assert (H : fst (load_profiles (Some (PDict edited_store)))
              = Return [ ("X", last_x); ("Y", only_y) ]) by reflexivity.
  split; [exact H|].
  exact (load_profiles_consistent _ _ H).
Defined.

(** * The calculators with rounding *)

(** ** The rounding of binary64 *)

Lemma binary64_proper (x y : Q) : x == y -> binary64 x == binary64 y.
Proof.
  intros H. unfold binary64. rewrite (Qred_complete x y H). reflexivity.
Qed.

Lemma binary64_zero (x : Q) : x == 0 -> binary64 x == 0.
Proof.
  intros H. unfold binary64. rewrite (Qred_complete x 0 H). reflexivity.
Qed.

Lemma nearest_nonneg (num den : Z) :
  (0 <= num)%Z -> (0 < den)%Z ->
  (0 <= (if 2 * (num mod den) <? den then num / den
         else if den <? 2 * (num mod den) then num / den + 1
         else if Z.even (num / den) then num / den else num / den + 1))%Z.
Proof.
  intros Hn Hd.
  assert (H : (0 <= num / den)%Z) by (apply Z.div_pos; lia).
  repeat match goal with |- context [if ?c then _ else _] => destruct c end; lia.
Qed.

Lemma round_pos_nonneg (n d : positive) : 0 <= round_pos n d.
Proof.
  unfold round_pos. cbv zeta.
  set (s := Z.min _ 1074).
  set (num := (Zpos n * 2 ^ Z.max 0 s)%Z).
  set (den := (Zpos d * 2 ^ Z.max 0 (- s))%Z).
  assert (Hnum : (0 <= num)%Z).
  { unfold num. apply Z.mul_nonneg_nonneg; [lia|]. apply Z.pow_nonneg. lia. }
  assert (Hden : (0 < den)%Z).
  { unfold den. apply Z.mul_pos_pos; [lia|]. apply Z.pow_pos_nonneg; lia. }
  pose proof (nearest_nonneg num den Hnum Hden) as Hm.
  destruct (0 <=? s)%Z; unfold Qle; cbn [Qnum Qden];
    rewrite Z.mul_0_l, Z.mul_1_r.
  - exact Hm.
  - apply Z.mul_nonneg_nonneg; [exact Hm|]. apply Z.pow_nonneg. lia.
Qed.

Lemma binary64_nonneg (x : Q) : 0 <= x -> 0 <= binary64 x.
Proof.
  intros H. unfold binary64.
  assert (Hr : 0 <= Qred x) by now rewrite Qred_correct.
  destruct (Qred x) as [[|n|n] d]; simpl.
  - apply Qle_refl.
  - apply round_pos_nonneg.
  - unfold Qle in Hr. simpl in Hr. lia.
Qed.

(** ** A run in which no operation rounds *)

Section Exactness.
Variable rnd : Q -> Q.

Lemma exact_eq (q : Q) : exact rnd q = true -> rnd q == q.
Proof.
  unfold exact. intros H. apply andb_true_iff in H. destruct H as [H _].
  now apply Qeq_bool_eq.
Qed.

Lemma span_of_agree (rem rem' : Q) (upper lower : xfloat) :
  rem == rem' ->
  match upper, lower with
  | Fin u, Fin l => exact rnd (u - l)
  | _, _ => true
  end = true ->
  span_of_rnd rnd rem upper lower == span_of rem' upper lower.
Proof.
  intros Hrem He. destruct upper as [u|], lower as [l|]; simpl;
    try (apply exact_eq in He); cases_cmp; lra.
Qed.

Lemma walk_step_agree (b : FBracket) (s t : walk_state) :
  same_state s t ->
  step_exact rnd b s = true ->
  same_state (walk_step_rnd rnd b s) (walk_step b t).
Proof.
  intros (Hr & Hl & Ht & Hm) He. unfold step_exact in He.
  apply andb_true_iff in He. destruct He as [Hd Hs].
  pose proof (span_of_agree _ _ (f_up_to b) (lower_bound s) Hr Hd) as Hspan.
  unfold walk_step_rnd, walk_step. rewrite <- Hl.
  set (sp := span_of_rnd rnd (remaining s) (f_up_to b) (lower_bound s)) in *.
  set (sp' := span_of (remaining t) (f_up_to b) (lower_bound s)) in *.
  destruct (Qlt_le_dec 0 sp) as [P|P], (Qlt_le_dec 0 sp') as [P'|P'];
    try lra.
  - apply andb_true_iff in Hs. destruct Hs as [Hs E4].
    apply andb_true_iff in Hs. destruct Hs as [Hs E3].
    apply andb_true_iff in Hs. destruct Hs as [E1 E2].
    apply exact_eq in E1, E2, E3, E4.
    unfold same_state. simpl.
    split; [rewrite E4, Hr, Hspan; reflexivity|].
    split; [reflexivity|]. split; [|reflexivity].
    rewrite E3, E2, E1, Hspan, Ht. reflexivity.
  - unfold same_state. simpl. auto.
Qed.

Lemma walk_agree (l : list FBracket) :
  forall s t,
    same_state s t ->
    walk_exact rnd l s = true ->
    same_state (walk_rnd rnd l s) (walk l t).
Proof.
  induction l as [|b l IH]; intros s t Hst He; simpl in *; [assumption|].
  apply andb_true_iff in He. destruct He as [H1 H2].
  pose proof (walk_step_agree b s t Hst H1) as Hstep.
  pose proof Hstep as (Hr & _).
  destruct (Qlt_le_dec 0 (remaining (walk_step_rnd rnd b s))) as [P|P],
           (Qlt_le_dec 0 (remaining (walk_step b t))) as [P'|P'];
    try lra; auto.
Qed.

Lemma same_state_refl (s : walk_state) : same_state s s.
Proof.
  unfold same_state. repeat split; reflexivity.
Qed.

Lemma exact_run_agrees (taxable : Q) (bs : list Bracket) :
  exact_run rnd taxable bs = true ->
  exists st st',
    final_state_rnd rnd taxable bs = Return st /\
    final_state taxable bs = Return st' /\
    same_state st st'.
Proof.
  unfold exact_run, final_state_rnd, final_state.
  destruct (cleaned_brackets bs) as [l| |]; try discriminate.
  intros He. simpl bind. do 2 eexists.
  split; [reflexivity|]. split; [reflexivity|].
  apply walk_agree; [apply same_state_refl|exact He].
Qed.
Lemma exact_run_returns (taxable : Q) (bs : list Bracket) :
  exact_run rnd taxable bs = true ->
  exists t t' m,
    compute_tax_progressive_rnd rnd taxable bs = Return (t, m) /\
    compute_tax_progressive taxable bs = Return (t', m) /\
    t == t'.
Proof.
  intros He.
  destruct (exact_run_agrees taxable bs He)
    as (st & st' & Hst & Hst' & _ & _ & Ht & Hm).
  exists (total_tax st), (total_tax st'), (marginal_rate st).
  unfold compute_tax_progressive_rnd, compute_tax_progressive.
  rewrite Hst, Hst'. simpl bind.
  split; [reflexivity|]. split; [now rewrite Hm|exact Ht].
Qed.

Lemma flat_exact_returns (taxable r : Q) :
  flat_exact rnd taxable r = true ->
  fst (compute_tax_flat_rnd rnd taxable r) == fst (compute_tax_flat taxable r).
Proof.
  unfold flat_exact. intros H. apply andb_true_iff in H. destruct H as [E1 E2].
  apply exact_eq in E1, E2.
  unfold compute_tax_flat_rnd, compute_tax_flat. cbn [fst].
  now rewrite E2, E1.
Qed.
End Exactness.

(** ** The loop with rounding takes the whole income *)

Section RoundedLoop.
Variable rnd : Q -> Q.
Hypothesis rnd_zero : forall x, x == 0 -> rnd x == 0.
Hypothesis rnd_nonneg : forall x, 0 <= x -> 0 <= rnd x.

Lemma span_of_rnd_bounds (rem : Q) (u l : xfloat) :
  0 <= rem -> 0 <= span_of_rnd rnd rem u l <= rem.
Proof.
  intros Hrem. destruct u, l; simpl; cases_cmp; lra.
Qed.

Lemma walk_step_rnd_lower (b : FBracket) (st : walk_state) :
  lower_bound (walk_step_rnd rnd b st) = f_up_to b.
Proof.
  unfold walk_step_rnd. destruct (Qlt_le_dec 0 _); reflexivity.
Qed.

Lemma walk_step_rnd_remaining (b : FBracket) (st : walk_state) :
  0 <= remaining st ->
  0 <= remaining (walk_step_rnd rnd b st).
Proof.
  intros Hrem. unfold walk_step_rnd.
  pose proof (span_of_rnd_bounds (remaining st) (f_up_to b) (lower_bound st) Hrem).
  destruct (Qlt_le_dec 0 _); simpl; [|assumption].
  apply rnd_nonneg. lra.
Qed.

Lemma walk_step_rnd_unbounded (b : FBracket) (st : walk_state) :
  f_up_to b = PosInf ->
  is_finite (lower_bound st) = true ->
  0 <= remaining st ->
  remaining (walk_step_rnd rnd b st) == 0.
Proof.
  intros Eb Hfin Hrem. unfold walk_step_rnd. rewrite Eb.
  destruct (lower_bound st) as [l|]; [|discriminate]. simpl span_of_rnd.
  destruct (Qlt_le_dec 0 (py_max 0 (remaining st))) as [P|P]; simpl.
  - apply rnd_zero. revert P. cases_cmp; lra.
  - revert P. cases_cmp; lra.
Qed.

Lemma walk_rnd_exhausts (l : list FBracket) :
  forall st,
    (exists b, In b l /\ f_up_to b = PosInf) ->
    is_finite (lower_bound st) = true ->
    0 <= remaining st ->
    remaining (walk_rnd rnd l st) == 0.
Proof.
  induction l as [|b l IH]; intros st (c & Hc & Ec) Hfin Hrem;
    [destruct Hc|].
  simpl. pose proof (walk_step_rnd_remaining b st Hrem) as H0.
  destruct (Qlt_le_dec 0 (remaining (walk_step_rnd rnd b st))) as [Hgo|Hstop];
    [|lra].
  assert (Hkey : is_finite (f_up_to b) = true).
  { destruct (f_up_to b) eqn:Eb; [reflexivity|]. exfalso.
    pose proof (walk_step_rnd_unbounded b st Eb Hfin Hrem). lra. }
  apply IH.
  - destruct Hc as [->|Hc]; [rewrite Ec in Hkey; discriminate|].
    now exists c.
  - now rewrite walk_step_rnd_lower.
  - assumption.
Qed.

Lemma walk_rnd_marginal (l : list FBracket) :
  forall st,
    (marginal_rate (walk_rnd rnd l st) = marginal_rate st /\
     remaining (walk_rnd rnd l st) = remaining st) \/
    exists b, In b l /\ f_rate b = marginal_rate (walk_rnd rnd l st).
Proof.
  induction l as [|b l IH]; intros st; simpl; [now left|].
  assert (Hstep : (marginal_rate (walk_step_rnd rnd b st) = marginal_rate st /\
                   remaining (walk_step_rnd rnd b st) = remaining st) \/
                  marginal_rate (walk_step_rnd rnd b st) = f_rate b).
  { unfold walk_step_rnd. destruct (Qlt_le_dec 0 _); simpl; [now right|now left]. }
  destruct (Qlt_le_dec 0 (remaining (walk_step_rnd rnd b st))).
  - destruct (IH (walk_step_rnd rnd b st)) as [[Em Er]|(c & Hc & Ec)].
    + destruct Hstep as [[Em' Er']|Em'].
      * left. split; congruence.
      * right. exists b. split; [now left|congruence].
    + right. exists c. split; [now right|assumption].
  - destruct Hstep as [H|Em']; [now left|].
    right. exists b. split; [now left|congruence].
Qed.

Lemma final_state_rnd_exhausts (taxable : Q) (bs : list Bracket) :
  bs <> [] ->
  exists st,
    final_state_rnd rnd taxable bs = Return st /\
    compute_tax_progressive_rnd rnd taxable bs
      = Return (total_tax st, marginal_rate st) /\
    remaining st == 0.
Proof.
  intros Hne. destruct (cleaned_brackets_returns bs Hne) as [l Hl].
  exists (walk_rnd rnd l (initial_state taxable)).
  unfold compute_tax_progressive_rnd, final_state_rnd. rewrite Hl. simpl bind.
  split; [reflexivity|]. split; [reflexivity|].
  apply walk_rnd_exhausts.
  - exact (cleaned_brackets_unbounded bs l Hl).
  - reflexivity.
  - apply initial_state_nonneg.
Qed.
End RoundedLoop.

(** ** Sums of full spans, from the brackets as they are given *)













(** ** Rates that follow the bounds *)

Lemma rates_follow_bounds_sorted (bs : list Bracket) :
  rates_follow_bounds bs ->
  rates_ascending (sorted_by f_up_to (map normalize bs)).
Proof.
  intros Hfollow. rewrite sorted_by_map.
  set (key := fun b => f_up_to (normalize b)).
  pose proof (sorted_by_ascending key bs) as Hasc.
  assert (Hin : forall a, In a (sorted_by key bs) -> In a bs).
  { intros a Ha. eapply Permutation_in; [|exact Ha].
    symmetry. apply sorted_by_is_Permutation. }
  revert Hasc Hin. generalize (sorted_by key bs) as l.
  unfold rates_ascending, ascending.
  induction l as [|a l IH]; simpl; intros Hasc Hin; [constructor|].
  inversion Hasc as [|? ? Hrest Hall]; subst.
  constructor; [apply IH; [assumption|intros c Hc; apply Hin; now right]|].
  apply Forall_map. apply Forall_map in Hall.
  rewrite Forall_forall in Hall |- *. intros b Hb. simpl.
  apply Hfollow; [apply Hin; now left|apply Hin; now right|].
  specialize (Hall b Hb). unfold key, normalize, bound_le in *. simpl in Hall.
  destruct (up_to a), (up_to b); simpl in Hall; try discriminate; try exact I.
  now apply Qle_bool_iff.
Qed.

(** * What the specification states about the calculators *)

Section RoundedCalculators.
Variable rnd : Q -> Q.
Hypothesis rnd_proper : forall x y, x == y -> rnd x == rnd y.
Hypothesis rnd_zero : forall x, x == 0 -> rnd x == 0.
Hypothesis rnd_nonneg : forall x, 0 <= x -> 0 <= rnd x.

(** C5, as the code has it.  For an income [>= 0] and a rate [>= 0] the
    flat calculator returns the marginal rate [rate], at the income [0]
    too, and, as long as the product stays within the floats, the tax
    that binary64 arithmetic makes of [income * (rate / 100)]: the
    quotient is rounded, then the product.  When both results are floats
    as they are, so that neither is rounded, the tax is
    [income * rate / 100]. *)
Theorem compute_tax_flat_spec (income r : Q) :
  0 <= income ->
  0 <= r ->
  snd (compute_tax_flat_rnd rnd income r) = r /\
  (income * rnd (r / 100) <= max_float ->
   fst (compute_tax_flat_rnd rnd income r) == rnd (income * rnd (r / 100))) /\
  (exact rnd (r / 100) = true ->
   exact rnd (income * (r / 100)) = true ->
   fst (compute_tax_flat_rnd rnd income r) == income * r / 100).
Proof.
  intros Hi _. unfold compute_tax_flat_rnd. cbn [fst snd].
  assert (E : py_max 0 income == income) by (cases_cmp; lra).
  assert (Hf : rnd (py_max 0 income * rnd (r / 100))
               == rnd (income * rnd (r / 100))).
  { apply rnd_proper. rewrite E. reflexivity. }
  split; [reflexivity|]. split; [intros _; exact Hf|].
  intros E1 E2. apply exact_eq in E1, E2. rewrite Hf.
  assert (Hg : rnd (income * rnd (r / 100)) == rnd (income * (r / 100))).
  { apply rnd_proper. rewrite E1. reflexivity. }
  rewrite Hg, E2. field.
Qed.



(** X4.  For a non-empty bracket list whose rates all lie between [0] and
    [top], and taxable incomes [x <= y] in whose two runs no operation
    rounds, the total tax grows from [x] to [y] by at most
    [(y - x) * top / 100], and does not shrink. *)
Theorem compute_tax_progressive_growth (top x y : Q) (bs : list Bracket) :
  bs <> [] ->
  Forall (fun b => 0 <= rate b <= top) bs ->
  x <= y ->
  exact_run rnd x bs = true ->
  exact_run rnd y bs = true ->
  exists tx mx ty my,
    compute_tax_progressive_rnd rnd x bs = Return (tx, mx) /\
    compute_tax_progressive_rnd rnd y bs = Return (ty, my) /\
    0 <= ty - tx <= (y - x) * top / 100.
Proof.
  intros Hne Hrates Hxy Ex Ey.
  destruct (exact_run_returns rnd x bs Ex)
    as (tx & tx' & mx & Hx & Hx' & Etx).
  destruct (exact_run_returns rnd y bs Ey)
    as (ty & ty' & my & Hy & Hy' & Ety).
  destruct (growth_exact top x y bs Hne Hrates Hxy)
    as (ex & ? & ey & ? & Hex & Hey & Hdiff).
  rewrite Hx' in Hex. injection Hex as <- <-.
  rewrite Hy' in Hey. injection Hey as <- <-.
  exists tx, mx, ty, my. split; [exact Hx|]. split; [exact Hy|].
  assert (E : (y - x) * top / 100 == (y - x) * (top / 100)) by field.
  rewrite Etx, Ety, E. exact Hdiff.
Qed.

(** X5.  For a non-empty bracket list whose brackets all carry the rate
    [r], whatever their bounds, when no operation of either calculator
    rounds, the progressive calculator returns the total tax of the flat
    calculator at rate [r]. *)
Theorem compute_tax_progressive_uniform (taxable r : Q) (bs : list Bracket) :
  bs <> [] ->
  Forall (fun b => rate b == r) bs ->
  exact_run rnd taxable bs = true ->
  flat_exact rnd taxable r = true ->
  exists t m,
    compute_tax_progressive_rnd rnd taxable bs = Return (t, m) /\
    t == fst (compute_tax_flat_rnd rnd taxable r).
Proof.
  intros Hne Hrates He Hf.
  destruct (exact_run_returns rnd taxable bs He)
    as (t & t' & m & Ht & Ht' & Et).
  destruct (uniform_exact taxable r bs Hne Hrates) as (e & ? & He' & Hflat).
  rewrite Ht' in He'. injection He' as <- <-.
  exists t, m. split; [exact Ht|].
  now rewrite Et, Hflat, (flat_exact_returns rnd taxable r Hf).
Qed.

(** X6.  For a non-empty bracket list with non-negative rates in which a
    bracket with a higher or equal bound has a higher or equal rate, when
    no operation of the run rounds, the total tax is at most the taxable
    income taxed at the marginal rate returned: the average rate does not
    exceed the marginal rate. *)
Theorem compute_tax_progressive_average (taxable : Q) (bs : list Bracket) :
  bs <> [] ->
  Forall (fun b => 0 <= rate b) bs ->
  rates_follow_bounds bs ->
  exact_run rnd taxable bs = true ->
  exists t m,
    compute_tax_progressive_rnd rnd taxable bs = Return (t, m) /\
    t <= py_max 0 taxable * m / 100.
Proof.
  intros Hne Hrates Hasc He.
  destruct (exact_run_returns rnd taxable bs He)
    as (t & t' & m & Ht & Ht' & Et).
  destruct (average_exact taxable bs Hne Hrates
              (rates_follow_bounds_sorted bs Hasc)) as (e & ? & He' & Hle).
  rewrite Ht' in He'. injection He' as <- <-.
  exists t, m. split; [exact Ht|].
  assert (E : py_max 0 taxable * m / 100 == py_max 0 taxable * (m / 100))
    by field.
  rewrite Et, E. exact Hle.
Qed.

(** X23.  With rounding too, for a non-empty bracket list, whatever its
    bounds and rates, the calculator returns and no income is left when
    the loop ends. *)
Theorem compute_tax_progressive_rnd_exhausts
    (taxable : Q) (bs : list Bracket) :
  bs <> [] ->
  exists st,
    final_state_rnd rnd taxable bs = Return st /\
    compute_tax_progressive_rnd rnd taxable bs
      = Return (total_tax st, marginal_rate st) /\
    remaining st == 0.
Proof.
  exact (final_state_rnd_exhausts rnd rnd_zero rnd_nonneg taxable bs).
Qed.

(** X24.  With rounding too, for a non-empty bracket list and a taxable
    income that is zero or negative, the calculator returns a total tax
    of [0] and a marginal rate of [0]; and for a positive taxable income
    the marginal rate it returns is the rate of one of the brackets it
    was given. *)
Theorem compute_tax_progressive_rnd_marginal
    (taxable : Q) (bs : list Bracket) :
  bs <> [] ->
  (taxable <= 0 ->
   compute_tax_progressive_rnd rnd taxable bs = Return (0, 0)) /\
  (0 < taxable ->
   exists t m,
     compute_tax_progressive_rnd rnd taxable bs = Return (t, m) /\
     exists b, In b bs /\ rate b = m).
Proof.
  intros Hne. destruct (cleaned_brackets_returns bs Hne) as [l Hl].
  unfold compute_tax_progressive_rnd, final_state_rnd. rewrite Hl. simpl bind.
  split.
  - intros Hneg.
    pose proof (cleaned_brackets_nonempty bs l Hl) as Hl_ne.
    destruct l as [|b l]; [congruence|].
    assert (Hinit : initial_state taxable = mkState 0 (Fin 0) 0 0).
    { unfold initial_state, py_max.
      destruct (Qlt_le_dec 0 taxable); [lra|reflexivity]. }
    rewrite Hinit. simpl walk_rnd. unfold walk_step_rnd.
    simpl remaining. simpl lower_bound.
    pose proof (span_of_rnd_bounds rnd 0 (f_up_to b) (Fin 0) (Qle_refl 0))
      as [_ Hspan].
    destruct (Qlt_le_dec 0 (span_of_rnd rnd 0 (f_up_to b) (Fin 0))); [lra|].
    simpl. reflexivity.
  - intros Hpos. do 2 eexists. split; [reflexivity|].
    assert (Hfrom : Forall (fun fb => exists b, In b bs /\ rate b = f_rate fb) l).
    { apply (cleaned_brackets_Forall _ bs l); [| |assumption].
      - intros fb Hfb. exact Hfb.
      - apply Forall_map. apply Forall_forall. intros b Hb. now exists b. }
    rewrite Forall_forall in Hfrom.
    destruct (walk_rnd_marginal rnd l (initial_state taxable))
      as [[_ Er]|(fb & Hfb & Efb)].
    + exfalso.
      pose proof (walk_rnd_exhausts rnd rnd_zero rnd_nonneg l
                    (initial_state taxable)
                    (cleaned_brackets_unbounded bs l Hl) eq_refl
                    (initial_state_nonneg taxable)) as Hzero.
      rewrite Er in Hzero. simpl in Hzero. revert Hzero. cases_cmp; lra.
    + destruct (Hfrom fb Hfb) as (b & Hb & Eb). exists b.
      split; [assumption|congruence].
Qed.
End RoundedCalculators.

Lemma compute_tax_progressive_rnd_exhausts_witness :
  seven_percent_schedule <> [] /\
  exists st,
    final_state_rnd binary64 100 seven_percent_schedule = Return st /\
    compute_tax_progressive_rnd binary64 100 seven_percent_schedule
      = Return (total_tax st, marginal_rate st) /\
    remaining st == 0.
Proof.
  assert (H : seven_percent_schedule <> []) by discriminate.
  split; [exact H|].
  exact (compute_tax_progressive_rnd_exhausts binary64 binary64_zero
           binary64_nonneg 100 seven_percent_schedule H).
Defined.

Lemma compute_tax_progressive_rnd_marginal_witness :
  seven_percent_schedule <> [] /\
  -5 <= 0 /\
  0 < 100 /\
  compute_tax_progressive_rnd binary64 (-5) seven_percent_schedule
    = Return (0, 0) /\
  exists t m,
    compute_tax_progressive_rnd binary64 100 seven_percent_schedule
      = Return (t, m) /\
    exists b, In b seven_percent_schedule /\ rate b = m.
Proof.
  assert (H1 : seven_percent_schedule <> []) by discriminate.
  assert (H2 : -5 <= 0) by lra.
  assert (H3 : 0 < 100) by lra.
  destruct (compute_tax_progressive_rnd_marginal binary64 binary64_zero
              binary64_nonneg (-5) seven_percent_schedule H1) as [Hz _].
  destruct (compute_tax_progressive_rnd_marginal binary64 binary64_zero
              binary64_nonneg 100 seven_percent_schedule H1) as [_ Hp].
  split; [exact H1|]. split; [exact H2|]. split; [exact H3|].
  split; [exact (Hz H2)|exact (Hp H3)].
Defined.

Lemma compute_tax_flat_spec_witness :
  0 <= 60000 /\
  0 <= 50 /\
  snd (compute_tax_flat_rnd binary64 60000 50) = 50 /\
  60000 * binary64 (50 / 100) <= max_float /\
  fst (compute_tax_flat_rnd binary64 60000 50)
    == binary64 (60000 * binary64 (50 / 100)) /\
  exact binary64 (50 / 100) = true /\
  exact binary64 (60000 * (50 / 100)) = true /\
  fst (compute_tax_flat_rnd binary64 60000 50) == 60000 * 50 / 100.
Proof.
  assert (H1 : 0 <= 60000) by lra.
  assert (H2 : 0 <= 50) by lra.
  assert (E1 : exact binary64 (50 / 100) = true) by (vm_compute; reflexivity).
  assert (E2 : exact binary64 (60000 * (50 / 100)) = true)
    by (vm_compute; reflexivity).
  assert (E0 : 60000 * binary64 (50 / 100) <= max_float)
    by (vm_compute; discriminate).
  destruct (compute_tax_flat_spec binary64 binary64_proper 60000 50 H1 H2)
    as (Hs & Hf & He).
  split; [exact H1|]. split; [exact H2|]. split; [exact Hs|].
  split; [exact E0|]. split; [exact (Hf E0)|].
  split; [exact E1|]. split; [exact E2|].
  exact (He E1 E2).
Defined.

(** C5 as stated fails in binary64: for the income [100] and the rate [7]
    the tax returned is [100 * 0.07], with [0.07] the float nearest to
    [7 / 100]; the product rounds to [7.000000000000001], which is not
    [100 * 7 / 100 = 7].  The floats of the kernel give the same value. *)
Lemma compute_tax_flat_spec_counterexample :
  0 <= 100 /\
  0 <= 7 /\
  fst (compute_tax_flat_rnd binary64 100 7)
    == 7881299347898369 # 1125899906842624 /\
  float_is (fst (compute_tax_flat64 100 7))
           (7881299347898369 # 1125899906842624) /\
  ~ fst (compute_tax_flat_rnd binary64 100 7) == 100 * 7 / 100.
Proof.
  split; [lra|]. split; [lra|]. split; [vm_compute; reflexivity|]. split.
  - eexists. split; vm_compute; reflexivity.
  - intros H. vm_compute in H. discriminate.
Qed.





Lemma compute_tax_progressive_growth_witness :
  quarter_schedule <> [] /\
  Forall (fun b => 0 <= rate b <= 75) quarter_schedule /\
  20000 <= 50000 /\
  exact_run binary64 20000 quarter_schedule = true /\
  exact_run binary64 50000 quarter_schedule = true /\
  exists tx mx ty my,
    compute_tax_progressive_rnd binary64 20000 quarter_schedule
      = Return (tx, mx) /\
    compute_tax_progressive_rnd binary64 50000 quarter_schedule
      = Return (ty, my) /\
    0 <= ty - tx <= (50000 - 20000) * 75 / 100.
Proof.
  assert (H1 : quarter_schedule <> []) by discriminate.
  assert (H2 : Forall (fun b => 0 <= rate b <= 75) quarter_schedule)
    by (repeat constructor; simpl; lra).
  assert (H3 : 20000 <= 50000) by lra.
  assert (H4 : exact_run binary64 20000 quarter_schedule = true)
    by (vm_compute; reflexivity).
  assert (H5 : exact_run binary64 50000 quarter_schedule = true)
    by (vm_compute; reflexivity).
  split; [exact H1|]. split; [exact H2|]. split; [exact H3|].
  split; [exact H4|]. split; [exact H5|].
  exact (compute_tax_progressive_growth binary64 75 20000 50000 quarter_schedule
           H1 H2 H3 H4 H5).
Defined.

Lemma compute_tax_progressive_uniform_witness :
  uniform_schedule <> [] /\
  Forall (fun b => rate b == 50) uniform_schedule /\
  exact_run binary64 60000 uniform_schedule = true /\
  flat_exact binary64 60000 50 = true /\
  exists t m,
    compute_tax_progressive_rnd binary64 60000 uniform_schedule = Return (t, m) /\
    t == fst (compute_tax_flat_rnd binary64 60000 50).
Proof.
  assert (H1 : uniform_schedule <> []) by discriminate.
  assert (H2 : Forall (fun b => rate b == 50) uniform_schedule)
    by (repeat constructor).
  assert (H3 : exact_run binary64 60000 uniform_schedule = true)
    by (vm_compute; reflexivity).
  assert (H4 : flat_exact binary64 60000 50 = true)
    by (vm_compute; reflexivity).
  split; [exact H1|]. split; [exact H2|]. split; [exact H3|].
  split; [exact H4|].
  exact (compute_tax_progressive_uniform binary64 60000 50 uniform_schedule
           H1 H2 H3 H4).
Defined.

Lemma compute_tax_progressive_average_witness :
  quarter_schedule <> [] /\
  Forall (fun b => 0 <= rate b) quarter_schedule /\
  rates_follow_bounds quarter_schedule /\
  exact_run binary64 50000 quarter_schedule = true /\
  exists t m,
    compute_tax_progressive_rnd binary64 50000 quarter_schedule = Return (t, m) /\
    t <= py_max 0 50000 * m / 100.
Proof.
  assert (H1 : quarter_schedule <> []) by discriminate.
  assert (H2 : Forall (fun b => 0 <= rate b) quarter_schedule)
    by (repeat constructor; simpl; lra).
  assert (H3 : rates_follow_bounds quarter_schedule).
  { intros a b Ha Hb. simpl in Ha, Hb.
    destruct Ha as [<-|[<-|[<-|[]]]], Hb as [<-|[<-|[<-|[]]]];
      unfold bound_le; simpl; lra. }
  assert (H4 : exact_run binary64 50000 quarter_schedule = true)
    by (vm_compute; reflexivity).
  split; [exact H1|]. split; [exact H2|]. split; [exact H3|].
  split; [exact H4|].
  exact (compute_tax_progressive_average binary64 50000 quarter_schedule
           H1 H2 H3 H4).
Defined.


(** ** The rounding and the floats of the kernel, side by side *)

(** On every pair of the sample floats, the sum, the difference, the
    product and the quotient of the kernel are the floats [binary64]
    gives. *)
Example binary64_agrees :
  forallb (fun a => forallb (operations_agree a) sample_floats) sample_floats
  = true.
Proof.
  vm_compute. reflexivity.
Qed.

(** At the income [4000.4], the bound of the third bracket of
    [tenths_schedule], the differences [4000.4 - 1000.1 - 1000.1] leave a
    little more than the third span [4000.4 - 2000.2]: what is left over
    is taxed by the fourth bracket, whose rate, 30%, is the marginal rate
    returned, and the total tax is above the sum of the three full
    spans. *)
Example compute_tax_progressive_spill :
  exists t f,
    compute_tax_progressive_rnd binary64 (binary64 4000.4) tenths_schedule
      = Return (t, 30) /\
    compute_tax_progressive64 4000.4 tenths_schedule64 = Return (f, 30%float) /\
    float_is 4000.4%float (binary64 4000.4) /\
    float_is f t /\
    boundary_tax (binary64 4000.4) tenths_schedule < t.
Proof.
  do 2 eexists. split; [vm_compute; reflexivity|].
  split; [vm_compute; reflexivity|].
  split; [eexists; split; vm_compute; reflexivity|].
  split; [eexists; split; vm_compute; reflexivity|].
  vm_compute. reflexivity.
Qed.

(** The first scenario of the specification, income [60000] at a flat
    10%: the tax is [6000], though [10 / 100] is not a float. *)
Example scenario_flat_binary64 :
  compute_tax_flat64 60000 10 = (6000%float, 10%float) /\
  fst (compute_tax_flat_rnd binary64 60000 10) == 6000 /\
  exact binary64 (10 / 100) = false.
Proof.
  split; [vm_compute; reflexivity|]. split; vm_compute; reflexivity.
Qed.

(** The sample schedule at the income [60000]: the total tax is [8500] and
    the marginal rate 20%, in binary64 too. *)
Example scenario_progressive_binary64 :
  compute_tax_progressive64 60000
    [ mkBracket64 (Some 10000%float) 5%float;
      mkBracket64 (Some 30000%float) 10%float;
      mkBracket64 (Some 80000%float) 20%float;
      mkBracket64 None 30%float ] = Return (8500%float, 20%float) /\
  exists t,
    compute_tax_progressive_rnd binary64 60000 sample_brackets = Return (t, 20) /\
    t == 8500.
Proof.
  split; [vm_compute; reflexivity|].
  eexists. split; vm_compute; reflexivity.
Qed.
